(** * GPT2-with-noise: a shallow embedding of [GPT/train.py]

    The training script builds a GPT-2 style transformer on top of
    PyTorch, samples batches from a token sequence, and runs a training
    loop with a warmup/cosine learning-rate schedule.

    Conventions of the embedding.
    - Python integers are [Z] or [nat]; Python floats and tensor
      entries are idealised as real numbers [R] (exact arithmetic).
    - A raised Python exception is the [Err] case of [result].
    - A tensor of shape (T) is a list, of shape (B, T) a list of B rows,
      of shape (B, T, C) a list of B lists of T vectors.
    - Library kernels (torch) are modelled after their documented
      semantics; the error function used by GELU is a parameter. *)

From Stdlib Require Import Reals Lra Lia ZArith List Bool.
From stdpp Require Import base option list gmap.
Import ListNotations.

Set Default Proof Using "Type".

(** ** Python exceptions and fallible computations *)

Inductive py_error : Set :=
| AssertionError
| ZeroDivisionError
| TypeError
| IndexError
| ValueError
| RuntimeError
| OverflowError.

Inductive result (A : Type) : Type :=
| Ok (a : A)
| Err (e : py_error).

Arguments Ok {A} a.
Arguments Err {A} e.

#[global] Instance result_ret : MRet result := fun _ a => Ok a.
#[global] Instance result_bind : MBind result := fun _ _ f m =>
  match m with
  | Ok a => f a
  | Err e => Err e
  end.
#[global] Instance result_fmap : FMap result := fun _ _ f m =>
  match m with
  | Ok a => Ok (f a)
  | Err e => Err e
  end.

Definition is_ok {A} (m : result A) : bool :=
  match m with Ok _ => true | Err _ => false end.

(** Comparisons of floats are decidable tests in the code. *)
#[global] Instance Rle_decision (a b : R) : Decision (a <= b)%R := Rle_dec a b.
#[global] Instance Rlt_decision (a b : R) : Decision (a < b)%R := Rlt_dec a b.

(** [assert c] of Python: continue when [c] holds, raise otherwise. *)
Definition py_assert (c : bool) : result unit :=
  if c then Ok tt else Err AssertionError.

(** ** Learning-rate schedule: [get_lr] (train.py, lines 181-189)

    The schedule constants are module-level globals of the script; they
    are the section variables here. *)

Section Scheduler.
Local Open Scope R_scope.

Variables (max_lr min_lr : R) (warmup_steps max_steps : Z).

(** True division [a / b] of a float by a Python integer. *)
Definition py_div_int (a : R) (b : Z) : result R :=
  if (b =? 0)%Z then Err ZeroDivisionError else Ok (a / IZR b).

Definition get_lr (it : Z) : result R :=
  if (it <? warmup_steps)%Z then
    py_div_int (max_lr * IZR (it + 1)) warmup_steps
  else if (it >? max_steps)%Z then
    Ok min_lr
  else
    decay_ratio ← py_div_int (IZR (it - warmup_steps)) (max_steps - warmup_steps);
    _ ← py_assert (bool_decide (0 <= decay_ratio <= 1));
    let coeff := 0.5 * (1 + cos (PI * decay_ratio)) in
    Ok (min_lr + coeff * (max_lr - min_lr)).

End Scheduler.

(** The constants assigned under [__main__] (lines 201-204). *)
Definition main_max_steps : Z := 100.
Definition main_max_lr : R := 6e-4.
Definition main_min_lr : R := 0.1 * main_max_lr.
Definition main_warmup_steps : Z := 10.

Definition main_get_lr : Z -> result R :=
  get_lr main_max_lr main_min_lr main_warmup_steps main_max_steps.

(** ** Batch sampler: [DataLoaderLite] (train.py, lines 150-178) *)

(** Slices of a one-dimensional tensor: [l[i:j]] for [0 <= i], [l[:-1]]
    and [l[1:]].  A slice is clamped to the tensor's extent. *)
Definition py_slice {A} (l : list A) (i j : nat) : list A :=
  take (j - i) (drop i l).
Definition py_drop_last {A} (l : list A) : list A := removelast l.
Definition py_drop_first {A} (l : list A) : list A := drop 1 l.

(** [t.view(B, T)] of a one-dimensional tensor: the element count must
    be exactly [B * T]. *)
Definition view2 {A} (B T : nat) (l : list A) : result (list (list A)) :=
  if bool_decide (length l = B * T) then Ok (reshape (replicate B T) l)
  else Err RuntimeError.

Record DataLoaderLite : Type := mkDataLoaderLite {
  dl_B : nat;
  dl_T : nat;
  dl_tokens : list Z;
  dl_current : nat
}.

Definition batch : Type := (list (list Z) * list (list Z))%type.

Definition next_batch (self : DataLoaderLite) : result (batch * DataLoaderLite) :=
  let B := dl_B self in
  let T := dl_T self in
  let buff := py_slice (dl_tokens self) (dl_current self) (dl_current self + B * T + 1) in
  x ← view2 B T (py_drop_last buff);
  y ← view2 B T (py_drop_first buff);
  let current := dl_current self + B * T in
  let current :=
    if bool_decide (length (dl_tokens self) ≤ current + B * T + 1) then 0 else current in
  Ok ((x, y), mkDataLoaderLite B T (dl_tokens self) current).

(** [n] consecutive calls of [next_batch], collecting what they return. *)
Fixpoint next_batches (n : nat) (self : DataLoaderLite) : result (list batch * DataLoaderLite) :=
  match n with
  | O => Ok ([], self)
  | S n' =>
      r ← next_batch self;
      rs ← next_batches n' r.2;
      Ok (r.1 :: rs.1, rs.2)
  end.

(** A freshly constructed loader: the cursor starts at 0 (line 166). *)
Definition DataLoaderLite_init (B T : nat) (tokens : list Z) : DataLoaderLite :=
  mkDataLoaderLite B T tokens 0.

(** All input tokens, resp. all target tokens, of a run of batches. *)
Definition inputs_of (bs : list batch) : list Z := mjoin (map (λ b, mjoin b.1) bs).
Definition targets_of (bs : list batch) : list Z := mjoin (map (λ b, mjoin b.2) bs).

(** A batch of shape (B, T): input and target both have B rows of T. *)
Definition batch_shape (B T : nat) (b : batch) : Prop :=
  length b.1 = B ∧ length b.2 = B ∧
  Forall (λ r, length r = T) b.1 ∧ Forall (λ r, length r = T) b.2.

Definition ceil_div (a b : nat) : nat := (a + b - 1) / b.

(** The coverage property as the specification words it: after
    [ceil (L / (B*T))] calls from cursor 0 no call has raised, every
    token of the sequence occurs in some returned batch, and the cursor
    is back at the start. *)
Definition covers_then_wraps (B T : nat) (tokens : list Z) : Prop :=
  ∃ bs self',
    next_batches (ceil_div (length tokens) (B * T)) (DataLoaderLite_init B T tokens)
      = Ok (bs, self') ∧
    (∀ tok, tok ∈ tokens → tok ∈ inputs_of bs ∨ tok ∈ targets_of bs) ∧
    dl_current self' = 0.

(** Calls per epoch as the code has it: the cursor returns to 0 after
    this many calls. *)
Definition batches_per_epoch (B T L : nat) : nat := Nat.max 1 ((L - 2) / (B * T)).

(** ** Training loop: the loss diagnostic (train.py, lines 238-268)

    [loss_accum] is bound once, before the loop over macro-steps.  The
    loss that [model(x, y)] returns at macro-step [step] and micro-step
    [mikro_step] is given by [micro_loss]; the other actions of the loop
    body (backward, clipping, optimizer step) do not touch [loss_accum]. *)

Definition Rsum (l : list R) : R := foldr Rplus 0%R l.

Section TrainingLoop.
Local Open Scope R_scope.

Variables (grad_accum_steps : nat) (micro_loss : nat → nat → R).

(** Lines 246-255: [loss = loss / grad_accum_steps; loss_accum += loss]. *)
Definition micro_steps (step : nat) (loss_accum : R) : R :=
  foldl (λ loss_accum mikro_step,
           let loss := micro_loss step mikro_step / INR grad_accum_steps in
           loss_accum + loss)
        loss_accum (seq 0 grad_accum_steps).

(** Lines 238-268: the state is [loss_accum] and the list of [Loss]
    values printed so far, one per macro-step. *)
Definition train_loop (max_steps : nat) : R * list R :=
  foldl (λ st step,
           let loss_accum := micro_steps step st.1 in
           (loss_accum, st.2 ++ [loss_accum]))
        (0, []) (seq 0 max_steps).

Definition printed_loss (max_steps : nat) : list R := (train_loop max_steps).2.

(** The mean micro-step loss of one macro-step, and its running total. *)
Definition mean_loss (step : nat) : R :=
  Rsum (map (micro_loss step) (seq 0 grad_accum_steps)) / INR grad_accum_steps.

Definition cumulative_loss (s : nat) : R :=
  Rsum (map mean_loss (seq 0 (S s))).

End TrainingLoop.

(** ** Model construction: modules and their parameters

    A parameter is a tensor object on a heap; a module attribute holds a
    reference (a location) to it, so two attributes may name one tensor.
    Tensor contents are symbolic: what matters for construction is which
    initialiser wrote a tensor last, not the numbers drawn. *)

Record GPTConfig : Type := mkGPTConfig {
  block_size : nat;
  vocab_size : nat;
  n_layer : nat;
  n_head : nat;
  n_embd : nat;
  batch_size : nat
}.

(** The dataclass defaults (lines 16-22). *)
Definition GPTConfig_default : GPTConfig := mkGPTConfig 1024 50257 12 12 768 2.

(** The configuration of the run: [GPTConfig(vocab_size=50304)] (line 206). *)
Definition main_config : GPTConfig := mkGPTConfig 1024 50304 12 12 768 2.

Definition loc : Type := nat.

Inductive tensor_val : Type :=
| TorchDefault                         (* the layer constructor's own init *)
| Ones
| Zeros
| Normal (mean std : R) (draw : nat)   (* [normal_]: the [draw]-th use of the generator *)
| Stepped (v : tensor_val) (step : nat). (* updated in place by optimizer step [step] *)

Record world : Type := mkWorld {
  w_heap : gmap loc tensor_val;
  w_next : loc;
  w_rng : nat
}.

(** Stateful, fallible computations over the heap. *)
Definition St (A : Type) : Type := world → result (A * world).

#[global] Instance St_ret : MRet St := λ _ a s, Ok (a, s).
#[global] Instance St_bind : MBind St := λ _ _ f m s,
  match m s with
  | Ok (a, s') => f a s'
  | Err e => Err e
  end.

Definition St_lift {A} (r : result A) : St A := λ s,
  match r with Ok a => Ok (a, s) | Err e => Err e end.

(** A new tensor object. *)
Definition alloc (v : tensor_val) : St loc := λ s,
  Ok (w_next s, mkWorld (<[w_next s := v]> (w_heap s)) (S (w_next s)) (w_rng s)).

(** In-place initialisers of [torch.nn.init]. *)
Definition normal_ (p : loc) (mean std : R) : St unit := λ s,
  Ok (tt, mkWorld (<[p := Normal mean std (w_rng s)]> (w_heap s)) (w_next s) (S (w_rng s))).

Definition zeros_ (p : loc) : St unit := λ s,
  Ok (tt, mkWorld (<[p := Zeros]> (w_heap s)) (w_next s) (w_rng s)).

Record Linear : Type := mkLinear {
  lin_weight : loc;
  lin_bias : option loc;
  NANOGPT_SCALE_INIT : bool   (* whether the attribute has been set *)
}.

Record Embedding : Type := mkEmbedding { emb_weight : loc }.

Record LayerNorm : Type := mkLayerNorm { ln_weight : loc; ln_bias : loc }.

Record SelfAttention : Type := mkSelfAttention {
  attn_c_attn : Linear;
  attn_c_proj : Linear
}.

Record MLP : Type := mkMLP {
  mlp_c_fc : Linear;
  mlp_c_proj : Linear
}.

Record Block : Type := mkBlock {
  ln_1 : LayerNorm;
  ln_2 : LayerNorm;
  attn : SelfAttention;
  mlp : MLP
}.

Record GPT : Type := mkGPT {
  wte : Embedding;
  wpe : Embedding;
  h : list Block;
  ln_f : LayerNorm;
  lm_head : Linear
}.

(** Layer constructors of [torch.nn]. *)
Definition nn_Linear (bias : bool) : St Linear :=
  w ← alloc TorchDefault;
  b ← (if bias then b ← alloc TorchDefault; mret (Some b) else mret None);
  mret (mkLinear w b false).

Definition nn_Embedding : St Embedding :=
  w ← alloc TorchDefault; mret (mkEmbedding w).

Definition nn_LayerNorm : St LayerNorm :=
  w ← alloc Ones; b ← alloc Zeros; mret (mkLayerNorm w b).

Definition set_NANOGPT_SCALE_INIT (l : Linear) : Linear :=
  mkLinear (lin_weight l) (lin_bias l) true.

(** [n_embd % n_head == 0] under [assert] (line 28). *)
Definition assert_heads_divide (config : GPTConfig) : result unit :=
  if bool_decide (n_head config = 0) then Err ZeroDivisionError
  else py_assert (bool_decide (n_embd config mod n_head config = 0)).

(** Lines 26-34. *)
Definition SelfAttention_init (config : GPTConfig) : St SelfAttention :=
  _ ← St_lift (assert_heads_divide config);
  c_attn ← nn_Linear true;
  c_proj ← nn_Linear true;
  let c_proj := set_NANOGPT_SCALE_INIT c_proj in
  mret (mkSelfAttention c_attn c_proj).

(** Lines 64-69. *)
Definition MLP_init (config : GPTConfig) : St MLP :=
  c_fc ← nn_Linear true;
  c_proj ← nn_Linear true;
  let c_proj := set_NANOGPT_SCALE_INIT c_proj in
  mret (mkMLP c_fc c_proj).

(** Lines 50-55. *)
Definition Block_init (config : GPTConfig) : St Block :=
  ln_1 ← nn_LayerNorm;
  ln_2 ← nn_LayerNorm;
  attn ← SelfAttention_init config;
  mlp ← MLP_init config;
  mret (mkBlock ln_1 ln_2 attn mlp).

(** [[m for _ in range(n)]]. *)
Fixpoint St_repeat {A} (n : nat) (m : St A) : St (list A) :=
  match n with
  | O => mret []
  | S n' => a ← m; l ← St_repeat n' m; mret (a :: l)
  end.

(** The modules [Module.apply] hands to its callback. *)
Inductive module : Type :=
| MLinear (l : Linear)
| MEmbedding (e : Embedding)
| MLayerNorm (n : LayerNorm)
| MContainer.   (* ModuleDict, ModuleList, Block, SelfAttention, MLP, GELU, GPT *)

(** Children first, in registration order, then the module itself. *)
Definition Block_modules (b : Block) : list module :=
  [MLayerNorm (ln_1 b); MLayerNorm (ln_2 b);
   MLinear (attn_c_attn (attn b)); MLinear (attn_c_proj (attn b)); MContainer;
   MLinear (mlp_c_fc (mlp b)); MLinear (mlp_c_proj (mlp b)); MContainer; MContainer;
   MContainer].

Definition GPT_modules (m : GPT) : list module :=
  [MEmbedding (wte m); MEmbedding (wpe m)]
  ++ (h m ≫= Block_modules) ++ [MContainer]
  ++ [MLayerNorm (ln_f m); MContainer; MLinear (lm_head m); MContainer].

Section InitWeights.
Local Open Scope R_scope.

Variable config : GPTConfig.

(** [0.02 * (2 * n_layer) ** -0.5] (line 96). *)
Definition scaled_std : R := 0.02 * Rpower (INR (2 * n_layer config)) (-0.5).

(** Lines 92-101. *)
Definition _init_weights (module : module) : St unit :=
  let std := 0.02 in
  match module with
  | MLinear l =>
      let std := if NANOGPT_SCALE_INIT l then scaled_std else std in
      _ ← normal_ (lin_weight l) 0 std;
      match lin_bias l with
      | Some b => zeros_ b
      | None => mret tt
      end
  | MEmbedding e => normal_ (emb_weight e) 0 std
  | _ => mret tt
  end.

Fixpoint apply_ (fn : module → St unit) (ms : list module) : St unit :=
  match ms with
  | [] => mret tt
  | m :: ms' => _ ← fn m; apply_ fn ms'
  end.

(** Lines 76-89. *)
Definition GPT_init : St GPT :=
  wte ← nn_Embedding;
  wpe ← nn_Embedding;
  h ← St_repeat (n_layer config) (Block_init config);
  ln_f ← nn_LayerNorm;
  lm_head ← nn_Linear false;
  let wte := mkEmbedding (lin_weight lm_head) in
  let self := mkGPT wte wpe h ln_f lm_head in
  _ ← apply_ _init_weights (GPT_modules self);
  mret self.

End InitWeights.

(** *** Optimizer steps on the parameters (lines 128-147, 264) *)

Definition Linear_parameters (l : Linear) : list loc :=
  lin_weight l :: match lin_bias l with Some b => [b] | None => [] end.

Definition LayerNorm_parameters (n : LayerNorm) : list loc := [ln_weight n; ln_bias n].

Definition Block_parameters (b : Block) : list loc :=
  LayerNorm_parameters (ln_1 b) ++ LayerNorm_parameters (ln_2 b)
  ++ Linear_parameters (attn_c_attn (attn b)) ++ Linear_parameters (attn_c_proj (attn b))
  ++ Linear_parameters (mlp_c_fc (mlp b)) ++ Linear_parameters (mlp_c_proj (mlp b)).

(** The first occurrence of every element, in order: the iterator of
    [named_parameters()] remembers the tensors it has yielded and skips
    them afterwards. *)
Fixpoint first_occurrences (seen l : list loc) : list loc :=
  match l with
  | [] => []
  | p :: l' =>
      if bool_decide (p ∈ seen) then first_occurrences seen l'
      else p :: first_occurrences (p :: seen) l'
  end.

(** [named_parameters()] yields every tensor once, under its first name,
    walking the modules in registration order. *)
Definition named_parameters (m : GPT) : list loc :=
  first_occurrences []
    ([emb_weight (wte m); emb_weight (wpe m)] ++ (h m ≫= Block_parameters)
     ++ LayerNorm_parameters (ln_f m) ++ Linear_parameters (lm_head m)).

(** [optimizer.step()]: every parameter of the groups is updated in place. *)
Definition optimizer_step (params : list loc) (step : nat) (s : world) : world :=
  mkWorld (foldl (λ hp p, alter (λ v, Stepped v step) p hp) (w_heap s) params)
          (w_next s) (w_rng s).

(** The macro-steps of the training loop, as far as parameters go. *)
Definition train_steps (m : GPT) (max_steps : nat) (s : world) : world :=
  foldl (λ s step, optimizer_step (named_parameters m) step s) s (seq 0 max_steps).

(** ** Auxiliary definitions for the construction proofs *)

Definition valid_heads (config : GPTConfig) : Prop :=
  n_head config ≠ 0 ∧ n_embd config mod n_head config = 0.

Definition block_at (n : loc) : Block :=
  mkBlock (mkLayerNorm n (1 + n)) (mkLayerNorm (2 + n) (3 + n))
    (mkSelfAttention (mkLinear (4 + n) (Some (5 + n)) false)
                     (mkLinear (6 + n) (Some (7 + n)) true))
    (mkMLP (mkLinear (8 + n) (Some (9 + n)) false)
           (mkLinear (10 + n) (Some (11 + n)) true)).

Fixpoint blocks_at (n : loc) (k : nat) : list Block :=
  match k with
  | O => []
  | S k' => block_at n :: blocks_at (12 + n) k'
  end.

Definition ln_default (hp : gmap loc tensor_val) (n : LayerNorm) : Prop :=
  hp !! ln_weight n = Some Ones ∧ hp !! ln_bias n = Some Zeros.

(** A world that extends [s] by [k] fresh tensors. *)
Definition extends (s s' : world) (k : nat) : Prop :=
  w_next s' = k + w_next s ∧ w_rng s' = w_rng s ∧
  ∀ p, p < w_next s → w_heap s' !! p = w_heap s !! p.

(** What [_init_weights] writes, as a list of in-place writes. *)
Inductive init_write : Type :=
| WNormal (std : R)
| WZeros.

Definition init_writes (config : GPTConfig) (m : module) : list (loc * init_write) :=
  match m with
  | MLinear l =>
      (lin_weight l, WNormal (if NANOGPT_SCALE_INIT l then scaled_std config else 0.02%R))
      :: match lin_bias l with Some b => [(b, WZeros)] | None => [] end
  | MEmbedding e => [(emb_weight e, WNormal 0.02%R)]
  | _ => []
  end.

Definition perform_write (s : world) (pw : loc * init_write) : world :=
  match pw.2 with
  | WNormal std =>
      mkWorld (<[pw.1 := Normal 0 std (w_rng s)]> (w_heap s)) (w_next s) (S (w_rng s))
  | WZeros => mkWorld (<[pw.1 := Zeros]> (w_heap s)) (w_next s) (w_rng s)
  end.

Definition written (w : init_write) (v : tensor_val) : Prop :=
  match w with
  | WNormal std => ∃ k, v = Normal 0 std k
  | WZeros => v = Zeros
  end.

Definition Block_writes (config : GPTConfig) (b : Block) : list (loc * init_write) :=
  Block_modules b ≫= init_writes config.

Definition Block_ln_locs (b : Block) : list loc :=
  LayerNorm_parameters (ln_1 b) ++ LayerNorm_parameters (ln_2 b).

Definition gpt_at (n : loc) (k : nat) : GPT :=
  let lm_w := 2 + (12 * k + (2 + n)) in
  mkGPT (mkEmbedding lm_w) (mkEmbedding (1 + n)) (blocks_at (2 + n) k)
        (mkLayerNorm (12 * k + (2 + n)) (1 + (12 * k + (2 + n))))
        (mkLinear lm_w None false).

(** ** The forward pass (train.py, lines 36-46, 57-60, 71-72, 103-119)

    Forward reads parameter values through the locations the modules
    hold, so the tied tensor is one value under both of its names.  A
    two-dimensional parameter is a list of rows. *)

Abbreviation vec := (list R).

Record params : Type := mkParams {
  p_mat : loc → list vec;   (* value of a weight matrix or embedding table *)
  p_vec : loc → vec         (* value of a bias or normalisation vector *)
}.

Fixpoint result_mapM {A B} (f : A → result B) (l : list A) : result (list B) :=
  match l with
  | [] => Ok []
  | a :: l' => b ← f a; bs ← result_mapM f l'; Ok (b :: bs)
  end.

Section Forward.
Local Open Scope R_scope.

(** The error function of the exact GELU. *)
Variable erf : R → R.
Variable config : GPTConfig.
Variable θ : params.

Definition dot (a b : vec) : R := Rsum (zip_with Rmult a b).
Definition vadd (a b : vec) : vec := zip_with Rplus a b.
(** Sum of two (T, C) tensors. *)
Definition tadd (a b : list vec) : list vec := zip_with vadd a b.

(** [nn.Linear]: [x @ W^T + b] on the last dimension. *)
Definition Linear_forward (l : Linear) (x : vec) : vec :=
  let y := map (dot x) (p_mat θ (lin_weight l)) in
  match lin_bias l with
  | Some b => vadd y (p_vec θ b)
  | None => y
  end.

(** [nn.LayerNorm] over the last dimension, eps = 1e-5. *)
Definition LayerNorm_forward (n : LayerNorm) (x : vec) : vec :=
  let mean := Rsum x / INR (length x) in
  let var := Rsum (map (λ xi, (xi - mean) * (xi - mean)) x) / INR (length x) in
  zip_with Rplus
    (zip_with Rmult (map (λ xi, (xi - mean) / sqrt (var + 1e-5)) x) (p_vec θ (ln_weight n)))
    (p_vec θ (ln_bias n)).

(** [nn.GELU()], elementwise. *)
Definition gelu (x : R) : R := x * 0.5 * (1 + erf (x / sqrt 2)).

(** [nn.Embedding]: row [i] of the table; an index outside it raises. *)
Definition Embedding_forward (e : Embedding) (i : Z) : result vec :=
  if bool_decide (0 ≤ i)%Z then
    match p_mat θ (emb_weight e) !! Z.to_nat i with
    | Some row => Ok row
    | None => Err IndexError
    end
  else Err IndexError.

(** *** Scaled dot-product attention with [is_causal=True]

    A masked score is minus infinity, [None] here; its exponential is 0. *)
Definition causal_bias (i j : nat) (score : R) : option R :=
  if bool_decide (j ≤ i)%nat then Some score else None.

Definition exp_ext (s : option R) : R :=
  match s with Some s => exp s | None => 0 end.

Definition softmax_ext (scores : list (option R)) : list R :=
  let es := map exp_ext scores in
  map (λ e, e / Rsum es) es.

(** Row [i] of [softmax(q @ k^T * scale + bias)]. *)
Definition attn_weight (scale : R) (k : list vec) (i : nat) (qi : vec) : list R :=
  softmax_ext (imap (λ j kj, causal_bias i j (dot qi kj * scale)) k).

(** Row [w] of a matrix product [w @ v], [v] having [E] columns. *)
Definition row_matmul (E : nat) (w : list R) (v : list vec) : vec :=
  map (λ c, Rsum (zip_with Rmult w (map (λ vj, nth c vj 0) v))) (seq 0 E).

(** One head: [q], [k], [v] are (T, E). *)
Definition scaled_dot_product_attention (E : nat) (q k v : list vec) : list vec :=
  let scale := 1 / sqrt (INR E) in
  imap (λ i qi, row_matmul E (attn_weight scale k i qi) v) q.

(** Lines 36-46, for one sequence of the batch: [x] is (T, C). *)
Definition SelfAttention_forward_seq (a : SelfAttention) (x : list vec) : list vec :=
  let C := n_embd config in
  let hs := (C / n_head config)%nat in
  let qkv := map (Linear_forward (attn_c_attn a)) x in
  let q := map (λ r, py_slice r 0 C) qkv in
  let k := map (λ r, py_slice r C (2 * C)) qkv in
  let v := map (λ r, py_slice r (2 * C) (3 * C)) qkv in
  (* view(B, T, n_head, hs).transpose(1, 2): head [i] takes columns [i*hs, (i+1)*hs) *)
  let head (i : nat) (t : list vec) := map (λ r, py_slice r (i * hs) ((i + 1) * hs)) t in
  let y := map (λ i, scaled_dot_product_attention hs (head i q) (head i k) (head i v))
               (seq 0 (n_head config)) in
  (* transpose(1, 2).contiguous().view(B, T, C): position [t] concatenates the heads *)
  let y := imap (λ t _, mjoin (map (λ yi, nth t yi []) y)) x in
  map (Linear_forward (attn_c_proj a)) y.

Definition SelfAttention_forward (a : SelfAttention) (x : list (list vec)) : list (list vec) :=
  map (SelfAttention_forward_seq a) x.

(** Lines 71-72. *)
Definition MLP_forward (m : MLP) (x : list (list vec)) : list (list vec) :=
  map (map (λ xt, Linear_forward (mlp_c_proj m) (map gelu (Linear_forward (mlp_c_fc m) xt)))) x.

(** Lines 57-60. *)
Definition Block_forward (b : Block) (x : list (list vec)) : list (list vec) :=
  let x := zip_with tadd x (SelfAttention_forward (attn b) (map (map (LayerNorm_forward (ln_1 b))) x)) in
  let x := zip_with tadd x (MLP_forward (mlp b) (map (map (LayerNorm_forward (ln_2 b))) x)) in
  x.

(** *** [F.cross_entropy] with its defaults (mean reduction, ignore_index = -100) *)

Definition nll (logits : vec) (target : nat) : R :=
  - (nth target logits 0 - ln (Rsum (map exp logits))).

Definition ignore_index : Z := -100.

(** The loss of one row, [None] when its target is ignored. *)
Definition cross_entropy_item (logits : vec) (target : Z) : result (option R) :=
  if bool_decide (target = ignore_index) then Ok None
  else if bool_decide (0 ≤ target < Z.of_nat (length logits))%Z
       then Ok (Some (nll logits (Z.to_nat target)))
       else Err IndexError.

(** [input] is (N, V) and [target] is (N); the shapes are checked first. *)
Definition cross_entropy (input : list vec) (target : list Z) : result R :=
  if bool_decide (length input = length target) then
    ls ← result_mapM (λ xt, cross_entropy_item xt.1 xt.2) (zip input target);
    let kept := omap (λ l : option R, l) ls in
    Ok (Rsum kept / INR (length kept))
  else Err ValueError.

(** *** [GPT.forward] (lines 103-119)

    [idx] and [targets] are (B, T) tensors of token ids, given by their
    rows; [T] is the length of a row. *)
Definition size1 {A} (t : list (list A)) : nat := length (hd [] t).

Definition GPT_forward (self : GPT) (idx : list (list Z)) (targets : option (list (list Z)))
  : result (list (list vec) * option R) :=
  let T := size1 idx in
  _ ← py_assert (bool_decide (T ≤ block_size config)%nat);
  let pos := map Z.of_nat (seq 0 T) in
  pos_emb ← result_mapM (Embedding_forward (wpe self)) pos;
  tok_emb ← result_mapM (result_mapM (Embedding_forward (wte self))) idx;
  let x := map (tadd pos_emb) tok_emb in
  let x := foldl (λ x block, Block_forward block x) x (h self) in
  let x := map (map (LayerNorm_forward (ln_f self))) x in
  let logits := map (map (Linear_forward (lm_head self))) x in
  loss ← match targets with
         | Some targets =>
             l ← cross_entropy (mjoin logits) (mjoin targets); Ok (Some l)
         | None => Ok None
         end;
  Ok (logits, loss).

(** *** [GPT.generate] (lines 121-126)

    Python values as far as [generate] touches them: what [self(...)]
    returns is a tuple object, and subscripting dispatches on the
    object's type. *)
Inductive pyobj : Type :=
| PTensor (t : list (list vec))
| PFloat (r : R)
| PNone
| PTuple (a b : pyobj).

Definition py_of_forward (out : list (list vec) * option R) : pyobj :=
  PTuple (PTensor out.1) (match out.2 with Some l => PFloat l | None => PNone end).

(** [o[:, -1]]: defined on a tensor; a tuple accepts only an integer or
    a slice as its index. *)
Definition py_getitem_all_last (o : pyobj) : result (list vec) :=
  match o with
  | PTensor t =>
      result_mapM (λ row, match last row with Some r => Ok r | None => Err IndexError end) t
  | _ => Err TypeError
  end.

(** [x[:, -n:]]: the last [n] columns; [-0] is [0], the whole row. *)
Definition py_last_columns {A} (n : nat) (x : list (list A)) : list (list A) :=
  map (λ row, if bool_decide (n = 0)%nat then row else drop (length row - n) row) x.

(** Index of the first maximal entry. *)
Definition argmax (v : vec) : Z :=
  Z.of_nat (foldr (λ i best, if bool_decide (nth best v 0 <= nth i v 0) then i else best)
                  0%nat (seq 0 (length v))).

Fixpoint generate (self : GPT) (x : list (list Z)) (max_len : nat) : result (list (list Z)) :=
  match max_len with
  | O => Ok x
  | S max_len' =>
      out ← GPT_forward self (py_last_columns (block_size config) x) None;
      let logits := py_of_forward out in
      last_logits ← py_getitem_all_last logits;
      let next_token := map argmax last_logits in
      let x := zip_with (λ row tok, row ++ [tok]) x next_token in
      generate self x max_len'
  end.

End Forward.

(** ** Auxiliary definitions for the forward-pass proofs *)

(** One sequence of the batch through a block, and through the model
    from its embeddings on: the batch dimension is a [map] of these. *)
Definition Block_forward_seq (erf : R → R) (config : GPTConfig) (θ : params)
    (b : Block) (x : list vec) : list vec :=
  let x := tadd x (SelfAttention_forward_seq config θ (attn b)
                     (map (LayerNorm_forward θ (ln_1 b)) x)) in
  tadd x (map (λ xt, Linear_forward θ (mlp_c_proj (mlp b))
                       (map (gelu erf) (Linear_forward θ (mlp_c_fc (mlp b)) xt)))
              (map (LayerNorm_forward θ (ln_2 b)) x)).

Definition logits_seq (erf : R → R) (config : GPTConfig) (θ : params) (self : GPT)
    (pos_emb tok_emb : list vec) : list vec :=
  map (Linear_forward θ (lm_head self))
    (map (LayerNorm_forward θ (ln_f self))
       (foldl (λ x b, Block_forward_seq erf config θ b x) (tadd pos_emb tok_emb) (h self))).

(** Shapes the constructor gives the tables forward indexes. *)
Definition model_shaped (config : GPTConfig) (θ : params) (self : GPT) : Prop :=
  length (p_mat θ (emb_weight (wpe self))) = block_size config ∧
  length (p_mat θ (emb_weight (wte self))) = vocab_size config ∧
  length (p_mat θ (lin_weight (lm_head self))) = vocab_size config ∧
  lin_bias (lm_head self) = None.

(** A (B, T) tensor of token ids, all within the vocabulary. *)
Definition rectangular {A} (t : list (list A)) : Prop :=
  Forall (λ row, length row = size1 t) t.

Definition ids_in_vocab (config : GPTConfig) (t : list (list Z)) : Prop :=
  Forall (Forall (λ i, (0 ≤ i < Z.of_nat (vocab_size config))%Z)) t.

(** The loss as the specification words it.  The cross entropy of one
    token is minus the logarithm of the probability the softmax of the
    logits gives to the target class; the loss is the sum of it over
    batch rows and positions, divided by the number of (batch × position)
    entries. *)
Definition softmax (logits : vec) : vec :=
  map (λ x, exp x / Rsum (map exp logits))%R logits.

Definition token_cross_entropy (logits : vec) (target : nat) : R :=
  (- ln (nth target (softmax logits) 0))%R.

Definition mean_token_cross_entropy (logits : list (list vec)) (targets : list (list Z)) : R :=
  (Rsum (zip_with (λ lrow trow,
                     Rsum (zip_with (λ l t, token_cross_entropy l (Z.to_nat t)) lrow trow))
                  logits targets)
   / INR (length logits * size1 logits))%R.

(** A sequence-to-sequence map is causal when the first [n] outputs
    depend on the first [n] inputs only, for every [n]. *)
Definition causal {A B} (F : list A → list B) : Prop :=
  ∀ n xs ys, take n xs = take n ys → take n (F xs) = take n (F ys).

(** ** Further definitions: the scheduler with its integer conversions

    [get_lr] takes the conversion of a Python integer to a float as the
    injection of the integers into the reals, which is total.  In the
    code the conversion raises OverflowError when the integer rounds to
    a magnitude beyond the largest binary64 value [2^1024 - 2^971], that
    is, from [2^1024 - 2^970] on.  [get_lr_checked] is lines 181-189
    again with every conversion written out: [float * int] and
    [float / int] convert their integer operand first, and [int / int]
    rounds the exact quotient once. *)

Definition float_overflow_bound : Z := 2 ^ 1024 - 2 ^ 970.

Definition py_float_of_int (z : Z) : result R :=
  if bool_decide (Z.abs z < float_overflow_bound)%Z then Ok (IZR z)
  else Err OverflowError.

Definition py_mul_float_int (a : R) (b : Z) : result R :=
  b' ← py_float_of_int b; Ok (a * b')%R.

Definition py_div_float_int (a : R) (b : Z) : result R :=
  b' ← py_float_of_int b;
  if (b =? 0)%Z then Err ZeroDivisionError else Ok (a / b')%R.

Definition py_truediv_int (a b : Z) : result R :=
  if (b =? 0)%Z then Err ZeroDivisionError
  else if bool_decide (Rabs (IZR a / IZR b) < IZR float_overflow_bound)%R
       then Ok (IZR a / IZR b)%R
       else Err OverflowError.

Section SchedulerChecked.
Local Open Scope R_scope.

Variables (max_lr min_lr : R) (warmup_steps max_steps : Z).

Definition get_lr_checked (it : Z) : result R :=
  if (it <? warmup_steps)%Z then
    x ← py_mul_float_int max_lr (it + 1);
    py_div_float_int x warmup_steps
  else if (it >? max_steps)%Z then
    Ok min_lr
  else
    decay_ratio ← py_truediv_int (it - warmup_steps) (max_steps - warmup_steps);
    _ ← py_assert (bool_decide (0 <= decay_ratio <= 1));
    let coeff := 0.5 * (1 + cos (PI * decay_ratio)) in
    Ok (min_lr + coeff * (max_lr - min_lr)).

End SchedulerChecked.

(** ** Further definitions: the batch sampler *)

(** The batch a call returns at cursor [c] when the window fits. *)
Definition window_at (B T : nat) (tokens : list Z) (c : nat) : batch :=
  (reshape (replicate B T) (py_slice tokens c (c + B * T)),
   reshape (replicate B T) (py_slice tokens (c + 1) (c + 1 + B * T))).

(** The epoch length the constructor prints (line 164):
    [len(self.tokens) // (B * T)]. *)
Definition epoch_batches_announced (B T : nat) (tokens : list Z) : result nat :=
  if bool_decide (B * T = 0) then Err ZeroDivisionError
  else Ok (length tokens / (B * T)).

(** ** Further definitions: construction *)

(** How many draws from the generator a list of initialiser writes makes. *)
Fixpoint count_draws (ws : list (loc * init_write)) : nat :=
  match ws with
  | [] => 0
  | (_, WNormal _) :: ws' => S (count_draws ws')
  | (_, WZeros) :: ws' => count_draws ws'
  end.

(** ** Further definitions: [configure_optimizers] (train.py, lines 128-147)

    A named parameter is a tensor (its location) with its shape; the
    shapes are the ones the layer constructors are called with (lines
    29-30, 52-53, 66-67, 80-85): the weight of [nn.Linear(i, o)] is
    (o, i) and its bias (o); an embedding table is (num, dim); the two
    vectors of a LayerNorm are (dim). *)

Definition shape : Type := list nat.

Definition Linear_named (in_features out_features : nat) (l : Linear) : list (loc * shape) :=
  (lin_weight l, [out_features; in_features])
  :: match lin_bias l with Some b => [(b, [out_features])] | None => [] end.

Definition LayerNorm_named (dim : nat) (n : LayerNorm) : list (loc * shape) :=
  [(ln_weight n, [dim]); (ln_bias n, [dim])].

Definition Block_named (config : GPTConfig) (b : Block) : list (loc * shape) :=
  let C := n_embd config in
  LayerNorm_named C (ln_1 b) ++ LayerNorm_named C (ln_2 b)
  ++ Linear_named C (C * 3) (attn_c_attn (attn b)) ++ Linear_named C C (attn_c_proj (attn b))
  ++ Linear_named C (C * 4) (mlp_c_fc (mlp b)) ++ Linear_named (C * 4) C (mlp_c_proj (mlp b)).

(** Every name of the module tree, in registration order. *)
Definition GPT_named (config : GPTConfig) (self : GPT) : list (loc * shape) :=
  let C := n_embd config in
  [(emb_weight (wte self), [vocab_size config; C]);
   (emb_weight (wpe self), [block_size config; C])]
  ++ (h self ≫= Block_named config)
  ++ LayerNorm_named C (ln_f self)
  ++ Linear_named C (vocab_size config) (lm_head self).

(** [named_parameters()] skips a tensor it has already yielded. *)
Fixpoint dedup_first (seen : list loc) (l : list (loc * shape)) : list (loc * shape) :=
  match l with
  | [] => []
  | p :: l' =>
      if bool_decide (p.1 ∈ seen) then dedup_first seen l'
      else p :: dedup_first (p.1 :: seen) l'
  end.

(** [p.numel()] and [p.dim()]. *)
Definition numel (s : shape) : N := foldr (λ d n, (N.of_nat d * n)%N) 1%N s.
Definition dim (s : shape) : nat := length s.

Definition numel_sum (ps : list (loc * shape)) : N :=
  foldr (λ p n, (numel p.2 + n)%N) 0%N ps.

Record param_group : Type := mkParamGroup {
  pg_params : list (loc * shape);
  pg_weight_decay : R
}.

Record AdamW_args : Type := mkAdamW_args {
  optim_groups : list param_group;
  opt_lr : R;
  opt_betas : R * R;
  opt_eps : R;
  opt_fused : bool
}.

(** Lines 128-147.  [fused_available] is whether AdamW takes a [fused]
    argument, [cuda] whether the device string contains 'cuda'.  The
    result is the argument list of [torch.optim.AdamW] together with the
    two counts that are printed.  Nothing in the file clears
    [requires_grad], so the second comprehension (line 130) keeps every
    entry of [param_dict]. *)
Definition configure_optimizers (config : GPTConfig) (self : GPT)
    (weight_decay learning_rate : R) (fused_available cuda : bool) : AdamW_args * (N * N) :=
  let param_dict := dedup_first [] (GPT_named config self) in
  let decay_params := filter (λ p, 2 ≤ dim p.2) param_dict in
  let non_decay_params := filter (λ p, dim p.2 < 2) param_dict in
  let optim_groups :=
    [mkParamGroup decay_params weight_decay; mkParamGroup non_decay_params 0%R] in
  let num_decay_params := numel_sum decay_params in
  let num_non_decay_params := numel_sum non_decay_params in
  let use_fused := fused_available && cuda in
  (mkAdamW_args optim_groups learning_rate (0.9%R, 0.95%R) 1e-8%R use_fused,
   (num_decay_params, num_non_decay_params)).


(** The weight matrices of a block, and its vectors (layer-norm weights
    and all biases), in registration order. *)
Definition Block_matrices (b : Block) : list loc :=
  [lin_weight (attn_c_attn (attn b)); lin_weight (attn_c_proj (attn b));
   lin_weight (mlp_c_fc (mlp b)); lin_weight (mlp_c_proj (mlp b))].

Definition Block_vectors (b : Block) : list loc :=
  LayerNorm_parameters (ln_1 b) ++ LayerNorm_parameters (ln_2 b)
  ++ option_list (lin_bias (attn_c_attn (attn b))) ++ option_list (lin_bias (attn_c_proj (attn b)))
  ++ option_list (lin_bias (mlp_c_fc (mlp b))) ++ option_list (lin_bias (mlp_c_proj (mlp b))).

(** ** Further definitions: the loss *)

(** A target [F.cross_entropy] accepts for logits over [V] classes: a
    class index, or the value it ignores. *)
Definition target_ok (V : nat) (t : Z) : Prop :=
  t = ignore_index ∨ (0 ≤ t < Z.of_nat V)%Z.

(** ** Further definitions: gradient accumulation (train.py, lines 208-213)

    [assert total_batch_size % (B * T) == 0] and the division that
    follows it; the modulo raises when [B * T] is zero. *)
Definition main_grad_accum_steps (total_batch_size B T : nat) : result nat :=
  if bool_decide (B * T = 0) then Err ZeroDivisionError
  else
    _ ← py_assert (bool_decide (total_batch_size mod (B * T) = 0));
    Ok (total_batch_size / (B * T)).
(* ================================================================= *)
(** * Theorems *)

Section SchedulerFacts.
Local Open Scope R_scope.

Lemma get_lr_warmup max_lr min_lr ws ms (it : Z) :
  (it < ws)%Z -> (ws <> 0)%Z ->
  get_lr max_lr min_lr ws ms it = Ok (max_lr * IZR (it + 1) / IZR ws).
Proof.
  intros Hlt Hnz. unfold get_lr, py_div_int.
  destruct (Z.ltb_spec it ws); [|lia].
  destruct (Z.eqb_spec ws 0); [lia|reflexivity].
Qed.

Lemma get_lr_post max_lr min_lr ws ms (it : Z) :
  (ws <= it)%Z -> (ms < it)%Z ->
  get_lr max_lr min_lr ws ms it = Ok min_lr.
Proof.
  intros Hle Hgt. unfold get_lr.
  destruct (Z.ltb_spec it ws); [lia|].
  rewrite Z.gtb_ltb. destruct (Z.ltb_spec ms it); [reflexivity|lia].
Qed.

Lemma get_lr_decay max_lr min_lr ws ms (it : Z) :
  (ws <= it <= ms)%Z -> (ws < ms)%Z ->
  get_lr max_lr min_lr ws ms it =
  Ok (min_lr + 0.5 * (1 + cos (PI * (IZR (it - ws) / IZR (ms - ws)))) * (max_lr - min_lr)).
Proof.
  intros [Hlo Hhi] Hlt. unfold get_lr, py_div_int.
  destruct (Z.ltb_spec it ws); [lia|].
  rewrite Z.gtb_ltb. destruct (Z.ltb_spec ms it); [lia|].
  destruct (Z.eqb_spec (ms - ws) 0); [lia|]. cbn.
  assert (Hpos : 0 < IZR (ms - ws)) by (apply IZR_lt; lia).
  assert (Hnum0 : 0 <= IZR (it - ws)) by (apply IZR_le; lia).
  assert (Hnum1 : IZR (it - ws) <= IZR (ms - ws)) by (apply IZR_le; lia).
  rewrite bool_decide_eq_true_2; [reflexivity|].
  split.
  - apply Rmult_le_pos; [assumption|]. left. now apply Rinv_0_lt_compat.
  - apply Rmult_le_reg_r with (r := IZR (ms - ws)); [assumption|].
    unfold Rdiv. rewrite Rmult_assoc, Rinv_l by lra. lra.
Qed.

End SchedulerFacts.

(** C4. Boundary values of the schedule, for any configuration with
    [0 < warmup_steps < max_steps]: [get_lr 0] is [max_lr / warmup_steps],
    [get_lr warmup_steps] is [max_lr], [get_lr max_steps] is [min_lr],
    every step beyond [max_steps] gives exactly [min_lr], and every
    non-negative step returns a rate (no exception). *)
Theorem get_lr_boundary_values (max_lr min_lr : R) (warmup_steps max_steps : Z) :
  (0 < warmup_steps < max_steps)%Z ->
  let rate := get_lr max_lr min_lr warmup_steps max_steps in
  rate 0%Z = Ok (max_lr / IZR warmup_steps)%R /\
  rate warmup_steps = Ok max_lr /\
  rate max_steps = Ok min_lr /\
  (forall step, (max_steps < step)%Z -> rate step = Ok min_lr) /\
  (forall step, (0 <= step)%Z -> exists r, rate step = Ok r).
Proof.
  intros [Hw Hm] rate. subst rate. repeat split.
  - rewrite get_lr_warmup by lia. f_equal.
    change (0 + 1)%Z with 1%Z. now rewrite Rmult_1_r.
  - rewrite get_lr_decay by lia. f_equal.
    rewrite Z.sub_diag. unfold Rdiv. rewrite Rmult_0_l, Rmult_0_r, cos_0. lra.
  - rewrite get_lr_decay by lia. f_equal.
    unfold Rdiv. rewrite Rinv_r, Rmult_1_r, cos_PI; [lra|].
    apply not_0_IZR. lia.
  - intros step Hs. apply get_lr_post; lia.
  - intros step Hs.
    destruct (Z_lt_le_dec step warmup_steps) as [H1|H1].
    + eexists. apply get_lr_warmup; lia.
    + destruct (Z_lt_le_dec max_steps step) as [H2|H2].
      * eexists. apply get_lr_post; lia.
      * eexists. apply get_lr_decay; lia.
Qed.

(** The script's own constants satisfy the configuration hypothesis. *)
Lemma get_lr_boundary_values_main :
  (0 < main_warmup_steps < main_max_steps)%Z /\
  main_get_lr 0%Z = Ok (main_max_lr / IZR main_warmup_steps)%R /\
  main_get_lr main_warmup_steps = Ok main_max_lr /\
  main_get_lr main_max_steps = Ok main_min_lr /\
  (forall step, (main_max_steps < step)%Z -> main_get_lr step = Ok main_min_lr) /\
  (forall step, (0 <= step)%Z -> exists r, main_get_lr step = Ok r).
Proof.
  split; [unfold main_warmup_steps, main_max_steps; lia|].
  apply (get_lr_boundary_values main_max_lr main_min_lr main_warmup_steps main_max_steps).
  unfold main_warmup_steps, main_max_steps; lia.
Defined.

(** ** Batch sampler *)

Lemma view2_ok {A} (B T : nat) (l : list A) :
  length l = B * T → view2 B T l = Ok (reshape (replicate B T) l).
Proof. intros H. unfold view2. by rewrite bool_decide_eq_true_2. Qed.

Lemma mjoin_reshape_replicate {A} (B T : nat) (l : list A) :
  length l = B * T → mjoin (reshape (replicate B T) l) = l.
Proof.
  intros H. apply join_reshape. rewrite sum_list_replicate. lia.
Qed.

Lemma reshape_replicate_rows {A} (B T : nat) (l : list A) :
  length l = B * T →
  length (reshape (replicate B T) l) = B ∧
  Forall (λ r, length r = T) (reshape (replicate B T) l).
Proof.
  revert l. induction B as [|B IH]; intros l H; simpl.
  - split; [done|constructor].
  - destruct (IH (drop T l)) as [IH1 IH2]; [rewrite length_drop; lia|].
    split; [by rewrite IH1|]. constructor; [|done].
    rewrite length_take. lia.
Qed.

Lemma py_drop_last_slice {A} (l : list A) (c W : nat) :
  c + W + 1 ≤ length l →
  py_drop_last (py_slice l c (c + W + 1)) = py_slice l c (c + W).
Proof.
  intros H. unfold py_drop_last, py_slice.
  replace (c + W + 1 - c) with (S W) by lia. replace (c + W - c) with W by lia.
  apply removelast_firstn. rewrite length_drop. lia.
Qed.

Lemma py_drop_first_slice {A} (l : list A) (c W : nat) :
  py_drop_first (py_slice l c (c + W + 1)) = py_slice l (c + 1) (c + 1 + W).
Proof.
  unfold py_drop_first, py_slice.
  replace (c + W + 1 - c) with (1 + W) by lia. replace (c + 1 + W - (c + 1)) with W by lia.
  rewrite <- take_drop_commute, drop_drop. done.
Qed.

Lemma length_py_slice {A} (l : list A) (i j : nat) :
  j ≤ length l → length (py_slice l i j) = j - i.
Proof. intros H. unfold py_slice. rewrite length_take, length_drop. lia. Qed.

(** One call whose window fits: what it returns and where the cursor goes. *)
Lemma next_batch_fits (self : DataLoaderLite) :
  let W := dl_B self * dl_T self in
  let c := dl_current self in
  c + W + 1 ≤ length (dl_tokens self) →
  next_batch self =
    Ok ((reshape (replicate (dl_B self) (dl_T self)) (py_slice (dl_tokens self) c (c + W)),
         reshape (replicate (dl_B self) (dl_T self)) (py_slice (dl_tokens self) (c + 1) (c + 1 + W))),
        mkDataLoaderLite (dl_B self) (dl_T self) (dl_tokens self)
          (if bool_decide (length (dl_tokens self) ≤ c + W + W + 1) then 0 else c + W)).
Proof.
  intros W c H. unfold next_batch. fold W c.
  rewrite py_drop_last_slice, py_drop_first_slice by done.
  rewrite !view2_ok by (rewrite length_py_slice; lia). done.
Qed.

Lemma py_slice_app {A} (l : list A) (a b d : nat) :
  a ≤ b → b ≤ d → py_slice l a b ++ py_slice l b d = py_slice l a d.
Proof.
  intros Hab Hbd. unfold py_slice.
  replace (drop b l) with (drop (b - a) (drop a l))
    by (rewrite drop_drop; f_equal; lia).
  rewrite take_take_drop. f_equal. lia.
Qed.

Lemma py_slice_nil {A} (l : list A) (a : nat) : py_slice l a a = [].
Proof. unfold py_slice. by rewrite Nat.sub_diag. Qed.

Lemma inputs_of_app (a b : list batch) :
  inputs_of (a ++ b) = inputs_of a ++ inputs_of b.
Proof. unfold inputs_of. by rewrite map_app, join_app. Qed.

Lemma targets_of_app (a b : list batch) :
  targets_of (a ++ b) = targets_of a ++ targets_of b.
Proof. unfold targets_of. by rewrite map_app, join_app. Qed.

Lemma inputs_of_cons (b : batch) (bs : list batch) :
  inputs_of (b :: bs) = mjoin b.1 ++ inputs_of bs.
Proof. done. Qed.

Lemma targets_of_cons (b : batch) (bs : list batch) :
  targets_of (b :: bs) = mjoin b.2 ++ targets_of bs.
Proof. done. Qed.

(** Calls that stay clear of the end of the sequence: the cursor advances
    by [B * T] each time and the windows tile a prefix of the tokens. *)
Lemma next_batches_no_wrap (B T : nat) (tokens : list Z) (m c : nat) :
  let W := B * T in
  (m ≠ 0 → c + (m + 1) * W + 1 < length tokens) →
  ∃ bs,
    next_batches m (mkDataLoaderLite B T tokens c)
      = Ok (bs, mkDataLoaderLite B T tokens (c + m * W)) ∧
    inputs_of bs = py_slice tokens c (c + m * W) ∧
    targets_of bs = py_slice tokens (c + 1) (c + 1 + m * W) ∧
    Forall (batch_shape B T) bs.
Proof.
  intros W. revert c. induction m as [|m IH]; intros c H.
  - exists []. simpl. rewrite !Nat.add_0_r, !py_slice_nil.
    repeat split; constructor.
  - assert (Hfit : c + (m + 2) * W + 1 < length tokens)
      by (replace (m + 2) with (S m + 1) by lia; apply H; lia).
    destruct (IH (c + W)) as (bs & Hrun & Hin & Htg & Hsh).
    { intros _. nia. }
    pose proof (next_batch_fits (mkDataLoaderLite B T tokens c)) as Hstep.
    simpl in Hstep. fold W in Hstep.
    rewrite bool_decide_eq_false_2 in Hstep by nia.
    eexists. simpl next_batches. rewrite Hstep by nia. simpl.
    rewrite Hrun. simpl. split; [do 3 f_equal; lia|].
    assert (Hlen1 : length (py_slice tokens c (c + W)) = B * T)
      by (rewrite length_py_slice; fold W; nia).
    assert (Hlen2 : length (py_slice tokens (c + 1) (c + 1 + W)) = B * T)
      by (rewrite length_py_slice; fold W; nia).
    split; [|split].
    + rewrite inputs_of_cons, Hin. simpl. rewrite mjoin_reshape_replicate by done.
      rewrite py_slice_app by lia. f_equal. lia.
    + rewrite targets_of_cons, Htg. simpl. rewrite mjoin_reshape_replicate by done.
      replace (c + W + 1) with (c + 1 + W) by lia.
      rewrite py_slice_app by lia. f_equal. lia.
    + constructor; [|done].
      destruct (reshape_replicate_rows B T _ Hlen1), (reshape_replicate_rows B T _ Hlen2).
      by repeat split.
Qed.

Lemma next_batches_add (a b : nat) (self : DataLoaderLite) :
  next_batches (a + b) self =
    r1 ← next_batches a self;
    r2 ← next_batches b r1.2;
    Ok (r1.1 ++ r2.1, r2.2).
Proof.
  revert self. induction a as [|a IH]; intros self; simpl.
  - by destruct (next_batches b self) as [[??]|].
  - destruct (next_batch self) as [[x s1]|]; simpl; [|done].
    rewrite IH. destruct (next_batches a s1) as [[bs1 s2]|]; simpl; [|done].
    by destruct (next_batches b s2) as [[??]|].
Qed.

(** The cursor invariant: the window at the cursor always fits. *)
Lemma next_batches_total (B T : nat) (tokens : list Z) (k c : nat) :
  c + B * T + 1 ≤ length tokens →
  ∃ bs c', next_batches k (mkDataLoaderLite B T tokens c)
           = Ok (bs, mkDataLoaderLite B T tokens c') ∧
           c' + B * T + 1 ≤ length tokens.
Proof.
  revert c. induction k as [|k IH]; intros c H.
  - by exists [], c.
  - pose proof (next_batch_fits (mkDataLoaderLite B T tokens c)) as Hstep.
    simpl in Hstep. specialize (Hstep H).
    simpl next_batches. rewrite Hstep. simpl.
    case_bool_decide as Hw.
    + destruct (IH 0) as (bs & c' & Hrun & Hinv); [lia|].
      rewrite Hrun. simpl. by eexists _, c'.
    + destruct (IH (c + B * T)) as (bs & c' & Hrun & Hinv); [lia|].
      rewrite Hrun. simpl. by eexists _, c'.
Qed.

(** One epoch of a fresh loader as the code runs it: the cursor is back
    at 0 after [batches_per_epoch] calls, whose inputs are the first
    [n*B*T] tokens and whose targets are the same tokens shifted by one. *)
Lemma next_batches_one_epoch (B T : nat) (tokens : list Z) :
  let W := B * T in
  let L := length tokens in
  let n := batches_per_epoch B T L in
  1 ≤ W → W + 1 ≤ L →
  ∃ bs self',
    next_batches n (DataLoaderLite_init B T tokens) = Ok (bs, self') ∧
    dl_current self' = 0 ∧
    Forall (batch_shape B T) bs ∧
    inputs_of bs = take (n * W) tokens ∧
    targets_of bs = take (n * W) (drop 1 tokens) ∧
    n * W + 1 ≤ L.
Proof.
  intros W L n HW HL.
  assert (Hn : 1 ≤ n) by (unfold n, batches_per_epoch; lia).
  assert (Hq : n = 1 ∧ L - 2 < 2 * W ∨ 2 ≤ n ∧ n * W ≤ L - 2 ∧ L - 2 < (n + 1) * W).
  { unfold n, batches_per_epoch. fold W.
    pose proof (Nat.div_mod (L - 2) W ltac:(lia)) as Hdm.
    pose proof (Nat.mod_upper_bound (L - 2) W ltac:(lia)) as Hmb.
    destruct (decide ((L - 2) / W ≤ 1)) as [Hle|Hgt].
    - left. split; [lia|]. nia.
    - right. rewrite Nat.max_r by lia. split; [lia|]. split; nia. }
  destruct (next_batches_no_wrap B T tokens (n - 1) 0) as (bs1 & Hrun1 & Hin1 & Htg1 & Hsh1).
  { intros Hne. fold W L. destruct Hq as [[-> _]|(? & ? & ?)]; [done|].
    replace (n - 1 + 1) with n by lia. lia. }
  fold W in Hrun1, Hin1, Htg1. simpl in Hrun1, Hin1, Htg1.
  assert (Hfit : (n - 1) * W + W + 1 ≤ L).
  { destruct Hq as [[-> _]|(? & ? & ?)]; [simpl; lia|]. nia. }
  pose proof (next_batch_fits (mkDataLoaderLite B T tokens ((n - 1) * W))) as Hstep.
  simpl in Hstep. fold W L in Hstep. specialize (Hstep Hfit).
  rewrite bool_decide_eq_true_2 in Hstep.
  2:{ destruct Hq as [[-> ?]|(? & ? & ?)]; [simpl; lia|]. nia. }
  assert (Hlen1 : length (py_slice tokens ((n - 1) * W) ((n - 1) * W + W)) = B * T)
    by (rewrite length_py_slice; fold W L; lia).
  assert (Hlen2 : length (py_slice tokens ((n - 1) * W + 1) ((n - 1) * W + 1 + W)) = B * T)
    by (rewrite length_py_slice; fold W L; lia).
  assert (HnW : (n - 1) * W + W = n * W) by nia.
  eexists _, _. split.
  { replace n with ((n - 1) + 1) at 1 by lia.
    rewrite next_batches_add. unfold DataLoaderLite_init. rewrite Hrun1. simpl.
    rewrite Hstep. simpl. reflexivity. }
  simpl. split; [done|]. split; [|split; [|split]].
  + apply Forall_app. split; [done|]. constructor; [|constructor].
    destruct (reshape_replicate_rows B T _ Hlen1), (reshape_replicate_rows B T _ Hlen2).
    by repeat split.
  + rewrite inputs_of_app, Hin1, inputs_of_cons. simpl.
    rewrite app_nil_r, mjoin_reshape_replicate by done.
    rewrite py_slice_app by nia. unfold py_slice. rewrite HnW, Nat.sub_0_r. done.
  + replace (S ((n - 1) * W)) with ((n - 1) * W + 1) in Htg1 by lia.
    rewrite targets_of_app, Htg1, targets_of_cons. simpl.
    rewrite app_nil_r, mjoin_reshape_replicate by done.
    rewrite py_slice_app by nia. unfold py_slice. f_equal. lia.
  + lia.
Qed.

(** When the sequence does not end exactly one token after a window
    boundary, an epoch has [(L - 1) / (B*T)] calls: one per whole window
    that has its shifted target. *)
Lemma batches_per_epoch_whole_windows (B T L : nat) :
  1 ≤ B * T → B * T + 1 ≤ L → (L - 1) mod (B * T) ≠ 0 →
  batches_per_epoch B T L = (L - 1) / (B * T) ∧
  (L - 1) / (B * T) * (B * T) + 1 < L ∧
  L < (L - 1) / (B * T) * (B * T) + 1 + B * T.
Proof.
  intros HW HL Hr. unfold batches_per_epoch.
  pose proof (Nat.div_mod (L - 1) (B * T) ltac:(lia)) as Hdm.
  pose proof (Nat.mod_upper_bound (L - 1) (B * T) ltac:(lia)) as Hmb.
  set (q := (L - 1) / (B * T)) in *. set (r := (L - 1) mod (B * T)) in *.
  assert (Hq1 : 1 ≤ q) by nia.
  assert (Hq : (L - 2) / (B * T) = q).
  { symmetry. apply (Nat.div_unique _ _ _ (r - 1)); lia. }
  rewrite Hq. split; [lia|]. split; nia.
Qed.

(** C6 (as the code behaves by design).  For a sequence of length [L >= B*T + 1] with
    [B*T >= 1]: no call of [next_batch] ever raises; a call at a cursor
    [c] whose window fits returns B rows of T inputs
    [tokens[c : c+B*T]] and targets [tokens[c+1 : c+B*T+1]], and leaves
    the cursor at [c + B*T] when the window after that one ends before
    the end of the sequence, and at 0 when the window after that one
    would exceed the sequence.  From cursor 0, when [L - 1] is not a
    multiple of [B*T], the [n = (L-1) / (B*T)] whole windows are returned
    by [n] calls, which visit exactly the first [n*B*T + 1] tokens and
    leave the cursor back at 0; the tail, between 1 and [B*T - 1] tokens
    that fill no whole window, is not visited. *)
Theorem next_batch_epoch (B T : nat) (tokens : list Z) :
  let W := B * T in
  let L := length tokens in
  1 ≤ W → W + 1 ≤ L →
  (∀ k, ∃ bs self',
     next_batches k (DataLoaderLite_init B T tokens) = Ok (bs, self')) ∧
  (∀ c, c + W + 1 ≤ L → ∃ x y c',
     next_batch (mkDataLoaderLite B T tokens c)
       = Ok ((x, y), mkDataLoaderLite B T tokens c') ∧
     batch_shape B T (x, y) ∧
     mjoin x = py_slice tokens c (c + W) ∧
     mjoin y = py_slice tokens (c + 1) (c + 1 + W) ∧
     (c + W + W + 1 < L → c' = c + W) ∧
     (L < c + W + W + 1 → c' = 0)) ∧
  ((L - 1) mod W ≠ 0 →
   let n := (L - 1) / W in
   ∃ bs self',
     next_batches n (DataLoaderLite_init B T tokens) = Ok (bs, self') ∧
     dl_current self' = 0 ∧
     Forall (batch_shape B T) bs ∧
     inputs_of bs = take (n * W) tokens ∧
     targets_of bs = take (n * W) (drop 1 tokens) ∧
     n * W + 1 < L ∧ L < n * W + 1 + W).
Proof.
  intros W L HW HL. split; [|split].
  - intros k.
    destruct (next_batches_total B T tokens k 0) as (bs & c' & Hrun & _); [fold W L; lia|].
    by exists bs, (mkDataLoaderLite B T tokens c').
  - intros c Hc.
    pose proof (next_batch_fits (mkDataLoaderLite B T tokens c)) as Hstep.
    simpl in Hstep. specialize (Hstep Hc).
    assert (Hlen1 : length (py_slice tokens c (c + W)) = B * T)
      by (rewrite length_py_slice; fold W L; lia).
    assert (Hlen2 : length (py_slice tokens (c + 1) (c + 1 + W)) = B * T)
      by (rewrite length_py_slice; fold W L; lia).
    eexists _, _, _. split; [exact Hstep|].
    destruct (reshape_replicate_rows B T _ Hlen1), (reshape_replicate_rows B T _ Hlen2).
    split; [by repeat split|].
    rewrite !mjoin_reshape_replicate by done.
    split; [done|]. split; [done|]. fold W L.
    split; intros Hnext.
    + by rewrite bool_decide_eq_false_2 by lia.
    + by rewrite bool_decide_eq_true_2 by lia.
  - intros Hr n.
    destruct (batches_per_epoch_whole_windows B T L HW HL Hr) as (Hn & Hlo & Hhi).
    destruct (next_batches_one_epoch B T tokens HW HL)
      as (bs & self' & Hrun & Hcur & Hsh & Hin & Htg & _).
    fold L in Hrun, Hin, Htg. rewrite Hn in Hrun, Hin, Htg.
    exists bs, self'. by repeat split.
Qed.

Lemma next_batch_epoch_example :
  1 ≤ 1 * 4 ∧ 1 * 4 + 1 ≤ length [0; 1; 2; 3; 4; 5; 6; 7; 8; 9]%Z ∧
  ∃ bs self',
    next_batches 2 (DataLoaderLite_init 1 4 [0; 1; 2; 3; 4; 5; 6; 7; 8; 9]%Z) = Ok (bs, self') ∧
    dl_current self' = 0 ∧
    inputs_of bs = [0; 1; 2; 3; 4; 5; 6; 7]%Z ∧
    targets_of bs = [1; 2; 3; 4; 5; 6; 7; 8]%Z.
Proof.
  split; [simpl; lia|]. split; [simpl; lia|].
  destruct (next_batch_epoch 1 4 [0; 1; 2; 3; 4; 5; 6; 7; 8; 9]%Z)
    as (_ & _ & Hepoch); [simpl; lia|simpl; lia|].
  destruct Hepoch as (bs & self' & Hrun & Hcur & _ & Hin & Htg & _); [discriminate|].
  exists bs, self'. repeat split; assumption.
Defined.

(** The coverage property as worded fails on the code: with ten tokens
    and a 1x4 window, the three calls return the windows at cursors 0, 4
    and 0 again, so the last token is never returned, and the cursor
    ends at 4. *)
Lemma covers_then_wraps_fails :
  ¬ covers_then_wraps 1 4 [0; 1; 2; 3; 4; 5; 6; 7; 8; 9]%Z.
Proof.
  intros (bs & self' & Hrun & Hcov & _).
  vm_compute in Hrun. injection Hrun as <- <-.
  destruct (Hcov 9%Z) as [Hin|Hin].
  - repeat constructor.
  - vm_compute in Hin. repeat (apply elem_of_cons in Hin as [Hin|Hin]; [discriminate|]).
    by apply elem_of_nil in Hin.
  - vm_compute in Hin. repeat (apply elem_of_cons in Hin as [Hin|Hin]; [discriminate|]).
    by apply elem_of_nil in Hin.
Qed.

Lemma three_calls_leave_cursor_at_4 :
  ∃ bs self',
    next_batches 3 (DataLoaderLite_init 1 4 [0; 1; 2; 3; 4; 5; 6; 7; 8; 9]%Z) = Ok (bs, self') ∧
    dl_current self' = 4.
Proof. eexists _, _. split; [vm_compute; reflexivity|reflexivity]. Qed.

(** A window of [B*T + 1] tokens that does not fit raises at the first
    call. *)
Lemma next_batch_short_sequence :
  next_batch (DataLoaderLite_init 1 4 [0; 1; 2; 3]%Z) = Err RuntimeError.
Proof. vm_compute. reflexivity. Qed.

(** ** Training loop *)

Section TrainingLoopFacts.
Local Open Scope R_scope.

Lemma Rsum_app (l k : list R) : Rsum (l ++ k) = Rsum l + Rsum k.
Proof. induction l as [|x l IH]; simpl; [lra|]. rewrite IH. lra. Qed.

Lemma Rsum_map_div {A} (f : A → R) (d : R) (l : list A) :
  Rsum (map (λ a, f a / d) l) = Rsum (map f l) / d.
Proof. induction l as [|x l IH]; simpl; [lra|]. rewrite IH. lra. Qed.

Lemma Rsum_nonneg (l : list R) : Forall (λ x, 0 <= x) l → 0 <= Rsum l.
Proof. induction 1; simpl; lra. Qed.

Lemma foldl_Rplus {A} (f : A → R) (a : R) (l : list A) :
  foldl (λ acc x, acc + f x) a l = a + Rsum (map f l).
Proof.
  revert a. induction l as [|x l IH]; intros a; simpl; [lra|].
  rewrite IH. lra.
Qed.

Lemma micro_steps_mean G micro_loss step acc :
  micro_steps G micro_loss step acc = acc + mean_loss G micro_loss step.
Proof.
  unfold micro_steps, mean_loss.
  rewrite (foldl_Rplus (λ m, micro_loss step m / INR G)).
  by rewrite Rsum_map_div.
Qed.

Lemma train_loop_state G micro_loss n :
  train_loop G micro_loss n =
    (Rsum (map (mean_loss G micro_loss) (seq 0 n)),
     map (cumulative_loss G micro_loss) (seq 0 n)).
Proof.
  unfold train_loop. induction n as [|n IH]; [done|].
  rewrite seq_S, foldl_app, IH. simpl.
  rewrite micro_steps_mean, !map_app. simpl. f_equal.
  - rewrite Rsum_app. simpl. lra.
  - f_equal. f_equal. unfold cumulative_loss.
    rewrite seq_S, map_app, Rsum_app. simpl. lra.
Qed.

Lemma mean_loss_nonneg G micro_loss step :
  (∀ k m, 0 <= micro_loss k m) → 0 <= mean_loss G micro_loss step.
Proof.
  intros Hpos. unfold mean_loss.
  destruct G as [|G]; [simpl; lra|].
  apply Rmult_le_pos.
  - apply Rsum_nonneg, Forall_map, Forall_forall. intros; apply Hpos.
  - left. apply Rinv_0_lt_compat, lt_0_INR. lia.
Qed.

End TrainingLoopFacts.

(** C10. [loss_accum] is never reset: the loss printed at macro-step [s]
    is the sum over macro-steps [0..s] of the mean micro-step loss of
    each, it grows by the current step's mean at every step, and it is
    non-decreasing when the losses are non-negative. *)
Theorem printed_loss_is_cumulative (grad_accum_steps : nat) (micro_loss : nat → nat → R)
    (max_steps : nat) :
  (∀ s, s < max_steps →
     printed_loss grad_accum_steps micro_loss max_steps !! s
       = Some (cumulative_loss grad_accum_steps micro_loss s)) ∧
  (∀ s, cumulative_loss grad_accum_steps micro_loss (S s)
        = (cumulative_loss grad_accum_steps micro_loss s
           + mean_loss grad_accum_steps micro_loss (S s))%R) ∧
  ((∀ k m, (0 <= micro_loss k m)%R) →
   ∀ s, (cumulative_loss grad_accum_steps micro_loss s
         <= cumulative_loss grad_accum_steps micro_loss (S s))%R).
Proof.
  assert (Hstep : ∀ s, cumulative_loss grad_accum_steps micro_loss (S s)
        = (cumulative_loss grad_accum_steps micro_loss s
           + mean_loss grad_accum_steps micro_loss (S s))%R).
  { intros s. unfold cumulative_loss.
    rewrite (seq_S (S s)), map_app, Rsum_app. simpl. lra. }
  split; [|split].
  - intros s Hs. unfold printed_loss. rewrite train_loop_state. simpl.
    rewrite list_lookup_fmap, lookup_seq_lt by done. done.
  - exact Hstep.
  - intros Hpos s. rewrite Hstep.
    pose proof (mean_loss_nonneg grad_accum_steps micro_loss (S s) Hpos). lra.
Qed.

(** Two macro-steps of two micro-steps of loss 1 each: the second
    printed value is 2, not 1. *)
Lemma printed_loss_is_cumulative_example :
  printed_loss 2 (λ _ _, 1%R) 2 !! 1 = Some (cumulative_loss 2 (λ _ _, 1%R) 1) ∧
  (cumulative_loss 2 (λ _ _, 1%R) 0 <= cumulative_loss 2 (λ _ _, 1%R) 1)%R.
Proof.
  destruct (printed_loss_is_cumulative 2 (λ _ _, 1%R) 2) as (Hp & _ & Hm).
  split.
  - apply Hp. lia.
  - apply Hm. intros _ _. lra.
Defined.

(** ** Construction and initialisation *)

Lemma assert_heads_divide_ok config :
  valid_heads config → assert_heads_divide config = Ok tt.
Proof.
  intros [Hnz Hdiv]. unfold assert_heads_divide.
  rewrite bool_decide_eq_false_2 by done.
  by rewrite bool_decide_eq_true_2.
Qed.

Lemma St_bind_ok {A B} (m : St A) (f : A → St B) s a s' :
  m s = Ok (a, s') → (m ≫= f) s = f a s'.
Proof. intros H. unfold mbind, St_bind. by rewrite H. Qed.

Lemma nn_Linear_bias_ok s :
  nn_Linear true s
  = Ok (mkLinear (w_next s) (Some (1 + w_next s)) false,
        mkWorld (<[1 + w_next s := TorchDefault]> (<[w_next s := TorchDefault]> (w_heap s)))
                (2 + w_next s) (w_rng s)).
Proof. reflexivity. Qed.

Lemma nn_LayerNorm_ok s :
  nn_LayerNorm s
  = Ok (mkLayerNorm (w_next s) (1 + w_next s),
        mkWorld (<[1 + w_next s := Zeros]> (<[w_next s := Ones]> (w_heap s)))
                (2 + w_next s) (w_rng s)).
Proof. reflexivity. Qed.

Lemma extends_trans s1 s2 s3 a b :
  extends s1 s2 a → extends s2 s3 b → extends s1 s3 (b + a).
Proof.
  intros (Hn1 & Hr1 & Hp1) (Hn2 & Hr2 & Hp2). repeat split.
  - lia.
  - congruence.
  - intros p Hp. rewrite Hp2 by lia. by apply Hp1.
Qed.

Lemma Block_init_ok config s :
  valid_heads config →
  ∃ s', Block_init config s = Ok (block_at (w_next s), s') ∧
        extends s s' 12 ∧
        ln_default (w_heap s') (ln_1 (block_at (w_next s))) ∧
        ln_default (w_heap s') (ln_2 (block_at (w_next s))).
Proof.
  intros Hv. destruct s as [hp n r].
  unfold Block_init, SelfAttention_init, MLP_init.
  rewrite (assert_heads_divide_ok _ Hv).
  erewrite St_bind_ok by apply nn_LayerNorm_ok.
  erewrite St_bind_ok by apply nn_LayerNorm_ok.
  erewrite St_bind_ok.
  2:{ erewrite St_bind_ok by reflexivity.
      erewrite St_bind_ok by apply nn_Linear_bias_ok.
      erewrite St_bind_ok by apply nn_Linear_bias_ok.
      reflexivity. }
  erewrite St_bind_ok.
  2:{ erewrite St_bind_ok by apply nn_Linear_bias_ok.
      erewrite St_bind_ok by apply nn_Linear_bias_ok.
      reflexivity. }
  eexists. split; [reflexivity|].
  cbn [w_next w_heap w_rng ln_1 ln_2 block_at ln_weight ln_bias].
  unfold extends, ln_default.
  cbn [w_next w_heap w_rng ln_1 ln_2 block_at ln_weight ln_bias].
  split; [split; [lia|split; [done|]]|split; split].
  - intros p Hp. rewrite !lookup_insert_ne by lia. done.
  - rewrite !lookup_insert_ne by lia. by rewrite lookup_insert_eq.
  - rewrite !lookup_insert_ne by lia. by rewrite lookup_insert_eq.
  - rewrite !lookup_insert_ne by lia. by rewrite lookup_insert_eq.
  - rewrite !lookup_insert_ne by lia. by rewrite lookup_insert_eq.
Qed.

Lemma blocks_init_ok config k s :
  valid_heads config →
  ∃ s', St_repeat k (Block_init config) s = Ok (blocks_at (w_next s) k, s') ∧
        extends s s' (12 * k) ∧
        (∀ b, b ∈ blocks_at (w_next s) k →
           ln_default (w_heap s') (ln_1 b) ∧ ln_default (w_heap s') (ln_2 b)).
Proof.
  intros Hv. revert s. induction k as [|k IH]; intros s.
  - exists s. split; [done|]. split; [by repeat split|].
    intros b Hb. by apply elem_of_nil in Hb.
  - destruct (Block_init_ok config s Hv) as (s1 & Hb & Hext1 & Hl1 & Hl2).
    destruct (IH s1) as (s2 & Hr & Hext2 & Hln).
    pose proof Hext1 as (Hn1 & _ & _). pose proof Hext2 as (_ & _ & Hpres2).
    rewrite Hn1 in Hr, Hln.
    exists s2. split; [|split].
    + cbn [St_repeat].
      erewrite St_bind_ok by exact Hb.
      erewrite St_bind_ok by exact Hr. reflexivity.
    + replace (12 * S k) with (12 * k + 12) by lia.
      by eapply extends_trans.
    + intros b Hb'. cbn [blocks_at] in Hb'. apply elem_of_cons in Hb' as [->|Hb'].
      * unfold ln_default in *. cbn [ln_1 ln_2 block_at ln_weight ln_bias] in *.
        rewrite !Hpres2 by lia. done.
      * by apply Hln.
Qed.

Lemma init_weights_writes config m s :
  _init_weights config m s = Ok (tt, foldl perform_write s (init_writes config m)).
Proof.
  destruct m as [[w [b|] tag]|e|n|]; reflexivity.
Qed.

Lemma apply_init_writes config ms s :
  apply_ (_init_weights config) ms s
  = Ok (tt, foldl perform_write s (ms ≫= init_writes config)).
Proof.
  revert s. induction ms as [|m ms IH]; intros s; [done|].
  cbn [apply_]. erewrite St_bind_ok by apply init_weights_writes.
  rewrite IH, bind_cons, foldl_app. done.
Qed.

Lemma perform_write_heap s p w :
  ∃ v, w_heap (perform_write s (p, w)) = <[p := v]> (w_heap s) ∧ written w v.
Proof. destruct w; eexists; (split; [reflexivity|]); cbn; eauto. Qed.

Lemma perform_lookup_notin ws s p :
  p ∉ ws.*1 → w_heap (foldl perform_write s ws) !! p = w_heap s !! p.
Proof.
  revert s. induction ws as [|[q w] ws IH]; intros s Hp; [done|].
  rewrite fmap_cons in Hp. apply not_elem_of_cons in Hp as [Hne Hp].
  cbn [foldl]. rewrite IH by done.
  destruct (perform_write_heap s q w) as (v & -> & _).
  by rewrite lookup_insert_ne.
Qed.

Lemma perform_lookup_in ws s p w :
  NoDup ws.*1 → (p, w) ∈ ws →
  ∃ v, w_heap (foldl perform_write s ws) !! p = Some v ∧ written w v.
Proof.
  revert s. induction ws as [|[q w'] ws IH]; intros s Hnd Hin.
  - by apply elem_of_nil in Hin.
  - rewrite fmap_cons in Hnd. apply NoDup_cons in Hnd as [Hq Hnd].
    apply elem_of_cons in Hin as [Heq|Hin].
    + injection Heq as -> ->. cbn [foldl]. rewrite perform_lookup_notin by done.
      destruct (perform_write_heap s q w') as (v & -> & Hw).
      exists v. by rewrite lookup_insert_eq.
    + cbn [foldl]. by apply IH.
Qed.

Ltac elem_cases H :=
  repeat (apply elem_of_cons in H as [H|H]; [try subst|]);
  [..|by apply elem_of_nil in H].

Ltac solve_notin :=
  rewrite ?not_elem_of_cons; repeat split; try lia; apply not_elem_of_nil.

Lemma blocks_modules_writes config (bs : list Block) :
  (bs ≫= Block_modules) ≫= init_writes config = bs ≫= Block_writes config.
Proof.
  induction bs as [|b bs IH]; [done|].
  rewrite !bind_cons, bind_app, IH. done.
Qed.

Lemma block_at_write_locs config n :
  (Block_writes config (block_at n)).*1
  = [4 + n; 5 + n; 6 + n; 7 + n; 8 + n; 9 + n; 10 + n; 11 + n].
Proof. reflexivity. Qed.

Lemma blocks_writes_bounds config n k p :
  p ∈ (blocks_at n k ≫= Block_writes config).*1 → 4 + n ≤ p < 12 * k + n.
Proof.
  revert n. induction k as [|k IH]; intros n Hp.
  - by apply elem_of_nil in Hp.
  - cbn [blocks_at] in Hp. rewrite bind_cons, fmap_app, block_at_write_locs in Hp.
    apply elem_of_app in Hp as [Hp|Hp].
    + elem_cases Hp; lia.
    + apply IH in Hp. lia.
Qed.

Lemma blocks_writes_NoDup config n k :
  NoDup (blocks_at n k ≫= Block_writes config).*1.
Proof.
  revert n. induction k as [|k IH]; intros n; [constructor|].
  cbn [blocks_at]. rewrite bind_cons, fmap_app, block_at_write_locs.
  apply NoDup_app. split; [|split; [|apply IH]].
  - repeat (apply NoDup_cons; split; [solve_notin|]). constructor.
  - intros p Hp Hp'. apply blocks_writes_bounds in Hp'.
    elem_cases Hp; lia.
Qed.

Lemma blocks_at_length n k : length (blocks_at n k) = k.
Proof. revert n. induction k as [|k IH]; intros n; cbn; [done|]. by rewrite IH. Qed.

Lemma blocks_ln_not_written config n k b p :
  b ∈ blocks_at n k → p ∈ Block_ln_locs b →
  n ≤ p < 12 * k + n ∧ p ∉ (blocks_at n k ≫= Block_writes config).*1.
Proof.
  revert n. induction k as [|k IH]; intros n Hb Hp.
  - by apply elem_of_nil in Hb.
  - cbn [blocks_at] in Hb |- *.
    rewrite bind_cons, fmap_app, block_at_write_locs, not_elem_of_app.
    apply elem_of_cons in Hb as [->|Hb].
    + assert (Hr : n ≤ p < 4 + n) by (unfold Block_ln_locs, LayerNorm_parameters in Hp; cbn in Hp; elem_cases Hp; lia).
      split; [lia|]. split.
      * solve_notin.
      * intros Hw. apply blocks_writes_bounds in Hw. lia.
    + destruct (IH _ Hb Hp) as [Hbd Hnw]. split; [lia|]. split; [|done].
      solve_notin.
Qed.

Lemma blocks_at_tags n k b :
  b ∈ blocks_at n k →
  NANOGPT_SCALE_INIT (attn_c_attn (attn b)) = false ∧
  NANOGPT_SCALE_INIT (attn_c_proj (attn b)) = true ∧
  NANOGPT_SCALE_INIT (mlp_c_fc (mlp b)) = false ∧
  NANOGPT_SCALE_INIT (mlp_c_proj (mlp b)) = true.
Proof.
  revert n. induction k as [|k IH]; intros n Hb.
  - by apply elem_of_nil in Hb.
  - cbn [blocks_at] in Hb. apply elem_of_cons in Hb as [->|Hb]; [done|]. by eapply IH.
Qed.

Lemma GPT_init_construct config s0 :
  valid_heads config →
  let m := gpt_at (w_next s0) (n_layer config) in
  ∃ s1,
    GPT_init config s0
      = Ok (m, foldl perform_write s1 (GPT_modules m ≫= init_writes config)) ∧
    (∀ n, MLayerNorm n ∈ GPT_modules m → ln_default (w_heap s1) n).
Proof.
  intros Hv m. destruct s0 as [hp0 n0 r0]. cbn [w_next] in m.
  set (s2 := mkWorld (<[1 + n0 := TorchDefault]> (<[n0 := TorchDefault]> hp0)) (2 + n0) r0).
  destruct (blocks_init_ok config (n_layer config) s2 Hv) as (s3 & Hrep & Hext & Hln).
  destruct s3 as [hp3 n3 r3]. destruct Hext as (Hn3 & Hr3 & Hpres).
  cbn [w_next w_rng w_heap s2] in Hrep, Hn3, Hr3, Hpres, Hln. subst n3 r3.
  eexists. split.
  - unfold GPT_init.
    erewrite St_bind_ok by reflexivity.
    erewrite St_bind_ok by reflexivity.
    erewrite St_bind_ok by exact Hrep.
    erewrite St_bind_ok by apply nn_LayerNorm_ok.
    erewrite St_bind_ok by reflexivity.
    cbn [lin_weight w_next].
    erewrite St_bind_ok by apply apply_init_writes.
    reflexivity.
  - intros n Hn. unfold m, gpt_at, GPT_modules in Hn. cbn [wte wpe h ln_f lm_head] in Hn.
    unfold ln_default. cbn [w_heap w_next].
    rewrite !elem_of_app in Hn. destruct Hn as [Hn|[Hn|[Hn|Hn]]].
    + elem_cases Hn; discriminate.
    + apply list_elem_of_bind in Hn as (b & Hn & Hb).
      destruct (Hln b Hb) as [[H1w H1b] [H2w H2b]].
      assert (Hrange : ∀ p, p ∈ Block_ln_locs b → p < 12 * n_layer config + (2 + n0)).
      { intros p Hp. destruct (blocks_ln_not_written config _ _ _ _ Hb Hp) as [? _]. lia. }
      assert (Hr1 := Hrange (ln_weight (ln_1 b))). assert (Hr2 := Hrange (ln_bias (ln_1 b))).
      assert (Hr3 := Hrange (ln_weight (ln_2 b))). assert (Hr4 := Hrange (ln_bias (ln_2 b))).
      unfold Block_ln_locs, LayerNorm_parameters in Hr1, Hr2, Hr3, Hr4.
      cbn [app] in Hr1, Hr2, Hr3, Hr4. rewrite !elem_of_cons in Hr1, Hr2, Hr3, Hr4.
      unfold Block_modules in Hn. elem_cases Hn; try discriminate; injection Hn as ->.
      * split; (rewrite !lookup_insert_ne; [done|lia..]).
      * split; (rewrite !lookup_insert_ne; [done|lia..]).
    + elem_cases Hn; discriminate.
    + elem_cases Hn; try discriminate. injection Hn as ->.
      cbn [ln_weight ln_bias]. split.
      * rewrite !lookup_insert_ne by lia. by rewrite lookup_insert_eq.
      * rewrite !lookup_insert_ne by lia. by rewrite lookup_insert_eq.
Qed.

Lemma gpt_writes config n k :
  GPT_modules (gpt_at n k) ≫= init_writes config
  = (2 + (12 * k + (2 + n)), WNormal 0.02%R)
    :: ((1 + n, WNormal 0.02%R)
        :: (blocks_at (2 + n) k ≫= Block_writes config)
        ++ [(2 + (12 * k + (2 + n)), WNormal 0.02%R)]).
Proof.
  unfold GPT_modules, gpt_at. cbn [wte wpe h ln_f lm_head].
  rewrite !bind_app, blocks_modules_writes. reflexivity.
Qed.

Lemma gpt_writes_tail_NoDup config n k :
  NoDup (((1 + n, WNormal 0.02%R)
          :: (blocks_at (2 + n) k ≫= Block_writes config)
          ++ [(2 + (12 * k + (2 + n)), WNormal 0.02%R)]).*1).
Proof.
  rewrite fmap_cons, fmap_app. cbn [fmap list_fmap fst].
  apply NoDup_cons. split.
  - rewrite not_elem_of_app, not_elem_of_cons. split; [|split; [lia|apply not_elem_of_nil]].
    intros Hp. apply blocks_writes_bounds in Hp. lia.
  - apply NoDup_app. split; [apply blocks_writes_NoDup|]. split; [|apply NoDup_singleton].
    intros p Hp Hp'. apply blocks_writes_bounds in Hp.
    apply list_elem_of_singleton in Hp'. lia.
Qed.

(** Every write of the initialiser is still visible at the end: each
    tensor is written once, except the tied one, whose two writes agree. *)
Lemma gpt_init_lookup config n k s p w :
  (p, w) ∈ GPT_modules (gpt_at n k) ≫= init_writes config →
  ∃ v, w_heap (foldl perform_write s (GPT_modules (gpt_at n k) ≫= init_writes config)) !! p
       = Some v ∧ written w v.
Proof.
  rewrite gpt_writes. intros Hin.
  change (foldl perform_write s (?a :: ?l)) with (foldl perform_write (perform_write s a) l).
  apply perform_lookup_in; [apply gpt_writes_tail_NoDup|].
  apply elem_of_cons in Hin as [->|Hin]; [|done].
  apply elem_of_cons. right. apply elem_of_app. right. by apply list_elem_of_singleton.
Qed.

Lemma gpt_ln_not_written config n k ln :
  MLayerNorm ln ∈ GPT_modules (gpt_at n k) →
  (ln_weight ln ∉ (GPT_modules (gpt_at n k) ≫= init_writes config).*1) ∧
  ln_bias ln ∉ (GPT_modules (gpt_at n k) ≫= init_writes config).*1.
Proof.
  intros Hn. rewrite gpt_writes, !fmap_cons, fmap_app. cbn [fmap list_fmap fst].
  rewrite !not_elem_of_cons, !not_elem_of_app, !not_elem_of_cons.
  unfold gpt_at, GPT_modules in Hn. cbn [wte wpe h ln_f lm_head] in Hn.
  rewrite !elem_of_app in Hn. destruct Hn as [Hn|[Hn|[Hn|Hn]]].
  - elem_cases Hn; discriminate.
  - apply list_elem_of_bind in Hn as (b & Hn & Hb).
    assert (Hloc : ∀ p, p ∈ Block_ln_locs b →
              2 + n ≤ p < 12 * k + (2 + n) ∧ p ∉ (blocks_at (2 + n) k ≫= Block_writes config).*1)
      by (intros p Hp; by apply blocks_ln_not_written with (b := b)).
    assert (Hr1 := Hloc (ln_weight (ln_1 b))). assert (Hr2 := Hloc (ln_bias (ln_1 b))).
    assert (Hr3 := Hloc (ln_weight (ln_2 b))). assert (Hr4 := Hloc (ln_bias (ln_2 b))).
    unfold Block_ln_locs, LayerNorm_parameters in Hr1, Hr2, Hr3, Hr4.
    cbn [app] in Hr1, Hr2, Hr3, Hr4. rewrite !elem_of_cons in Hr1, Hr2, Hr3, Hr4.
    destruct Hr1 as [? ?]; [tauto|]. destruct Hr2 as [? ?]; [tauto|].
    destruct Hr3 as [? ?]; [tauto|]. destruct Hr4 as [? ?]; [tauto|].
    unfold Block_modules in Hn. elem_cases Hn; try discriminate; injection Hn as ->.
    + repeat split; try done; try lia; apply not_elem_of_nil.
    + repeat split; try done; try lia; apply not_elem_of_nil.
  - elem_cases Hn; discriminate.
  - elem_cases Hn; try discriminate. injection Hn as ->. cbn [ln_weight ln_bias].
    repeat split; try lia; try apply not_elem_of_nil.
    all: intros Hp; apply blocks_writes_bounds in Hp; lia.
Qed.

(** The reduced standard deviation is [0.02 / sqrt (2 * n_layer)]. *)
Lemma scaled_std_sqrt (config : GPTConfig) :
  0 < n_layer config →
  scaled_std config = (0.02 / sqrt (INR (2 * n_layer config)))%R.
Proof.
  intros Hn. unfold scaled_std.
  assert (Hpos : (0 < INR (2 * n_layer config))%R) by (apply lt_0_INR; lia).
  replace (-0.5)%R with (- / 2)%R by lra.
  rewrite Rpower_Ropp, Rpower_sqrt by done. reflexivity.
Qed.

(** The reduced standard deviation in closed form: it is
    [0.02 * (2 * n_layer)^-0.5], that is [0.02 / sqrt (2 * n_layer)], and
    lies strictly between 0 and 0.02. *)
Lemma scaled_std_closed (config : GPTConfig) :
  0 < n_layer config →
  (scaled_std config = 0.02 * Rpower (2 * INR (n_layer config)) (-0.5) ∧
   scaled_std config = 0.02 / sqrt (2 * INR (n_layer config)) ∧
   0 < scaled_std config < 0.02)%R.
Proof.
  intros Hn.
  assert (H2 : INR (2 * n_layer config) = (2 * INR (n_layer config))%R).
  { rewrite mult_INR. cbn [INR]. lra. }
  assert (Hge : (1 <= INR (n_layer config))%R) by (apply (le_INR 1); lia).
  pose proof (scaled_std_sqrt config Hn) as Hsq.
  split; [unfold scaled_std; by rewrite H2|].
  split; [by rewrite Hsq, H2|]. rewrite Hsq, H2.
  assert (Hs : (1 < sqrt (2 * INR (n_layer config)))%R).
  { rewrite <- sqrt_1 at 1. apply sqrt_lt_1_alt. lra. }
  split.
  - apply Rdiv_lt_0_compat; lra.
  - apply (Rmult_lt_reg_r (sqrt (2 * INR (n_layer config)))); [lra|].
    unfold Rdiv. rewrite Rmult_assoc, Rinv_l by lra. lra.
Qed.

(** Only the projections inside a block carry the tag. *)
Lemma tagged_linear_in_block (n k : nat) (l : Linear) :
  MLinear l ∈ GPT_modules (gpt_at n k) → NANOGPT_SCALE_INIT l = true → 0 < k.
Proof.
  intros Hl Htag. destruct k as [|k]; [exfalso|lia].
  unfold GPT_modules, gpt_at in Hl. cbn in Hl.
  elem_cases Hl; try discriminate. injection Hl as ->. discriminate.
Qed.

(** C8. Construction succeeds for a configuration whose head count
    divides the embedding width, and afterwards: every Linear weight
    holds a draw from the zero-mean normal whose standard deviation is
    0.02 for a module without the NANOGPT_SCALE_INIT tag and
    0.02 * (2 * n_layer)^-0.5 = 0.02 / sqrt (2 * n_layer), a value
    strictly below 0.02, for a module with it; every Linear bias is
    zero; every Embedding weight is a draw with standard deviation 0.02;
    LayerNorm parameters keep ones and zeros; and the tagged modules are
    exactly the attention output projection and the second feed-forward
    projection of each of the [n_layer] blocks. *)
Theorem init_weights_scaled (config : GPTConfig) (s0 : world) :
  valid_heads config →
  ∃ m s,
    GPT_init config s0 = Ok (m, s) ∧
    length (h m) = n_layer config ∧
    (∀ l, MLinear l ∈ GPT_modules m →
       (∃ draw std,
          w_heap s !! lin_weight l = Some (Normal 0 std draw) ∧
          (NANOGPT_SCALE_INIT l = false → std = 0.02%R) ∧
          (NANOGPT_SCALE_INIT l = true →
             std = (0.02 * Rpower (2 * INR (n_layer config)) (-0.5))%R ∧
             std = (0.02 / sqrt (2 * INR (n_layer config)))%R ∧
             (0 < std < 0.02)%R)) ∧
       (∀ b, lin_bias l = Some b → w_heap s !! b = Some Zeros)) ∧
    (∀ e, MEmbedding e ∈ GPT_modules m →
       ∃ draw, w_heap s !! emb_weight e = Some (Normal 0 0.02%R draw)) ∧
    (∀ n, MLayerNorm n ∈ GPT_modules m →
       w_heap s !! ln_weight n = Some Ones ∧ w_heap s !! ln_bias n = Some Zeros) ∧
    (∀ b, b ∈ h m →
       NANOGPT_SCALE_INIT (attn_c_attn (attn b)) = false ∧
       NANOGPT_SCALE_INIT (attn_c_proj (attn b)) = true ∧
       NANOGPT_SCALE_INIT (mlp_c_fc (mlp b)) = false ∧
       NANOGPT_SCALE_INIT (mlp_c_proj (mlp b)) = true) ∧
    NANOGPT_SCALE_INIT (lm_head m) = false.
Proof.
  intros Hv.
  destruct (GPT_init_construct config s0 Hv) as (s1 & Hinit & Hln).
  eexists _, _. split; [exact Hinit|].
  split; [apply blocks_at_length|].
  split; [|split; [|split; [|split; [|done]]]].
  - intros l Hl. split.
    + destruct (gpt_init_lookup config (w_next s0) (n_layer config) s1 (lin_weight l)
                  (WNormal (if NANOGPT_SCALE_INIT l then scaled_std config else 0.02%R)))
        as (v & Hv' & [k ->]).
      { apply list_elem_of_bind. exists (MLinear l). split; [|exact Hl].
        cbn [init_writes]. apply elem_of_cons. by left. }
      eexists _, _. split; [exact Hv'|].
      split; intros Htag; rewrite Htag; [reflexivity|].
      apply scaled_std_closed. by eapply tagged_linear_in_block.
    + intros b Hb.
      destruct (gpt_init_lookup config (w_next s0) (n_layer config) s1 b WZeros)
        as (v & Hv' & ->); [|exact Hv'].
      apply list_elem_of_bind. exists (MLinear l). split; [|exact Hl].
      cbn [init_writes]. rewrite Hb. apply elem_of_cons. right. apply elem_of_cons. by left.
  - intros e He.
    destruct (gpt_init_lookup config (w_next s0) (n_layer config) s1 (emb_weight e)
                (WNormal 0.02%R)) as (v & Hv' & [k ->]); [|eauto].
    apply list_elem_of_bind. exists (MEmbedding e). split; [|exact He].
    cbn [init_writes]. apply elem_of_cons. by left.
  - intros n Hn. destruct (gpt_ln_not_written config _ _ _ Hn) as [Hw Hb].
    rewrite !perform_lookup_notin by done. by apply Hln.
  - intros b Hb. unfold gpt_at in Hb. cbn [h] in Hb. exact (blocks_at_tags _ _ _ Hb).
Qed.

(** The script's configuration: 12 blocks, and every tagged projection
    is drawn with standard deviation [0.02 / sqrt 24]. *)
Lemma init_weights_scaled_main :
  valid_heads main_config ∧
  ∃ m s, GPT_init main_config (mkWorld ∅ 0 0) = Ok (m, s) ∧
         length (h m) = 12 ∧
         NANOGPT_SCALE_INIT (lm_head m) = false ∧
         ∀ l, MLinear l ∈ GPT_modules m → NANOGPT_SCALE_INIT l = true →
              ∃ draw, w_heap s !! lin_weight l = Some (Normal 0 (0.02 / sqrt (2 * 12)) draw).
Proof.
  assert (Hv : valid_heads main_config) by (split; [discriminate|reflexivity]).
  split; [exact Hv|].
  destruct (init_weights_scaled main_config (mkWorld ∅ 0 0) Hv)
    as (m & s & Hinit & Hlen & Hlin & _ & _ & _ & Htag).
  exists m, s. split; [exact Hinit|]. split; [exact Hlen|]. split; [exact Htag|].
  intros l Hl Hscaled.
  destruct (Hlin l Hl) as [(draw & std & Hw & _ & Hstd) _].
  destruct (Hstd Hscaled) as (_ & Hsqrt & _).
  exists draw. rewrite Hw, Hsqrt. do 4 f_equal.
  change (n_layer main_config) with 12. cbn [INR]. lra.
Defined.

(** ** Weight tying *)

Lemma foldl_alter_notin (f : tensor_val → tensor_val) (params : list loc)
    (hp : gmap loc tensor_val) (p : loc) :
  p ∉ params → foldl (λ hp q, alter f q hp) hp params !! p = hp !! p.
Proof.
  revert hp. induction params as [|q params IH]; intros hp Hp; [done|].
  apply not_elem_of_cons in Hp as [Hne Hp].
  cbn [foldl]. rewrite IH by done. by rewrite lookup_alter_ne.
Qed.

Lemma foldl_alter_once (f : tensor_val → tensor_val) (params : list loc)
    (hp : gmap loc tensor_val) (p : loc) :
  NoDup params → p ∈ params →
  foldl (λ hp q, alter f q hp) hp params !! p = f <$> hp !! p.
Proof.
  revert hp. induction params as [|q params IH]; intros hp Hnd Hp.
  - by apply elem_of_nil in Hp.
  - apply NoDup_cons in Hnd as [Hq Hnd]. cbn [foldl].
    apply elem_of_cons in Hp as [->|Hp].
    + rewrite foldl_alter_notin by done. by rewrite lookup_alter_eq.
    + rewrite IH by done. rewrite lookup_alter_ne; [done|].
      intros ->. contradiction.
Qed.

Lemma elem_of_first_occurrences (seen l : list loc) (x : loc) :
  x ∈ first_occurrences seen l ↔ x ∈ l ∧ x ∉ seen.
Proof.
  revert seen. induction l as [|p l IH]; intros seen.
  - cbn. rewrite elem_of_nil. tauto.
  - cbn [first_occurrences]. rewrite elem_of_cons. case_bool_decide as Hp.
    + rewrite IH. split; [tauto|]. intros [[->|Hx] Hs]; [done|tauto].
    + rewrite elem_of_cons, IH, not_elem_of_cons.
      destruct (decide (x = p)) as [->|Hne]; tauto.
Qed.

Lemma NoDup_first_occurrences (seen l : list loc) : NoDup (first_occurrences seen l).
Proof.
  revert seen. induction l as [|p l IH]; intros seen; [constructor|].
  cbn [first_occurrences]. case_bool_decide as Hp; [apply IH|].
  constructor; [|apply IH].
  rewrite elem_of_first_occurrences, not_elem_of_cons. tauto.
Qed.

Lemma optimizer_step_lookup (m : GPT) (step : nat) (s : world) (p : loc) (v : tensor_val) :
  p ∈ named_parameters m → w_heap s !! p = Some v →
  w_heap (optimizer_step (named_parameters m) step s) !! p = Some (Stepped v step).
Proof.
  intros Hp Hv. unfold optimizer_step. cbn [w_heap].
  rewrite foldl_alter_once; [by rewrite Hv| |done].
  apply NoDup_first_occurrences.
Qed.

Lemma train_steps_lookup (m : GPT) (k : nat) (s : world) (p : loc) (v : tensor_val) :
  p ∈ named_parameters m → w_heap s !! p = Some v →
  w_heap (train_steps m k s) !! p = Some (foldl Stepped v (seq 0 k)).
Proof.
  intros Hp Hv. unfold train_steps. induction k as [|k IH]; [done|].
  rewrite seq_S, !foldl_app. cbn [foldl].
  by apply optimizer_step_lookup.
Qed.

(** C3. After construction the token embedding and the output
    projection name one tensor: their weights are the same location, so
    an in-place write through either name is read back through the
    other; initialisation leaves one value under both names; and after
    any number of optimizer steps both names still read the same tensor,
    which each step has updated exactly once. *)
Theorem weight_tying (config : GPTConfig) (s0 : world) :
  valid_heads config →
  ∃ m s,
    GPT_init config s0 = Ok (m, s) ∧
    emb_weight (wte m) = lin_weight (lm_head m) ∧
    (∀ (hp : gmap loc tensor_val) (v : tensor_val),
       <[emb_weight (wte m) := v]> hp !! lin_weight (lm_head m) = Some v ∧
       <[lin_weight (lm_head m) := v]> hp !! emb_weight (wte m) = Some v) ∧
    (∃ draw,
       w_heap s !! emb_weight (wte m) = Some (Normal 0 0.02%R draw) ∧
       w_heap s !! lin_weight (lm_head m) = Some (Normal 0 0.02%R draw) ∧
       ∀ max_steps,
         w_heap (train_steps m max_steps s) !! emb_weight (wte m)
           = Some (foldl Stepped (Normal 0 0.02%R draw) (seq 0 max_steps)) ∧
         w_heap (train_steps m max_steps s) !! lin_weight (lm_head m)
           = Some (foldl Stepped (Normal 0 0.02%R draw) (seq 0 max_steps))).
Proof.
  intros Hv.
  destruct (GPT_init_construct config s0 Hv) as (s1 & Hinit & _).
  eexists _, _. split; [exact Hinit|].
  set (m := gpt_at (w_next s0) (n_layer config)).
  assert (Htie : emb_weight (wte m) = lin_weight (lm_head m)) by reflexivity.
  split; [exact Htie|]. split.
  - intros hp v. rewrite Htie. split; apply lookup_insert_eq.
  - destruct (gpt_init_lookup config (w_next s0) (n_layer config) s1 (lin_weight (lm_head m))
                (WNormal 0.02%R)) as (v & Hv' & [draw ->]).
    { rewrite gpt_writes. apply elem_of_cons. by left. }
    fold m in Hv'. exists draw. rewrite Htie. split; [exact Hv'|]. split; [exact Hv'|].
    intros max_steps.
    assert (Hp : lin_weight (lm_head m) ∈ named_parameters m).
    { unfold named_parameters. apply elem_of_first_occurrences.
      split; [|apply not_elem_of_nil].
      rewrite <- Htie. apply elem_of_cons. by left. }
    split; by apply train_steps_lookup.
Qed.

Lemma weight_tying_main :
  valid_heads main_config ∧
  ∃ m s, GPT_init main_config (mkWorld ∅ 0 0) = Ok (m, s) ∧
         emb_weight (wte m) = lin_weight (lm_head m).
Proof.
  assert (Hv : valid_heads main_config) by (split; [discriminate|reflexivity]).
  split; [exact Hv|].
  destruct (weight_tying main_config (mkWorld ∅ 0 0) Hv) as (m & s & Hinit & Htie & _).
  exists m, s. split; [exact Hinit|exact Htie].
Defined.

(** ** Forward pass: errors *)

Lemma result_mapM_Forall2 {A B} (f : A → result B) (l : list A) (bs : list B) :
  result_mapM f l = Ok bs ↔ Forall2 (λ a b, f a = Ok b) l bs.
Proof.
  revert bs. induction l as [|a l IH]; intros bs; cbn [result_mapM].
  - split; [intros [= <-]; constructor|intros H; by inversion H].
  - split.
    + destruct (f a) as [b|e] eqn:Hfa; [|done]. cbn.
      destruct (result_mapM f l) as [bs'|e] eqn:Hl; [|done]. cbn.
      intros [= <-]. constructor; [done|]. by apply IH.
    + intros H. inversion H as [|? b ? bs' Hfa Hrest]; subst.
      rewrite Hfa. cbn. apply IH in Hrest. rewrite Hrest. done.
Qed.

Lemma result_mapM_err {A B} (f : A → result B) (l : list A) (e : py_error) :
  result_mapM f l = Err e → ∃ a, a ∈ l ∧ f a = Err e.
Proof.
  induction l as [|a l IH]; cbn [result_mapM]; [done|].
  destruct (f a) as [b|e'] eqn:Hfa; cbn.
  - destruct (result_mapM f l) as [bs'|e']; cbn; [done|].
    intros [= ->]. destruct IH as (a' & Hin & Ha'); [done|].
    exists a'. split; [by apply elem_of_cons; right|done].
  - intros [= ->]. exists a. split; [by apply elem_of_cons; left|done].
Qed.

Lemma result_mapM_ok {A B} (f : A → result B) (l : list A) :
  Forall (λ a, ∃ b, f a = Ok b) l → ∃ bs, result_mapM f l = Ok bs.
Proof.
  induction 1 as [|a l [b Hb] _ [bs IH]]; [by exists []|].
  exists (b :: bs). cbn [result_mapM]. by rewrite Hb, IH.
Qed.

Lemma result_mapM_length {A B} (f : A → result B) (l : list A) (bs : list B) :
  result_mapM f l = Ok bs → length bs = length l.
Proof. intros H. apply result_mapM_Forall2 in H. symmetry. by eapply Forall2_length. Qed.

Lemma Embedding_forward_err θ e i err :
  Embedding_forward θ e i = Err err → err = IndexError.
Proof.
  unfold Embedding_forward. case_bool_decide; [|by intros [= <-]].
  destruct (_ !! _); [done|by intros [= <-]].
Qed.

Lemma Embedding_forward_ok θ e (i : Z) :
  (0 ≤ i < Z.of_nat (length (p_mat θ (emb_weight e))))%Z →
  ∃ row, Embedding_forward θ e i = Ok row.
Proof.
  intros Hi. unfold Embedding_forward. rewrite bool_decide_eq_true_2 by lia.
  destruct (lookup_lt_is_Some_2 (p_mat θ (emb_weight e)) (Z.to_nat i)) as [row ->]; [lia|].
  by exists row.
Qed.

Lemma cross_entropy_err input target err :
  cross_entropy input target = Err err → err = IndexError ∨ err = ValueError.
Proof.
  unfold cross_entropy. case_bool_decide; [|intros [= <-]; by right].
  destruct (result_mapM _ _) as [ls|e] eqn:Hm; [done|]. cbn. intros [= ->].
  apply result_mapM_err in Hm as ([x t] & _ & Hxt). left.
  unfold cross_entropy_item in Hxt. cbn in Hxt.
  repeat case_bool_decide; congruence.
Qed.

(** C7. A batch whose rows are longer than [block_size] is rejected by
    the assertion, whatever the parameters and tokens are, so before any
    logits are computed; a batch within the context length never fails
    that way. *)
Theorem forward_checks_sequence_length (erf : R → R) (config : GPTConfig) (θ : params)
    (self : GPT) (idx : list (list Z)) (targets : option (list (list Z))) :
  (block_size config < size1 idx →
   GPT_forward erf config θ self idx targets = Err AssertionError) ∧
  (size1 idx ≤ block_size config →
   GPT_forward erf config θ self idx targets ≠ Err AssertionError).
Proof.
  split; intros HT; unfold GPT_forward.
  - rewrite bool_decide_eq_false_2 by lia. done.
  - rewrite bool_decide_eq_true_2 by lia. cbn.
    destruct (result_mapM (Embedding_forward θ (wpe self)) _) as [pos_emb|e] eqn:Hpos; cbn.
    2:{ apply result_mapM_err in Hpos as (i & _ & Hi).
        apply Embedding_forward_err in Hi as ->. done. }
    destruct (result_mapM _ idx) as [tok_emb|e] eqn:Htok; cbn.
    2:{ apply result_mapM_err in Htok as (row & _ & Hrow).
        apply result_mapM_err in Hrow as (i & _ & Hi).
        apply Embedding_forward_err in Hi as ->. done. }
    destruct targets as [targets|]; [|done].
    destruct (cross_entropy _ _) as [l|e] eqn:Hce; [done|]. cbn.
    apply cross_entropy_err in Hce as [-> | ->]; done.
Qed.

Lemma forward_checks_sequence_length_example :
  GPT_forward (λ _, 0%R) (mkGPTConfig 2 4 0 1 1 1) (mkParams (λ _, []) (λ _, []))
    (gpt_at 0 0) [[0; 1; 2]%Z] None = Err AssertionError ∧
  GPT_forward (λ _, 0%R) (mkGPTConfig 2 4 0 1 1 1) (mkParams (λ _, []) (λ _, []))
    (gpt_at 0 0) [[0; 1]%Z] None ≠ Err AssertionError.
Proof.
  split.
  - apply (forward_checks_sequence_length (λ _, 0%R) (mkGPTConfig 2 4 0 1 1 1)). cbn. lia.
  - apply (forward_checks_sequence_length (λ _, 0%R) (mkGPTConfig 2 4 0 1 1 1)). cbn. lia.
Defined.

(** ** Forward pass: the batch dimension *)

Lemma Block_forward_rows erf config θ b (x : list (list vec)) :
  Block_forward erf config θ b x = map (Block_forward_seq erf config θ b) x.
Proof.
  unfold Block_forward, Block_forward_seq, SelfAttention_forward, MLP_forward.
  rewrite <- !list_fmap_compose, !zip_with_fmap_r, zip_with_diag.
  rewrite zip_with_diag, <- list_fmap_compose.
  apply list_fmap_ext. intros i r _. reflexivity.
Qed.

Lemma blocks_forward_rows erf config θ (bs : list Block) (x : list (list vec)) :
  foldl (λ x b, Block_forward erf config θ b x) x bs
  = map (λ r, foldl (λ r b, Block_forward_seq erf config θ b r) r bs) x.
Proof.
  revert x. induction bs as [|b bs IH]; intros x; cbn [foldl].
  - by rewrite list_fmap_id.
  - rewrite IH, Block_forward_rows, <- list_fmap_compose. done.
Qed.

(** [GPT.forward], with the pure part per sequence. *)
Lemma GPT_forward_unfold erf config θ self idx targets :
  GPT_forward erf config θ self idx targets =
    _ ← py_assert (bool_decide (size1 idx ≤ block_size config));
    pos_emb ← result_mapM (Embedding_forward θ (wpe self)) (map Z.of_nat (seq 0 (size1 idx)));
    tok_emb ← result_mapM (result_mapM (Embedding_forward θ (wte self))) idx;
    let logits := map (logits_seq erf config θ self pos_emb) tok_emb in
    loss ← match targets with
           | Some targets => l ← cross_entropy (mjoin logits) (mjoin targets); Ok (Some l)
           | None => Ok None
           end;
    Ok (logits, loss).
Proof.
  unfold GPT_forward, logits_seq.
  destruct (py_assert _); [|done]. cbn.
  destruct (result_mapM (Embedding_forward θ (wpe self)) _) as [pos_emb|]; [|done]. cbn.
  destruct (result_mapM _ idx) as [tok_emb|]; [|done]. cbn.
  rewrite blocks_forward_rows, <- !list_fmap_compose. done.
Qed.

(** ** Forward pass: shapes and success *)

Lemma length_SelfAttention_forward_seq config θ a (x : list vec) :
  length (SelfAttention_forward_seq config θ a x) = length x.
Proof.
  unfold SelfAttention_forward_seq. cbn zeta.
  by rewrite length_fmap, length_imap.
Qed.

Lemma length_Block_forward_seq erf config θ b (x : list vec) :
  length (Block_forward_seq erf config θ b x) = length x.
Proof.
  unfold Block_forward_seq, tadd. cbn zeta.
  rewrite !length_zip_with, !length_fmap, !length_zip_with,
    length_SelfAttention_forward_seq, length_fmap. lia.
Qed.

Lemma length_blocks_forward_seq erf config θ (bs : list Block) (x : list vec) :
  length (foldl (λ x b, Block_forward_seq erf config θ b x) x bs) = length x.
Proof.
  revert x. induction bs as [|b bs IH]; intros x; cbn [foldl]; [done|].
  by rewrite IH, length_Block_forward_seq.
Qed.

Lemma length_logits_seq erf config θ self (pos_emb tok_emb : list vec) :
  length (logits_seq erf config θ self pos_emb tok_emb)
  = length pos_emb `min` length tok_emb.
Proof.
  unfold logits_seq. rewrite !length_fmap, length_blocks_forward_seq.
  unfold tadd. by rewrite length_zip_with.
Qed.

Lemma logits_seq_vocab erf config θ self (pos_emb tok_emb : list vec) :
  model_shaped config θ self →
  Forall (λ v, length v = vocab_size config) (logits_seq erf config θ self pos_emb tok_emb).
Proof.
  intros (_ & _ & Hlm & Hnb). unfold logits_seq.
  apply Forall_fmap, Forall_forall. intros v _. cbn.
  unfold Linear_forward. rewrite Hnb. by rewrite length_fmap.
Qed.

Lemma pos_emb_ok config θ self (T : nat) :
  model_shaped config θ self → T ≤ block_size config →
  ∃ pos_emb, result_mapM (Embedding_forward θ (wpe self)) (map Z.of_nat (seq 0 T)) = Ok pos_emb ∧
             length pos_emb = T.
Proof.
  intros (Hwpe & _) HT.
  destruct (result_mapM_ok (Embedding_forward θ (wpe self)) (map Z.of_nat (seq 0 T)))
    as [pos_emb Hpos].
  { apply Forall_fmap, Forall_forall. intros i Hi. cbn.
    apply elem_of_seq in Hi. apply Embedding_forward_ok. lia. }
  exists pos_emb. split; [done|].
  apply result_mapM_length in Hpos. by rewrite Hpos, length_fmap, length_seq.
Qed.

Lemma tok_emb_ok config θ self (idx : list (list Z)) :
  model_shaped config θ self → ids_in_vocab config idx →
  ∃ tok_emb, result_mapM (result_mapM (Embedding_forward θ (wte self))) idx = Ok tok_emb ∧
             Forall2 (λ row emb, length emb = length row) idx tok_emb.
Proof.
  intros (_ & Hwte & _) Hids.
  destruct (result_mapM_ok (result_mapM (Embedding_forward θ (wte self))) idx)
    as [tok_emb Htok].
  { eapply Forall_impl; [exact Hids|]. intros row Hrow. cbn in *.
    apply result_mapM_ok. eapply Forall_impl; [exact Hrow|].
    intros i Hi. cbn in *. apply Embedding_forward_ok. lia. }
  exists tok_emb. split; [done|].
  apply result_mapM_Forall2 in Htok. eapply Forall2_impl; [exact Htok|].
  intros row emb Hrow. cbn in *. by apply result_mapM_length in Hrow.
Qed.

(** ** The loss *)

Section LossFacts.
Local Open Scope R_scope.

Lemma cross_entropy_item_in_range (x : vec) (t : Z) :
  (0 ≤ t < Z.of_nat (length x))%Z →
  cross_entropy_item x t = Ok (Some (nll x (Z.to_nat t))).
Proof.
  intros Ht. unfold cross_entropy_item, ignore_index.
  rewrite bool_decide_eq_false_2 by lia.
  by rewrite bool_decide_eq_true_2.
Qed.

Lemma cross_entropy_items_in_range (xs : list vec) (ts : list Z) :
  Forall2 (λ x t, (0 ≤ t < Z.of_nat (length x))%Z) xs ts →
  result_mapM (λ xt, cross_entropy_item xt.1 xt.2) (zip xs ts)
  = Ok (map Some (zip_with (λ x t, nll x (Z.to_nat t)) xs ts)).
Proof.
  induction 1 as [|x t xs ts Ht _ IH]; [done|].
  cbn [zip zip_with result_mapM fst snd].
  rewrite cross_entropy_item_in_range by done. cbn. rewrite IH. done.
Qed.

Lemma omap_Some (l : list R) : omap (λ o : option R, o) (map Some l) = l.
Proof. induction l as [|x l IH]; [done|]. cbn. by rewrite IH. Qed.

Lemma cross_entropy_in_range (xs : list vec) (ts : list Z) :
  Forall2 (λ x t, (0 ≤ t < Z.of_nat (length x))%Z) xs ts →
  cross_entropy xs ts
  = Ok (Rsum (zip_with (λ x t, nll x (Z.to_nat t)) xs ts) / INR (length xs)).
Proof.
  intros H. unfold cross_entropy.
  pose proof (Forall2_length _ _ _ H) as Hlen.
  rewrite bool_decide_eq_true_2 by done.
  rewrite cross_entropy_items_in_range by done. cbn.
  rewrite omap_Some, length_zip_with, Nat.min_l by lia. done.
Qed.

(** The loss [F.cross_entropy] computes for one row, the log-sum-exp
    form, is minus the logarithm of the softmax probability of the
    target. *)
Lemma Rsum_exp_pos (x : vec) : x ≠ [] → 0 < Rsum (map exp x).
Proof.
  destruct x as [|a x]; [done|]. intros _. cbn [map].
  change (Rsum (exp a :: map exp x)) with (exp a + Rsum (map exp x)).
  assert (0 <= Rsum (map exp x)).
  { induction x as [|b x IH]; [cbn; lra|]. cbn [map].
    change (Rsum (exp b :: map exp x)) with (exp b + Rsum (map exp x)).
    pose proof (exp_pos b). lra. }
  pose proof (exp_pos a). lra.
Qed.

Lemma nll_cross_entropy (x : vec) (t : nat) :
  (t < length x)%nat → nll x t = token_cross_entropy x t.
Proof.
  intros Ht. unfold nll, token_cross_entropy, softmax.
  set (S := Rsum (map exp x)).
  assert (HS : 0 < S) by (apply Rsum_exp_pos; intros ->; cbn in Ht; lia).
  rewrite (nth_indep (map (λ a, exp a / S) x) 0 (exp 0 / S)) by (by rewrite length_map).
  rewrite (map_nth (λ a, exp a / S)).
  unfold Rdiv. rewrite ln_mult by (apply exp_pos || by apply Rinv_0_lt_compat).
  rewrite ln_Rinv, ln_exp by exact HS. lra.
Qed.

Lemma zip_with_nll_cross_entropy (xs : list vec) (ts : list Z) :
  Forall2 (λ x t, (0 ≤ t < Z.of_nat (length x))%Z) xs ts →
  zip_with (λ x t, nll x (Z.to_nat t)) xs ts
  = zip_with (λ x t, token_cross_entropy x (Z.to_nat t)) xs ts.
Proof.
  induction 1 as [|x t xs ts Ht _ IH]; [done|].
  cbn [zip_with]. rewrite IH, nll_cross_entropy by lia. done.
Qed.

(** Flattening the batch and averaging is the average over (row,
    position) pairs. *)
Lemma Rsum_zip_with_mjoin {A B} (f : A → B → R) (ls : list (list A)) (ks : list (list B)) :
  Forall2 (λ l k, length l = length k) ls ks →
  Rsum (zip_with f (mjoin ls) (mjoin ks))
  = Rsum (zip_with (λ l k, Rsum (zip_with f l k)) ls ks).
Proof.
  induction 1 as [|l k ls ks Hlk _ IH]; [done|].
  change (mjoin (l :: ls)) with (l ++ mjoin ls).
  change (mjoin (k :: ks)) with (k ++ mjoin ks).
  rewrite zip_with_app by done. rewrite Rsum_app, IH. done.
Qed.

Lemma length_mjoin_rect {A} (ls : list (list A)) (T : nat) :
  Forall (λ l, length l = T) ls → length (mjoin ls) = (length ls * T)%nat.
Proof.
  induction 1 as [|l ls Hl _ IH]; [done|].
  change (mjoin (l :: ls)) with (l ++ mjoin ls).
  rewrite length_app, IH, Hl. cbn [length]. lia.
Qed.

Lemma Forall2_mjoin {A B} (P : A → B → Prop) (ls : list (list A)) (ks : list (list B)) :
  Forall2 (Forall2 P) ls ks → Forall2 P (mjoin ls) (mjoin ks).
Proof.
  induction 1 as [|l k ls ks Hlk _ IH]; [constructor|].
  change (mjoin (l :: ls)) with (l ++ mjoin ls).
  change (mjoin (k :: ks)) with (k ++ mjoin ks).
  by apply Forall2_app.
Qed.

End LossFacts.

Lemma Forall2_in_range (V : nat) (xs : list vec) (ts : list Z) :
  Forall (λ x, length x = V) xs → Forall (λ t, (0 ≤ t < Z.of_nat V)%Z) ts →
  length xs = length ts →
  Forall2 (λ x t, (0 ≤ t < Z.of_nat (length x))%Z) xs ts.
Proof.
  intros Hx. revert ts. induction Hx as [|x xs Hx _ IH]; intros [|t ts] Ht Hlen; try done.
  apply Forall_cons in Ht as [Ht Hts]. constructor; [by rewrite Hx|].
  apply IH; [done|]. cbn in Hlen. lia.
Qed.

Lemma length_mul_size1 {A} (ls : list (list A)) (T : nat) :
  Forall (λ l, length l = T) ls → length ls * size1 ls = length ls * T.
Proof. intros [|l ls' Hl _]; [done|]. unfold size1. cbn [hd]. by rewrite Hl. Qed.

Lemma Forall2_rows_shape {A B C} (T : nat) (idx : list (list A)) (emb : list (list B))
    (tg : list (list C)) :
  Forall2 (λ row e, length e = length row) idx emb →
  Forall2 (λ row t, length t = length row) idx tg →
  Forall (λ row, length row = T) idx →
  Forall2 (λ e t, length e = T ∧ length t = T) emb tg.
Proof.
  intros He. revert tg. induction He as [|row e idx emb Hre _ IH]; intros tg Ht Hrect.
  - inversion Ht. constructor.
  - inversion Ht as [|? t ? tg' Htr Ht']; subst.
    apply Forall_cons in Hrect as [Hr Hrect].
    constructor; [split; congruence|]. by apply IH.
Qed.

(** C5. Without targets forward never returns a loss.  With targets of
    the input's shape and ids within the vocabulary (and an input the
    embedding stage accepts), forward returns the same logits together
    with the cross entropy of the flattened logits and targets, and this
    loss is the token-level cross entropy, minus the logarithm of the
    probability the softmax of a position's logits gives to its target,
    summed over all (batch x position) entries and divided by their
    number. *)
Theorem forward_loss_contract (erf : R → R) (config : GPTConfig) (θ : params) (self : GPT)
    (idx targets : list (list Z)) :
  (∀ logits loss,
     GPT_forward erf config θ self idx None = Ok (logits, loss) → loss = None) ∧
  (model_shaped config θ self →
   size1 idx ≤ block_size config → rectangular idx → ids_in_vocab config idx →
   Forall2 (λ row trow, length trow = length row) idx targets →
   ids_in_vocab config targets →
   ∃ logits,
     GPT_forward erf config θ self idx None = Ok (logits, None) ∧
     GPT_forward erf config θ self idx (Some targets)
       = Ok (logits, Some (mean_token_cross_entropy logits targets)) ∧
     cross_entropy (mjoin logits) (mjoin targets)
       = Ok (mean_token_cross_entropy logits targets)).
Proof.
  split.
  - intros logits loss. rewrite GPT_forward_unfold.
    destruct (py_assert _); [|done]. cbn.
    destruct (result_mapM (Embedding_forward θ (wpe self)) _); [|done]. cbn.
    destruct (result_mapM _ idx); [|done]. cbn. by intros [= _ <-].
  - intros Hshape HT Hrect Hids Htshape Htids.
    destruct (pos_emb_ok config θ self (size1 idx) Hshape HT) as (pos_emb & Hpos & Hplen).
    destruct (tok_emb_ok config θ self idx Hshape Hids) as (tok_emb & Htok & Htlen).
    set (logits := map (logits_seq erf config θ self pos_emb) tok_emb).
    assert (Hrows : Forall2 (λ lrow trow, length lrow = size1 idx ∧ length trow = size1 idx)
                      logits targets).
    { unfold logits. apply Forall2_fmap_l.
      assert (Hemb : Forall2 (λ emb trow, length emb = size1 idx ∧ length trow = size1 idx)
                       tok_emb targets).
        by (eapply Forall2_rows_shape; eauto).
      eapply Forall2_impl; [exact Hemb|]. intros emb trow [He Ht]. cbn.
      rewrite length_logits_seq. split; [lia|done]. }
    assert (Hlrect : Forall (λ lrow, length lrow = size1 idx) logits).
    { clear -Hrows. induction Hrows as [|???? [? ?]]; constructor; done. }
    assert (Hce : cross_entropy (mjoin logits) (mjoin targets)
                  = Ok (mean_token_cross_entropy logits targets)).
    { assert (Hrange : Forall2 (λ x t, (0 ≤ t < Z.of_nat (length x))%Z)
                         (mjoin logits) (mjoin targets)).
      2:{ rewrite cross_entropy_in_range, zip_with_nll_cross_entropy by exact Hrange.
          unfold mean_token_cross_entropy. rewrite Rsum_zip_with_mjoin.
          + rewrite (length_mjoin_rect _ _ Hlrect), (length_mul_size1 _ _ Hlrect). done.
          + eapply Forall2_impl; [exact Hrows|]. intros ?? [? ?]. cbn. congruence. }
      { apply Forall2_mjoin.
        assert (Hv : Forall (Forall (λ v : vec, length v = vocab_size config)) logits).
        { unfold logits. apply Forall_fmap, Forall_forall. intros emb _. cbn.
          by apply logits_seq_vocab. }
        clear -Hrows Hv Htids. unfold ids_in_vocab in Htids.
        induction Hrows as [|lrow trow ls ts [Hl Ht] _ IH]; [constructor|].
        apply Forall_cons in Hv as [Hv Hvs]. apply Forall_cons in Htids as [Hti Htis].
        constructor; [|by apply IH].
        apply (Forall2_in_range (vocab_size config)); [done|done|congruence]. } }
    exists logits. split; [|split; [|exact Hce]].
    + rewrite GPT_forward_unfold, bool_decide_eq_true_2 by done. cbn.
      rewrite Hpos. cbn. rewrite Htok. done.
    + rewrite GPT_forward_unfold, bool_decide_eq_true_2 by done. cbn.
      rewrite Hpos. cbn. rewrite Htok. cbn. fold logits. rewrite Hce. done.
Qed.

Lemma forward_loss_contract_example :
  let config := mkGPTConfig 2 2 1 1 1 1 in
  let θ := mkParams (λ _, [[1%R]; [1%R]]) (λ _, [1%R]) in
  ∃ logits,
    GPT_forward (λ _, 0%R) config θ (gpt_at 0 1) [[0; 1]%Z] None = Ok (logits, None) ∧
    GPT_forward (λ _, 0%R) config θ (gpt_at 0 1) [[0; 1]%Z] (Some [[1; 0]%Z])
      = Ok (logits, Some (mean_token_cross_entropy logits [[1; 0]%Z])).
Proof.
  intros config θ.
  destruct (forward_loss_contract (λ _, 0%R) config θ (gpt_at 0 1) [[0; 1]%Z] [[1; 0]%Z])
    as [_ Hloss].
  destruct Hloss as (logits & Hnone & Hsome & _).
  - repeat split; reflexivity.
  - cbn. lia.
  - repeat constructor.
  - repeat constructor; cbn; lia.
  - repeat constructor.
  - repeat constructor; cbn; lia.
  - exists logits. split; [exact Hnone|exact Hsome].
Defined.

(** ** Generation *)

Lemma py_last_columns_size1 {A} (n : nat) (x : list (list A)) :
  1 ≤ n → size1 (py_last_columns n x) ≤ n.
Proof.
  intros Hn. unfold size1, py_last_columns. destruct x as [|row x]; cbn; [lia|].
  rewrite bool_decide_eq_false_2 by lia. rewrite length_drop. lia.
Qed.

Lemma py_last_columns_ids config (n : nat) (x : list (list Z)) :
  ids_in_vocab config x → ids_in_vocab config (py_last_columns n x).
Proof.
  unfold ids_in_vocab, py_last_columns. intros H.
  apply Forall_fmap. eapply Forall_impl; [exact H|]. intros row Hrow. cbn.
  case_bool_decide; [done|]. by apply Forall_drop.
Qed.

(** Forward succeeds on an input the embedding stage accepts. *)
Lemma GPT_forward_ok erf config θ self (idx : list (list Z)) :
  model_shaped config θ self → size1 idx ≤ block_size config → ids_in_vocab config idx →
  ∃ logits, GPT_forward erf config θ self idx None = Ok (logits, None).
Proof.
  intros Hshape HT Hids.
  destruct (pos_emb_ok config θ self (size1 idx) Hshape HT) as (pos_emb & Hpos & _).
  destruct (tok_emb_ok config θ self idx Hshape Hids) as (tok_emb & Htok & _).
  eexists. rewrite GPT_forward_unfold, bool_decide_eq_true_2 by done. cbn.
  rewrite Hpos. cbn. rewrite Htok. reflexivity.
Qed.

(** C9. With [max_len >= 1], [generate] never returns: its first
    iteration raises.  Whenever the forward call of that iteration
    succeeds (ids within the vocabulary, a positive context length), the
    exception is the TypeError of subscripting the (logits, loss) tuple. *)
Theorem generate_type_error (erf : R → R) (config : GPTConfig) (θ : params) (self : GPT)
    (x : list (list Z)) (max_len : nat) :
  1 ≤ max_len →
  (∃ e, generate erf config θ self x max_len = Err e) ∧
  (∀ out,
     GPT_forward erf config θ self (py_last_columns (block_size config) x) None = Ok out →
     generate erf config θ self x max_len = Err TypeError) ∧
  (model_shaped config θ self → 1 ≤ block_size config → ids_in_vocab config x →
   generate erf config θ self x max_len = Err TypeError).
Proof.
  intros Hlen. destruct max_len as [|max_len]; [lia|].
  assert (Hstep : ∀ out,
     GPT_forward erf config θ self (py_last_columns (block_size config) x) None = Ok out →
     generate erf config θ self x (S max_len) = Err TypeError).
  { intros out Hout. cbn [generate]. rewrite Hout. done. }
  split; [|split; [exact Hstep|]].
  - destruct (GPT_forward erf config θ self (py_last_columns (block_size config) x) None)
      as [out|e] eqn:Hout.
    + exists TypeError. by apply (Hstep out).
    + exists e. cbn [generate]. rewrite Hout. done.
  - intros Hshape Hbs Hids.
    destruct (GPT_forward_ok erf config θ self (py_last_columns (block_size config) x))
      as [logits Hout]; [done|by apply py_last_columns_size1|by apply py_last_columns_ids|].
    by apply (Hstep (logits, None)).
Qed.

Lemma generate_type_error_example :
  let config := mkGPTConfig 2 2 1 1 1 1 in
  let θ := mkParams (λ _, [[1%R]; [1%R]]) (λ _, [1%R]) in
  generate (λ _, 0%R) config θ (gpt_at 0 1) [[0; 1; 1]%Z] 100 = Err TypeError.
Proof.
  intros config θ.
  apply (generate_type_error (λ _, 0%R) config θ (gpt_at 0 1) [[0; 1; 1]%Z] 100).
  - lia.
  - repeat split; reflexivity.
  - cbn. lia.
  - repeat constructor; cbn; lia.
Defined.

(** ** Causal masking *)

Section AttentionFacts.
Local Open Scope R_scope.

Lemma Rsum_cons (x : R) (l : list R) : Rsum (x :: l) = x + Rsum l.
Proof. reflexivity. Qed.

Lemma Rsum_zeros (l : list R) : Forall (λ e, e = 0) l → Rsum l = 0.
Proof. induction 1 as [|x l -> _ IH]; [done|]. rewrite Rsum_cons, IH. lra. Qed.

Lemma Rsum_zip_with_zeros (l k : list R) :
  Forall (λ e, e = 0) l → Rsum (zip_with Rmult l k) = 0.
Proof.
  intros H. revert k. induction H as [|x l -> _ IH]; intros [|y k]; try done.
  cbn [zip_with]. rewrite Rsum_cons, IH. lra.
Qed.

(** Beyond position [t] every exponentiated score is 0. *)
Lemma masked_exp_split (scale : R) (K : list vec) (t : nat) (qt : vec) :
  let f := λ j kj, causal_bias t j (dot qt kj * scale) in
  ∃ tail,
    map exp_ext (imap f K) = map exp_ext (imap f (take (S t) K)) ++ tail ∧
    Forall (λ e, e = 0) tail.
Proof.
  intros f.
  exists (map exp_ext (imap (λ n, f (length (take (S t) K) + n)%nat) (drop (S t) K))).
  split.
  - rewrite <- (take_drop (S t) K) at 1. by rewrite imap_app, map_app.
  - apply Forall_lookup. intros i e He.
    rewrite list_lookup_fmap, list_lookup_imap in He.
    destruct (drop (S t) K !! i) as [kj|] eqn:Hd; [|done].
    cbn in He. injection He as <-.
    assert (S t + i < length K)%nat.
    { apply lookup_lt_Some in Hd. rewrite length_drop in Hd. lia. }
    unfold f, causal_bias. rewrite length_take, bool_decide_eq_false_2 by lia. done.
Qed.

Lemma attn_weight_split (scale : R) (K : list vec) (t : nat) (qt : vec) :
  ∃ tail,
    attn_weight scale K t qt = attn_weight scale (take (S t) K) t qt ++ tail ∧
    Forall (λ e, e = 0) tail.
Proof.
  destruct (masked_exp_split scale K t qt) as (tail & Hsplit & Hz).
  cbn zeta in Hsplit. unfold attn_weight, softmax_ext.
  rewrite Hsplit, Rsum_app, (Rsum_zeros tail Hz), Rplus_0_r, map_app.
  eexists. split; [reflexivity|].
  apply Forall_fmap. eapply Forall_impl; [exact Hz|].
  intros e ->. cbn. unfold Rdiv. apply Rmult_0_l.
Qed.

(** A row of the attention output reads keys and values up to its own
    position only. *)
Lemma row_matmul_prefix (E : nat) (scale : R) (K V : list vec) (t : nat) (qt : vec) :
  row_matmul E (attn_weight scale K t qt) V
  = row_matmul E (attn_weight scale (take (S t) K) t qt) (take (S t) V).
Proof.
  destruct (attn_weight_split scale K t qt) as (tail & -> & Hz).
  unfold row_matmul. apply list_fmap_ext. intros _ c _.
  set (W1 := attn_weight scale (take (S t) K) t qt).
  assert (HW1 : (length W1 ≤ S t)%nat).
  { unfold W1, attn_weight, softmax_ext.
    rewrite !length_fmap, length_imap, length_take. lia. }
  rewrite zip_with_app_l, Rsum_app, (Rsum_zip_with_zeros _ _ Hz), Rplus_0_r.
  rewrite fmap_take.
  rewrite !zip_with_take_r' by lia. done.
Qed.

Lemma sdpa_lookup (E : nat) (Q K V : list vec) (t : nat) :
  scaled_dot_product_attention E Q K V !! t
  = (λ qt, row_matmul E (attn_weight (1 / sqrt (INR E)) (take (S t) K) t qt) (take (S t) V))
      <$> Q !! t.
Proof.
  unfold scaled_dot_product_attention. rewrite list_lookup_imap.
  destruct (Q !! t) as [qt|]; [|done]. cbn. by rewrite row_matmul_prefix.
Qed.

Lemma take_take_S {A} (l : list A) (t n : nat) :
  (t < n)%nat → take (S t) l = take (S t) (take n l).
Proof. intros Ht. rewrite take_take. f_equal. lia. Qed.

Lemma sdpa_causal (E : nat) (Q K V Q' K' V' : list vec) (n : nat) :
  take n Q = take n Q' → take n K = take n K' → take n V = take n V' →
  take n (scaled_dot_product_attention E Q K V)
  = take n (scaled_dot_product_attention E Q' K' V').
Proof.
  intros HQ HK HV. apply list_eq. intros t. rewrite !lookup_take.
  case_decide as Ht; [|done].
  rewrite !sdpa_lookup.
  rewrite <- (lookup_take_lt Q n t), <- (lookup_take_lt Q' n t), HQ by done.
  rewrite (take_take_S K t n), (take_take_S V t n), HK, HV by done.
  rewrite <- !take_take_S by done. done.
Qed.

End AttentionFacts.

Lemma causal_map {A B} (f : A → B) : causal (map f).
Proof. intros n xs ys H. change map with (@fmap list _) . by rewrite <- !fmap_take, H. Qed.

Lemma causal_compose {A B C} (F : list A → list B) (G : list B → list C) :
  causal F → causal G → causal (λ xs, G (F xs)).
Proof. intros HF HG n xs ys H. by apply HG, HF. Qed.

Lemma causal_tadd {A} (F G : list A → list vec) :
  causal F → causal G → causal (λ xs, tadd (F xs) (G xs)).
Proof.
  intros HF HG n xs ys H. unfold tadd.
  by rewrite !zip_with_take, (HF n xs ys H), (HG n xs ys H).
Qed.

Lemma causal_id {A} : causal (λ xs : list A, xs).
Proof. by intros n xs ys H. Qed.

Lemma SelfAttention_forward_seq_causal config θ a :
  causal (SelfAttention_forward_seq config θ a).
Proof.
  intros n x x' Hx. unfold SelfAttention_forward_seq. cbn zeta.
  set (hs := n_embd config / n_head config).
  set (qkv := λ x, map (Linear_forward θ (attn_c_attn a)) x).
  set (Y := λ x i,
         scaled_dot_product_attention hs
           (map (λ r, py_slice r (i * hs) ((i + 1) * hs))
                (map (λ r, py_slice r 0 (n_embd config)) (qkv x)))
           (map (λ r, py_slice r (i * hs) ((i + 1) * hs))
                (map (λ r, py_slice r (n_embd config) (2 * n_embd config)) (qkv x)))
           (map (λ r, py_slice r (i * hs) ((i + 1) * hs))
                (map (λ r, py_slice r (2 * n_embd config) (3 * n_embd config)) (qkv x)))).
  assert (HY : ∀ i, take n (Y x i) = take n (Y x' i)).
  { intros i. unfold Y, qkv. apply sdpa_causal;
      change map with (@fmap list _); by rewrite <- !fmap_take, Hx. }
  change (take n (map (Linear_forward θ (attn_c_proj a))
            (imap (λ t _, mjoin (map (λ yi, nth t yi []) (map (Y x) (seq 0 (n_head config))))) x))
          = take n (map (Linear_forward θ (attn_c_proj a))
            (imap (λ t _, mjoin (map (λ yi, nth t yi []) (map (Y x') (seq 0 (n_head config))))) x'))).
  apply causal_map. apply list_eq. intros t. rewrite !lookup_take.
  case_decide as Ht; [|done].
  rewrite !list_lookup_imap.
  rewrite <- (lookup_take_lt x n t), <- (lookup_take_lt x' n t), Hx by done.
  destruct (take n x' !! t) as [xt|]; [|done]. cbn. do 2 f_equal.
  rewrite <- !list_fmap_compose. apply list_fmap_ext. intros _ i _. cbn.
  rewrite !nth_lookup.
  by rewrite <- (lookup_take_lt (Y x i) n t), <- (lookup_take_lt (Y x' i) n t), HY.
Qed.

Lemma Block_forward_seq_causal erf config θ b :
  causal (Block_forward_seq erf config θ b).
Proof.
  unfold Block_forward_seq. cbn zeta.
  set (F1 := λ x : list vec,
         tadd x (SelfAttention_forward_seq config θ (attn b)
                   (map (LayerNorm_forward θ (ln_1 b)) x))).
  assert (H1 : causal F1).
  { apply (causal_tadd (λ x, x)); [apply causal_id|].
    apply (causal_compose (map _) (SelfAttention_forward_seq config θ (attn b)));
      [apply causal_map|apply SelfAttention_forward_seq_causal]. }
  apply (causal_tadd F1 (λ x, map _ (map _ (F1 x)))); [done|].
  apply (causal_compose F1 (λ y, map _ (map _ y))); [done|].
  apply (causal_compose (map _) (map _)); apply causal_map.
Qed.

Lemma blocks_forward_seq_causal erf config θ (bs : list Block) :
  causal (λ x, foldl (λ x b, Block_forward_seq erf config θ b x) x bs).
Proof.
  induction bs as [|b bs IH]; [apply causal_id|].
  cbn [foldl].
  apply (causal_compose (Block_forward_seq erf config θ b)
           (λ x, foldl (λ x b, Block_forward_seq erf config θ b x) x bs)); [|exact IH].
  apply Block_forward_seq_causal.
Qed.

Lemma logits_seq_causal erf config θ self (pos_emb pos_emb' tok_emb tok_emb' : list vec) n :
  take n pos_emb = take n pos_emb' → take n tok_emb = take n tok_emb' →
  take n (logits_seq erf config θ self pos_emb tok_emb)
  = take n (logits_seq erf config θ self pos_emb' tok_emb').
Proof.
  intros Hp Ht. unfold logits_seq.
  apply causal_map, causal_map, blocks_forward_seq_causal.
  unfold tadd. by rewrite !zip_with_take, Hp, Ht.
Qed.

Lemma result_mapM_take {A B} (f : A → result B) (l l' : list A) (bs bs' : list B) n :
  result_mapM f l = Ok bs → result_mapM f l' = Ok bs' →
  take n l = take n l' → take n bs = take n bs'.
Proof.
  intros H H' Hl.
  apply result_mapM_Forall2, (Forall2_take _ _ _ n) in H.
  apply result_mapM_Forall2, (Forall2_take _ _ _ n) in H'.
  rewrite Hl in H. clear Hl.
  revert H'. generalize (take n bs'). induction H as [|a b as' bs'' Hab _ IH]; intros k H'.
  - by inversion H'.
  - inversion H' as [|? b' ? k' Hab' Hrest]; subst. f_equal; [congruence|by apply IH].
Qed.

Lemma result_mapM_rows_take {A B} (f : A → result B) (idx idx' : list (list A))
    (E E' : list (list B)) n :
  result_mapM (result_mapM f) idx = Ok E →
  result_mapM (result_mapM f) idx' = Ok E' →
  Forall2 (λ r r', take n r = take n r') idx idx' →
  Forall2 (λ e e', take n e = take n e') E E'.
Proof.
  intros H H' Hrows. apply result_mapM_Forall2 in H. apply result_mapM_Forall2 in H'.
  revert E E' H H'. induction Hrows as [|r r' idx idx' Hr _ IH]; intros E E' H H'.
  - inversion H. inversion H'. constructor.
  - inversion H as [|? e ? Es He HEs]; inversion H' as [|? e' ? Es' He' HEs']; subst.
    constructor; [|by apply IH]. by eapply result_mapM_take.
Qed.

Lemma pos_prefix (t : nat) (r r' : list Z) :
  take (S t) r = take (S t) r' →
  take (S t) (map Z.of_nat (seq 0 (length r))) = take (S t) (map Z.of_nat (seq 0 (length r'))).
Proof.
  intros H. apply (f_equal length) in H. rewrite !length_take in H.
  change map with (@fmap list _). rewrite <- !fmap_take, !take_seq. by rewrite H.
Qed.

(** C2. Two inputs that agree, row by row, on the token ids at
    positions [0..t] get the same logits at positions [0..t], whatever
    the ids at later positions (and whatever the targets) are. *)
Theorem causal_masking (erf : R → R) (config : GPTConfig) (θ : params) (self : GPT)
    (idx idx' : list (list Z)) (targets targets' : option (list (list Z)))
    (logits logits' : list (list vec)) (loss loss' : option R) (t : nat) :
  GPT_forward erf config θ self idx targets = Ok (logits, loss) →
  GPT_forward erf config θ self idx' targets' = Ok (logits', loss') →
  Forall2 (λ row row', take (S t) row = take (S t) row') idx idx' →
  Forall2 (λ y y', take (S t) y = take (S t) y') logits logits' ∧
  (∀ b y y', logits !! b = Some y → logits' !! b = Some y' → y !! t = y' !! t).
Proof.
  intros H H' Hrows.
  assert (Hpre : Forall2 (λ y y', take (S t) y = take (S t) y') logits logits').
  { rewrite GPT_forward_unfold in H, H'.
    destruct (py_assert _); [|done]. cbn in H.
    destruct (py_assert _); [|done]. cbn in H'.
    destruct (result_mapM (Embedding_forward θ (wpe self)) (map Z.of_nat (seq 0 (size1 idx))))
      as [pos_emb|] eqn:Hpos; [|done]. cbn in H.
    destruct (result_mapM (Embedding_forward θ (wpe self)) (map Z.of_nat (seq 0 (size1 idx'))))
      as [pos_emb'|] eqn:Hpos'; [|done]. cbn in H'.
    destruct (result_mapM _ idx) as [tok_emb|] eqn:Htok; [|done]. cbn in H.
    destruct (result_mapM _ idx') as [tok_emb'|] eqn:Htok'; [|done]. cbn in H'.
    assert (Hl : logits = map (logits_seq erf config θ self pos_emb) tok_emb).
    { destruct targets; [destruct (cross_entropy _ _); [|done]|]; cbn in H; congruence. }
    assert (Hl' : logits' = map (logits_seq erf config θ self pos_emb') tok_emb').
    { destruct targets'; [destruct (cross_entropy _ _); [|done]|]; cbn in H'; congruence. }
    subst logits logits'. clear H H'.
    pose proof (result_mapM_rows_take _ _ _ _ _ _ Htok Htok' Hrows) as Htoks.
    apply Forall2_fmap. eapply Forall2_impl; [exact Htoks|].
    intros e e' He. cbn. apply logits_seq_causal; [|done].
    destruct Hrows as [|r r' idx idx' Hr _].
    - f_equal. congruence.
    - eapply result_mapM_take; [exact Hpos|exact Hpos'|].
      unfold size1. cbn [hd]. by apply pos_prefix. }
  split; [exact Hpre|].
  intros b y y' Hy Hy'.
  pose proof (Forall2_lookup_lr _ _ _ _ _ _ Hpre Hy Hy') as Hyy. cbn in Hyy.
  by rewrite <- (lookup_take_lt y (S t) t), <- (lookup_take_lt y' (S t) t), Hyy by lia.
Qed.

(** Two one-row inputs that differ at position 1 only: the logits at
    position 0 coincide. *)
Lemma causal_masking_example :
  let config := mkGPTConfig 2 2 1 1 1 1 in
  let θ := mkParams (λ _, [[1%R]; [1%R]]) (λ _, [1%R]) in
  ∃ logits logits',
    GPT_forward (λ _, 0%R) config θ (gpt_at 0 1) [[0; 1]%Z] None = Ok (logits, None) ∧
    GPT_forward (λ _, 0%R) config θ (gpt_at 0 1) [[0; 0]%Z] None = Ok (logits', None) ∧
    ∀ b y y', logits !! b = Some y → logits' !! b = Some y' → y !! 0 = y' !! 0.
Proof.
  intros config θ.
  assert (Hshape : model_shaped config θ (gpt_at 0 1)) by (repeat split; reflexivity).
  destruct (GPT_forward_ok (λ _, 0%R) config θ (gpt_at 0 1) [[0; 1]%Z] Hshape)
    as [logits H]; [cbn; lia|repeat constructor; cbn; lia|].
  destruct (GPT_forward_ok (λ _, 0%R) config θ (gpt_at 0 1) [[0; 0]%Z] Hshape)
    as [logits' H']; [cbn; lia|repeat constructor; cbn; lia|].
  exists logits, logits'. split; [exact H|]. split; [exact H'|].
  apply (causal_masking (λ _, 0%R) config θ (gpt_at 0 1) [[0; 1]%Z] [[0; 0]%Z]
           None None logits logits' None None 0 H H').
  repeat constructor.
Defined.

(* ================================================================= *)
(** * Further properties of the code *)

(** ** Learning-rate schedule *)

Section SchedulerMore.
Local Open Scope R_scope.

Lemma decay_ratio_bounds (ws ms it : Z) :
  (ws <= it <= ms)%Z → (ws < ms)%Z →
  0 <= IZR (it - ws) / IZR (ms - ws) <= 1.
Proof.
  intros [Hlo Hhi] Hlt.
  assert (Hpos : 0 < IZR (ms - ws)) by (apply IZR_lt; lia).
  assert (Hnum0 : 0 <= IZR (it - ws)) by (apply IZR_le; lia).
  assert (Hnum1 : IZR (it - ws) <= IZR (ms - ws)) by (apply IZR_le; lia).
  split.
  - apply Rmult_le_pos; [assumption|]. left. now apply Rinv_0_lt_compat.
  - apply Rmult_le_reg_r with (r := IZR (ms - ws)); [assumption|].
    unfold Rdiv. rewrite Rmult_assoc, Rinv_l by lra. lra.
Qed.

Lemma decay_ratio_mono (ws ms a b : Z) :
  (ws < ms)%Z → (a <= b)%Z →
  IZR (a - ws) / IZR (ms - ws) <= IZR (b - ws) / IZR (ms - ws).
Proof.
  intros Hlt Hab.
  assert (Hpos : 0 < IZR (ms - ws)) by (apply IZR_lt; lia).
  apply Rmult_le_compat_r; [left; now apply Rinv_0_lt_compat|].
  apply IZR_le. lia.
Qed.

Lemma decay_ratio_lt_1 (ws ms it : Z) :
  (ws < ms)%Z → (it < ms)%Z → IZR (it - ws) / IZR (ms - ws) < 1.
Proof.
  intros Hlt Hit.
  assert (Hpos : 0 < IZR (ms - ws)) by (apply IZR_lt; lia).
  apply Rmult_lt_reg_r with (r := IZR (ms - ws)); [assumption|].
  unfold Rdiv. rewrite Rmult_assoc, Rinv_l by lra.
  rewrite Rmult_1_r, Rmult_1_l. apply IZR_lt. lia.
Qed.

End SchedulerMore.

Lemma float_overflow_bound_gt_1 : (1 < IZR float_overflow_bound)%R.
Proof. apply IZR_lt. reflexivity. Qed.

(** X1. The exceptions of [get_lr], with the conversions of integers
    to floats taken into account.  The assertion can never fail, for any
    constants and any step.  OverflowError is raised exactly in the
    warmup branch when [it + 1] or [warmup_steps] is too large to
    convert to a float; ZeroDivisionError exactly in the warmup branch
    with [warmup_steps = 0] (and [it + 1] convertible), or when
    [it = warmup_steps = max_steps]; there is no other exception, and a
    value that is returned is the one [get_lr] gives. *)
Theorem get_lr_errors (max_lr min_lr : R) (warmup_steps max_steps it : Z) :
  (∀ e, get_lr_checked max_lr min_lr warmup_steps max_steps it = Err e →
        e = OverflowError ∨ e = ZeroDivisionError) ∧
  (get_lr_checked max_lr min_lr warmup_steps max_steps it = Err OverflowError ↔
   (it < warmup_steps ∧
    (float_overflow_bound ≤ Z.abs (it + 1) ∨ float_overflow_bound ≤ Z.abs warmup_steps))%Z) ∧
  (get_lr_checked max_lr min_lr warmup_steps max_steps it = Err ZeroDivisionError ↔
   (it < warmup_steps ∧ Z.abs (it + 1) < float_overflow_bound ∧ warmup_steps = 0)%Z
   ∨ (it = warmup_steps ∧ warmup_steps = max_steps)%Z) ∧
  (∀ v, get_lr_checked max_lr min_lr warmup_steps max_steps it = Ok v →
        get_lr max_lr min_lr warmup_steps max_steps it = Ok v).
Proof.
  assert (Hb : (1 < float_overflow_bound)%Z) by reflexivity.
  unfold get_lr_checked, get_lr, py_mul_float_int, py_div_float_int, py_float_of_int,
    py_truediv_int, py_div_int.
  destruct (Z.ltb_spec it warmup_steps) as [Hw|Hw].
  { destruct (decide (Z.abs (it + 1) < float_overflow_bound)%Z) as [H1|H1].
    2:{ rewrite (bool_decide_eq_false_2 _ H1). cbn [mbind result_bind].
        split; [intros e [= <-]; by left|]. split; [split; [intros _|done]; lia|].
        split; [|done]. split; [done|]. intros [(_ & ? & _)|[? _]]; lia. }
    rewrite (bool_decide_eq_true_2 _ H1). cbn [mbind result_bind].
    destruct (decide (Z.abs warmup_steps < float_overflow_bound)%Z) as [H2|H2].
    2:{ rewrite (bool_decide_eq_false_2 _ H2). cbn [mbind result_bind].
        split; [intros e [= <-]; by left|]. split; [split; [intros _|done]; lia|].
        split; [|done]. split; [done|]. intros [(_ & _ & ?)|[? _]]; lia. }
    rewrite (bool_decide_eq_true_2 _ H2). cbn [mbind result_bind].
    destruct (Z.eqb_spec warmup_steps 0) as [H0|H0].
    - split; [intros e [= <-]; by right|]. split; [split; [done|lia]|].
      split; [|done]. split; [intros _; left; lia|done].
    - split; [done|]. split; [split; [done|lia]|].
      split; [|done]. split; [done|]. intros [(_ & _ & ?)|[? _]]; lia. }
  rewrite Z.gtb_ltb. destruct (Z.ltb_spec max_steps it) as [Hp|Hp].
  { split; [done|]. split; [split; [done|lia]|].
    split; [|done]. split; [done|]. intros [(? & _)|[? ?]]; lia. }
  destruct (Z.eqb_spec (max_steps - warmup_steps) 0) as [H0|H0].
  { split; [intros e [= <-]; by right|]. split; [split; [done|lia]|].
    split; [|done]. split; [intros _; right; lia|done]. }
  pose proof (decay_ratio_bounds warmup_steps max_steps it ltac:(lia) ltac:(lia)) as Hr.
  rewrite (bool_decide_eq_true_2 (Rabs _ < _)%R).
  2:{ rewrite Rabs_right by lra. pose proof float_overflow_bound_gt_1. lra. }
  cbn [mbind result_bind]. rewrite bool_decide_eq_true_2 by exact Hr. cbn.
  split; [done|]. split; [split; [done|lia]|].
  split; [|done]. split; [done|]. intros [(? & _)|[? ?]]; lia.
Qed.

(** With the constants of the script, a step of magnitude [10^400]
    below zero cannot be converted; with no warmup steps, step -1
    divides by zero. *)
Lemma get_lr_errors_example :
  get_lr_checked main_max_lr main_min_lr main_warmup_steps main_max_steps (- 10 ^ 400)
    = Err OverflowError ∧
  get_lr_checked main_max_lr main_min_lr 0 main_max_steps (-1) = Err ZeroDivisionError ∧
  ∃ v, get_lr_checked main_max_lr main_min_lr main_warmup_steps main_max_steps 50 = Ok v ∧
       main_get_lr 50 = Ok v.
Proof.
  split; [|split].
  - destruct (get_lr_errors main_max_lr main_min_lr main_warmup_steps main_max_steps
                (- 10 ^ 400)) as (_ & Hov & _).
    apply Hov. split; [reflexivity|]. left. apply Z.leb_le. vm_compute. reflexivity.
  - destruct (get_lr_errors main_max_lr main_min_lr 0 main_max_steps (-1)) as (_ & _ & Hz & _).
    apply Hz. left. split; [reflexivity|]. split; [reflexivity|reflexivity].
  - destruct (get_lr_errors main_max_lr main_min_lr main_warmup_steps main_max_steps 50)
      as (Herr & _ & _ & Hok).
    destruct (get_lr_checked main_max_lr main_min_lr main_warmup_steps main_max_steps 50)
      as [v|e] eqn:Hv.
    + exists v. split; [reflexivity|]. by apply Hok.
    + exfalso. destruct (get_lr_errors main_max_lr main_min_lr main_warmup_steps
                           main_max_steps 50) as (_ & Hov & Hz & _).
      rewrite Hv in Hov, Hz.
      destruct (Herr e eq_refl) as [->| ->].
      * destruct Hov as [Hov _]. destruct (Hov eq_refl) as [Hlt _].
        unfold main_warmup_steps in Hlt. lia.
      * destruct Hz as [Hz _].
        destruct (Hz eq_refl) as [(Hlt & _)|[Heq _]]; unfold main_warmup_steps in *; lia.
Defined.

Section SchedulerOrder.
Local Open Scope R_scope.

Lemma decay_angle_bounds (ws ms it : Z) :
  (ws <= it <= ms)%Z → (ws < ms)%Z →
  0 <= PI * (IZR (it - ws) / IZR (ms - ws)) <= PI.
Proof.
  intros Hit Hlt. pose proof (decay_ratio_bounds ws ms it Hit Hlt) as [H0 H1].
  pose proof PI_RGT_0. split; nra.
Qed.

Lemma decay_value_bounds (max_lr min_lr x : R) :
  min_lr <= max_lr →
  min_lr <= min_lr + 0.5 * (1 + cos x) * (max_lr - min_lr) <= max_lr.
Proof. intros H. pose proof (COS_bound x) as [Hlo Hhi]. split; nra. Qed.

End SchedulerOrder.

(** X2. For constants with [0 < warmup_steps < max_steps] and
    [0 <= min_lr <= max_lr], every non-negative step gets a rate between
    0 and [max_lr]; from [warmup_steps] on the rate is at least [min_lr],
    and before [max_steps] it stays strictly above [min_lr] when
    [min_lr < max_lr]. *)
Theorem get_lr_range (max_lr min_lr : R) (warmup_steps max_steps it : Z) :
  (0 < warmup_steps < max_steps)%Z → (0 <= min_lr <= max_lr)%R → (0 ≤ it)%Z →
  ∃ r, get_lr max_lr min_lr warmup_steps max_steps it = Ok r ∧
       (0 <= r <= max_lr)%R ∧
       ((warmup_steps ≤ it)%Z → (min_lr <= r)%R) ∧
       ((warmup_steps ≤ it < max_steps)%Z → (min_lr < max_lr)%R → (min_lr < r)%R).
Proof.
  intros [Hw Hm] [Hmin Hmax] Hit.
  destruct (Z_lt_le_dec it warmup_steps) as [H1|H1].
  - eexists. split; [apply get_lr_warmup; lia|].
    assert (Hws : (0 < IZR warmup_steps)%R) by (apply IZR_lt; lia).
    assert (Hi1 : (0 < IZR (it + 1) <= IZR warmup_steps)%R)
      by (split; [apply IZR_lt|apply IZR_le]; lia).
    split; [|split; [lia|lia]]. split.
    + apply Rmult_le_pos; [nra|]. left. by apply Rinv_0_lt_compat.
    + apply Rmult_le_reg_r with (r := IZR warmup_steps); [done|].
      unfold Rdiv. rewrite Rmult_assoc, Rinv_l by lra. nra.
  - destruct (Z_lt_le_dec max_steps it) as [H2|H2].
    + eexists. split; [apply get_lr_post; lia|]. split; [lra|]. split; [lra|lia].
    + eexists. split; [apply get_lr_decay; lia|].
      pose proof (decay_value_bounds max_lr min_lr
                    (PI * (IZR (it - warmup_steps) / IZR (max_steps - warmup_steps)))
                    ltac:(lra)) as [Hlo Hhi].
      split; [lra|]. split; [done|]. intros [_ Hlt] Hstrict.
      pose proof (decay_angle_bounds warmup_steps max_steps it ltac:(lia) ltac:(lia)) as [Ha0 Ha1].
      pose proof (decay_ratio_lt_1 warmup_steps max_steps it ltac:(lia) Hlt) as Hr1.
      pose proof PI_RGT_0 as Hpi.
      assert (Hcos : (cos PI
                      < cos (PI * (IZR (it - warmup_steps) / IZR (max_steps - warmup_steps))))%R).
      { apply cos_decreasing_1; try lra. nra. }
      rewrite cos_PI in Hcos. nra.
Qed.

Lemma get_lr_range_main :
  ∃ r, main_get_lr 50%Z = Ok r ∧ (0 <= r <= main_max_lr)%R ∧ (main_min_lr < r)%R.
Proof.
  destruct (get_lr_range main_max_lr main_min_lr main_warmup_steps main_max_steps 50%Z)
    as (r & Hr & Hb & _ & Hs).
  - unfold main_warmup_steps, main_max_steps. lia.
  - unfold main_min_lr, main_max_lr. lra.
  - lia.
  - exists r. split; [exact Hr|]. split; [exact Hb|]. apply Hs.
    + unfold main_warmup_steps, main_max_steps. lia.
    + unfold main_min_lr, main_max_lr. lra.
Defined.

(** X3. With [0 < warmup_steps < max_steps], [min_lr <= max_lr] and
    [0 < max_lr]: the rate rises strictly over the warmup steps, the last
    warmup step already has rate [max_lr], and from [warmup_steps] on the
    rate never rises again. *)
Theorem get_lr_monotone (max_lr min_lr : R) (warmup_steps max_steps : Z) :
  (0 < warmup_steps < max_steps)%Z → (min_lr <= max_lr)%R → (0 < max_lr)%R →
  let rate := get_lr max_lr min_lr warmup_steps max_steps in
  (∀ a b, (0 ≤ a < b)%Z → (b < warmup_steps)%Z →
     ∃ ra rb, rate a = Ok ra ∧ rate b = Ok rb ∧ (ra < rb)%R) ∧
  rate (warmup_steps - 1)%Z = Ok max_lr ∧
  (∀ a b, (warmup_steps ≤ a ≤ b)%Z →
     ∃ ra rb, rate a = Ok ra ∧ rate b = Ok rb ∧ (rb <= ra)%R).
Proof.
  intros [Hw Hm] Hmin Hmax rate. subst rate.
  assert (Hws : (0 < IZR warmup_steps)%R) by (apply IZR_lt; lia).
  split; [|split].
  - intros a b Hab Hb. eexists _, _.
    split; [apply get_lr_warmup; lia|]. split; [apply get_lr_warmup; lia|].
    apply Rmult_lt_compat_r; [by apply Rinv_0_lt_compat|].
    apply Rmult_lt_compat_l; [done|]. apply IZR_lt. lia.
  - rewrite get_lr_warmup by lia. f_equal.
    replace (warmup_steps - 1 + 1)%Z with warmup_steps by lia.
    unfold Rdiv. rewrite Rmult_assoc, Rinv_r by lra. lra.
  - intros a b [Ha Hab].
    destruct (Z_lt_le_dec max_steps a) as [Ha2|Ha2].
    { eexists _, _. split; [apply get_lr_post; lia|]. split; [apply get_lr_post; lia|]. lra. }
    destruct (Z_lt_le_dec max_steps b) as [Hb2|Hb2].
    { eexists _, _. split; [apply get_lr_decay; lia|]. split; [apply get_lr_post; lia|].
      apply decay_value_bounds. lra. }
    eexists _, _. split; [apply get_lr_decay; lia|]. split; [apply get_lr_decay; lia|].
    pose proof (decay_angle_bounds warmup_steps max_steps a ltac:(lia) ltac:(lia)) as [Ha0 Ha1].
    pose proof (decay_angle_bounds warmup_steps max_steps b ltac:(lia) ltac:(lia)) as [Hb0 Hb1].
    pose proof (decay_ratio_mono warmup_steps max_steps a b ltac:(lia) Hab) as Hr.
    pose proof PI_RGT_0 as Hpi.
    assert (Hcos : (cos (PI * (IZR (b - warmup_steps) / IZR (max_steps - warmup_steps)))
                    <= cos (PI * (IZR (a - warmup_steps) / IZR (max_steps - warmup_steps))))%R).
    { apply cos_decr_1; try lra. nra. }
    nra.
Qed.

Lemma get_lr_monotone_main :
  main_get_lr 9%Z = Ok main_max_lr ∧
  ∃ ra rb, main_get_lr 20%Z = Ok ra ∧ main_get_lr 30%Z = Ok rb ∧ (rb <= ra)%R.
Proof.
  destruct (get_lr_monotone main_max_lr main_min_lr main_warmup_steps main_max_steps)
    as (_ & Hlast & Hdecay).
  - unfold main_warmup_steps, main_max_steps. lia.
  - unfold main_min_lr, main_max_lr. lra.
  - unfold main_max_lr. lra.
  - split; [exact Hlast|]. apply Hdecay. unfold main_warmup_steps. lia.
Defined.

(** ** Batch sampler *)

Lemma length_removelast' {A} (l : list A) : length (removelast l) = pred (length l).
Proof.
  induction l as [|x [|y l] IH]; [done|done|].
  change (removelast (x :: y :: l)) with (x :: removelast (y :: l)).
  cbn [length] in *. by rewrite IH.
Qed.

Lemma next_batch_short (self : DataLoaderLite) :
  1 ≤ dl_B self * dl_T self →
  length (dl_tokens self) < dl_current self + dl_B self * dl_T self + 1 →
  next_batch self = Err RuntimeError.
Proof.
  intros HW Hshort. unfold next_batch, view2, py_drop_last, py_slice.
  rewrite (bool_decide_eq_false_2 (length (removelast _) = _))
    by (rewrite length_removelast', length_take, length_drop; lia).
  reflexivity.
Qed.

(** X4. With [B*T >= 1], [next_batch] raises exactly when fewer than
    [B*T + 1] tokens remain at the cursor, and the exception is the
    RuntimeError of [view]; a call that succeeds keeps [B], [T] and the
    tokens, and leaves a cursor at which the next call succeeds too. *)
Theorem next_batch_raises_iff (self : DataLoaderLite) :
  1 ≤ dl_B self * dl_T self →
  (next_batch self = Err RuntimeError ↔
   length (dl_tokens self) < dl_current self + dl_B self * dl_T self + 1) ∧
  (∀ e, next_batch self = Err e → e = RuntimeError) ∧
  (∀ b self', next_batch self = Ok (b, self') →
     dl_B self' = dl_B self ∧ dl_T self' = dl_T self ∧ dl_tokens self' = dl_tokens self ∧
     ∃ r, next_batch self' = Ok r).
Proof.
  intros HW.
  destruct (decide (dl_current self + dl_B self * dl_T self + 1 ≤ length (dl_tokens self)))
    as [Hfit|Hshort].
  - pose proof (next_batch_fits self Hfit) as Hok. cbn zeta in Hok.
    split; [split; [by rewrite Hok|lia]|]. split; [by rewrite Hok|].
    intros b self' Hb. rewrite Hok in Hb. injection Hb as <- <-. cbn.
    repeat split. eexists. apply next_batch_fits. cbn.
    case_bool_decide; lia.
  - pose proof (next_batch_short self HW ltac:(lia)) as Herr.
    split; [split; [lia|done]|]. split; [by rewrite Herr; intros e [= <-]|].
    intros b self' Hb. by rewrite Herr in Hb.
Qed.

Lemma next_batch_raises_iff_example :
  next_batch (mkDataLoaderLite 1 4 [0; 1; 2; 3; 4; 5]%Z 2) = Err RuntimeError ∧
  ∃ r, next_batch (mkDataLoaderLite 1 4 [0; 1; 2; 3; 4; 5]%Z 0) = Ok r ∧
       ∃ r', next_batch r.2 = Ok r'.
Proof.
  split.
  - apply (next_batch_raises_iff (mkDataLoaderLite 1 4 [0; 1; 2; 3; 4; 5]%Z 2)); cbn; lia.
  - destruct (next_batch_raises_iff (mkDataLoaderLite 1 4 [0; 1; 2; 3; 4; 5]%Z 0))
      as (_ & _ & Hnext); [cbn; lia|].
    eexists. split; [vm_compute; reflexivity|].
    eapply Hnext. vm_compute. reflexivity.
Defined.

Lemma next_batch_window (B T : nat) (tokens : list Z) (c : nat) :
  c + B * T + 1 ≤ length tokens →
  next_batch (mkDataLoaderLite B T tokens c)
  = Ok (window_at B T tokens c,
        mkDataLoaderLite B T tokens
          (if bool_decide (length tokens ≤ c + B * T + B * T + 1) then 0 else c + B * T)).
Proof. intros H. by rewrite (next_batch_fits (mkDataLoaderLite B T tokens c)). Qed.

Lemma window_at_shape (B T : nat) (tokens : list Z) (c : nat) :
  c + B * T + 1 ≤ length tokens →
  batch_shape B T (window_at B T tokens c) ∧
  mjoin (window_at B T tokens c).1 = py_slice tokens c (c + B * T) ∧
  mjoin (window_at B T tokens c).2 = py_slice tokens (c + 1) (c + 1 + B * T).
Proof.
  intros H. unfold window_at. cbn [fst snd].
  assert (Hlen1 : length (py_slice tokens c (c + B * T)) = B * T)
    by (rewrite length_py_slice; lia).
  assert (Hlen2 : length (py_slice tokens (c + 1) (c + 1 + B * T)) = B * T)
    by (rewrite length_py_slice; lia).
  destruct (reshape_replicate_rows B T _ Hlen1), (reshape_replicate_rows B T _ Hlen2).
  split; [by repeat split|]. by rewrite !mjoin_reshape_replicate.
Qed.

(** Any run from a cursor whose window fits returns windows of the
    token sequence, each at a cursor whose window fits. *)
Lemma next_batches_windows (B T : nat) (tokens : list Z) (k c : nat) :
  c + B * T + 1 ≤ length tokens →
  ∃ cs c',
    next_batches k (mkDataLoaderLite B T tokens c)
      = Ok (map (window_at B T tokens) cs, mkDataLoaderLite B T tokens c') ∧
    length cs = k ∧
    Forall (λ c, c + B * T + 1 ≤ length tokens) cs ∧
    c' + B * T + 1 ≤ length tokens.
Proof.
  revert c. induction k as [|k IH]; intros c H.
  - exists [], c. repeat split; [constructor|done].
  - set (c1 := if bool_decide (length tokens ≤ c + B * T + B * T + 1) then 0 else c + B * T).
    destruct (IH c1) as (cs & c' & Hrun & Hlen & Hfit & Hinv).
    { unfold c1. case_bool_decide; lia. }
    exists (c :: cs), c'. split; [|split; [cbn; lia|split; [by constructor|done]]].
    cbn [next_batches]. rewrite next_batch_window by done. cbn. fold c1.
    rewrite Hrun. done.
Qed.

Lemma inputs_of_windows (B T : nat) (tokens : list Z) (cs : list nat) :
  Forall (λ c, c + B * T + 1 ≤ length tokens) cs →
  length (inputs_of (map (window_at B T tokens) cs)) = length cs * (B * T) ∧
  length (targets_of (map (window_at B T tokens) cs)) = length cs * (B * T).
Proof.
  induction 1 as [|c cs Hc _ [IH1 IH2]]; [done|].
  destruct (window_at_shape B T tokens c Hc) as (_ & Hx & Hy).
  cbn [map]. rewrite inputs_of_cons, targets_of_cons, !length_app, Hx, Hy, IH1, IH2.
  rewrite !length_py_slice by lia. cbn [length]. lia.
Qed.

(** X5. From a fresh loader over at least [B*T + 1] tokens, any number
    [k] of calls succeeds and returns [k] batches; each has [B] rows of
    [T] inputs and targets, its targets are its inputs shifted by one
    token (the targets without their last token are the inputs without
    their first), and together the batches carry [k * B * T] input tokens. *)
Theorem next_batches_shifted (B T : nat) (tokens : list Z) (k : nat) :
  B * T + 1 ≤ length tokens →
  ∃ bs self',
    next_batches k (DataLoaderLite_init B T tokens) = Ok (bs, self') ∧
    length bs = k ∧
    Forall (λ b, batch_shape B T b ∧
                 py_drop_last (mjoin b.2) = py_drop_first (mjoin b.1)) bs ∧
    length (inputs_of bs) = k * (B * T) ∧
    length (targets_of bs) = k * (B * T).
Proof.
  intros HL.
  destruct (next_batches_windows B T tokens k 0) as (cs & c' & Hrun & Hlen & Hfit & _); [lia|].
  eexists _, _. split; [exact Hrun|]. split; [by rewrite length_map|].
  destruct (inputs_of_windows B T tokens cs Hfit) as [Hin Htg].
  split; [|by rewrite Hin, Htg, Hlen].
  apply Forall_fmap. eapply Forall_impl; [exact Hfit|]. intros c Hc. cbn beta.
  destruct (window_at_shape B T tokens c Hc) as (Hsh & Hx & Hy).
  split; [done|]. rewrite Hx, Hy.
  destruct (B * T) as [|W] eqn:HW.
  - rewrite !Nat.add_0_r, !py_slice_nil. done.
  - replace (c + 1 + S W) with (c + 1 + W + 1) by lia.
    replace (c + S W) with (c + W + 1) by lia.
    rewrite py_drop_last_slice by lia. rewrite py_drop_first_slice. done.
Qed.

Lemma next_batches_shifted_example :
  ∃ bs self',
    next_batches 3 (DataLoaderLite_init 1 4 [0; 1; 2; 3; 4; 5; 6; 7; 8; 9]%Z) = Ok (bs, self') ∧
    length (inputs_of bs) = 3 * (1 * 4).
Proof.
  destruct (next_batches_shifted 1 4 [0; 1; 2; 3; 4; 5; 6; 7; 8; 9]%Z 3)
    as (bs & self' & Hrun & _ & _ & Hin & _); [cbn; lia|].
  by exists bs, self'.
Defined.

Lemma batches_per_epoch_bounds (B T L : nat) :
  1 ≤ B * T → B * T + 1 ≤ L →
  let n := batches_per_epoch B T L in
  1 ≤ n ∧ (n - 1) * (B * T) + B * T + 1 ≤ L ∧ L ≤ (n - 1) * (B * T) + B * T + B * T + 1 ∧
  (2 ≤ n → n * (B * T) + 1 < L).
Proof.
  intros HW HL n. unfold n, batches_per_epoch.
  pose proof (Nat.div_mod (L - 2) (B * T) ltac:(lia)) as Hdm.
  pose proof (Nat.mod_upper_bound (L - 2) (B * T) ltac:(lia)) as Hmb.
  destruct (decide ((L - 2) / (B * T) ≤ 1)) as [Hle|Hgt].
  - rewrite Nat.max_l by lia. cbn. repeat split; try lia. nia.
  - rewrite Nat.max_r by lia. repeat split; try lia; nia.
Qed.

Lemma succ_mod (k n : nat) :
  1 ≤ n →
  S k mod n = if bool_decide (k mod n + 1 = n) then 0 else k mod n + 1.
Proof.
  intros Hn.
  pose proof (Nat.div_mod k n ltac:(lia)) as Hdm.
  pose proof (Nat.mod_upper_bound k n ltac:(lia)) as Hmb.
  case_bool_decide as Hlast; symmetry.
  - apply (Nat.mod_unique _ _ (S (k / n))); [lia|]. nia.
  - apply (Nat.mod_unique _ _ (k / n)); [lia|]. nia.
Qed.

(** The run of a fresh loader in closed form. *)
Lemma next_batches_closed_form (B T : nat) (tokens : list Z) (k : nat) :
  1 ≤ B * T → B * T + 1 ≤ length tokens →
  let n := batches_per_epoch B T (length tokens) in
  next_batches k (DataLoaderLite_init B T tokens)
  = Ok (map (λ j, window_at B T tokens (j mod n * (B * T))) (seq 0 k),
        mkDataLoaderLite B T tokens (k mod n * (B * T))).
Proof.
  intros HW HL n.
  destruct (batches_per_epoch_bounds B T (length tokens) HW HL) as (Hn & Hfit & Hwrap & Hbig).
  fold n in Hn, Hfit, Hwrap, Hbig.
  induction k as [|k IH].
  - rewrite Nat.Div0.mod_0_l. done.
  - replace (S k) with (k + 1) at 1 by lia.
    rewrite next_batches_add, IH. cbn [mbind result_bind fst snd next_batches].
    pose proof (Nat.mod_upper_bound k n ltac:(lia)) as Hmb.
    rewrite next_batch_window by nia. cbn [mbind result_bind fst snd].
    rewrite seq_S, map_app. cbn [map Nat.add]. rewrite succ_mod by done.
    do 3 f_equal.
    case_bool_decide as Hlast.
    + rewrite bool_decide_eq_true_2 by nia. done.
    + rewrite bool_decide_eq_false_2 by nia. lia.
Qed.

(** X6. The sampler is periodic: from a fresh loader over at least
    [B*T + 1] tokens (with [B*T >= 1]), after [k] calls the cursor is at
    [(k mod n) * B*T], where [n = max 1 ((L-2) / (B*T))], and the batch
    returned by call number [j] is the window at [(j mod n) * B*T]; so
    the calls repeat the same [n] batches for ever. *)
Theorem next_batches_periodic (B T : nat) (tokens : list Z) (k : nat) :
  1 ≤ B * T → B * T + 1 ≤ length tokens →
  let n := batches_per_epoch B T (length tokens) in
  next_batches k (DataLoaderLite_init B T tokens)
  = Ok (map (λ j, window_at B T tokens (j mod n * (B * T))) (seq 0 k),
        mkDataLoaderLite B T tokens (k mod n * (B * T))).
Proof. intros HW HL. by apply next_batches_closed_form. Qed.

Lemma next_batches_periodic_example :
  next_batches 5 (DataLoaderLite_init 1 4 [0; 1; 2; 3; 4; 5; 6; 7; 8; 9]%Z)
  = Ok (map (λ j, window_at 1 4 [0; 1; 2; 3; 4; 5; 6; 7; 8; 9]%Z (j mod 2 * 4)) (seq 0 5),
        mkDataLoaderLite 1 4 [0; 1; 2; 3; 4; 5; 6; 7; 8; 9]%Z 4).
Proof.
  apply (next_batches_periodic 1 4 [0; 1; 2; 3; 4; 5; 6; 7; 8; 9]%Z 5); cbn; lia.
Defined.

Lemma py_slice_take {A} (l : list A) (i j m : nat) :
  j ≤ m → py_slice (take m l) i j = py_slice l i j.
Proof.
  intros Hj. unfold py_slice. rewrite skipn_firstn_comm, take_take. f_equal. lia.
Qed.

Lemma window_at_prefix (B T : nat) (tokens tokens' : list Z) (c m : nat) :
  c + B * T + 1 ≤ m → take m tokens' = take m tokens →
  window_at B T tokens' c = window_at B T tokens c.
Proof.
  intros Hc Hpre. unfold window_at.
  rewrite <- (py_slice_take tokens' c (c + B * T) m) by lia.
  rewrite <- (py_slice_take tokens' (c + 1) (c + 1 + B * T) m) by lia.
  rewrite Hpre. by rewrite !py_slice_take by lia.
Qed.

(** X20. The tail of the data is never read: with [n = max 1 ((L-2) //
    (B*T))], the batches a loader returns, in any number of calls, are
    determined by the first [n*B*T + 1] tokens alone.  Two token
    sequences of one length that agree on that prefix give the same
    batches and cursors for ever; and as soon as [L >= B*T + 2] the
    prefix is a proper one, so at least one trailing token is used
    neither as an input nor as a target. *)
Theorem next_batches_ignore_tail (B T : nat) (tokens tokens' : list Z) (k : nat) :
  1 ≤ B * T → B * T + 1 ≤ length tokens →
  let n := batches_per_epoch B T (length tokens) in
  length tokens' = length tokens →
  take (n * (B * T) + 1) tokens' = take (n * (B * T) + 1) tokens →
  n * (B * T) + 1 ≤ length tokens ∧
  (B * T + 2 ≤ length tokens → n * (B * T) + 1 < length tokens) ∧
  ∃ bs self self',
    next_batches k (DataLoaderLite_init B T tokens) = Ok (bs, self) ∧
    next_batches k (DataLoaderLite_init B T tokens') = Ok (bs, self') ∧
    dl_current self' = dl_current self.
Proof.
  intros HW HL n Hlen Hpre.
  destruct (batches_per_epoch_bounds B T (length tokens) HW HL) as (Hn & Hfit & Hwrap & Hbig).
  fold n in Hn, Hfit, Hwrap, Hbig.
  split; [nia|]. split.
  - intros H2. destruct (decide (2 ≤ n)) as [Hge|Hlt]; [by apply Hbig|].
    assert (n = 1) as Hn1 by lia. rewrite Hn1. lia.
  - exists (map (λ j, window_at B T tokens (j mod n * (B * T))) (seq 0 k)),
      (mkDataLoaderLite B T tokens (k mod n * (B * T))),
      (mkDataLoaderLite B T tokens' (k mod n * (B * T))).
    split; [by apply next_batches_closed_form|].
    rewrite next_batches_closed_form by lia. cbv zeta. rewrite Hlen. fold n.
    split; [|reflexivity]. do 2 f_equal.
    apply Forall_fmap_ext, Forall_forall. intros j _.
    pose proof (Nat.mod_upper_bound j n ltac:(lia)) as Hmb.
    apply (window_at_prefix B T tokens tokens' _ (n * (B * T) + 1)); [nia|done].
Qed.

(** Ten tokens in windows of four: the tenth token is never read. *)
Lemma next_batches_ignore_tail_example :
  ∃ bs self self',
    next_batches 7 (DataLoaderLite_init 1 4 [0; 1; 2; 3; 4; 5; 6; 7; 8; 9]%Z) = Ok (bs, self) ∧
    next_batches 7 (DataLoaderLite_init 1 4 [0; 1; 2; 3; 4; 5; 6; 7; 8; 77]%Z) = Ok (bs, self') ∧
    dl_current self' = dl_current self.
Proof.
  apply (next_batches_ignore_tail 1 4 [0; 1; 2; 3; 4; 5; 6; 7; 8; 9]%Z
           [0; 1; 2; 3; 4; 5; 6; 7; 8; 77]%Z 7); [cbn; lia|cbn; lia|reflexivity|reflexivity].
Defined.

(** X7. The epoch length the constructor prints, [L // (B*T)], is
    never less than the number of batches the sampler returns before it
    wraps, and the two agree exactly when at least two tokens are left
    over by the division or fewer than two windows fit; otherwise the
    printed number overstates the epoch.  With [B*T = 0] the constructor
    raises ZeroDivisionError. *)
Theorem epoch_batches_announced_vs_actual (B T : nat) (tokens : list Z) :
  (B * T = 0 → epoch_batches_announced B T tokens = Err ZeroDivisionError) ∧
  (1 ≤ B * T → B * T + 1 ≤ length tokens →
   ∃ p, epoch_batches_announced B T tokens = Ok p ∧
        batches_per_epoch B T (length tokens) ≤ p ∧
        (batches_per_epoch B T (length tokens) = p ↔
         2 ≤ length tokens mod (B * T) ∨ length tokens < 2 * (B * T))).
Proof.
  unfold epoch_batches_announced. split.
  - intros HW. by rewrite bool_decide_eq_true_2.
  - intros HW HL. rewrite bool_decide_eq_false_2 by lia.
    eexists. split; [reflexivity|].
    unfold batches_per_epoch.
    set (W := B * T) in *. set (L := length tokens) in *.
    pose proof (Nat.div_mod L W ltac:(lia)) as Hdm.
    pose proof (Nat.mod_upper_bound L W ltac:(lia)) as Hmb.
    pose proof (Nat.div_mod (L - 2) W ltac:(lia)) as Hdm2.
    pose proof (Nat.mod_upper_bound (L - 2) W ltac:(lia)) as Hmb2.
    assert (Hp : 1 ≤ L / W) by (apply Nat.div_le_lower_bound; lia).
    assert (Hle : (L - 2) / W ≤ L / W) by (apply Nat.Div0.div_le_mono; lia).
    split; [lia|].
    destruct (decide (2 ≤ L mod W)) as [Hr|Hr].
    + assert (Heq : (L - 2) / W = L / W).
      { symmetry. apply (Nat.div_unique _ _ _ (L mod W - 2)); [lia|]. nia. }
      split; [by left|]. intros _. rewrite Heq. lia.
    + assert (Hlt : (L - 2) / W < L / W) by nia.
      split.
      * intros Hmax. right.
        assert (L / W = 1) as H1 by lia. nia.
      * intros [?|Hsmall]; [lia|].
        assert (L / W = 1) as H1 by nia. lia.
Qed.

Lemma epoch_batches_announced_example :
  ∃ p, epoch_batches_announced 1 4 [0; 1; 2; 3; 4; 5; 6; 7; 8]%Z = Ok p ∧
       batches_per_epoch 1 4 9 ≤ p ∧
       ¬ batches_per_epoch 1 4 9 = p.
Proof.
  destruct (proj2 (epoch_batches_announced_vs_actual 1 4 [0; 1; 2; 3; 4; 5; 6; 7; 8]%Z))
    as (p & Hp & Hle & Hiff); [cbn; lia|cbn; lia|].
  exists p. split; [exact Hp|]. split; [exact Hle|].
  intros Heq. apply Hiff in Heq. cbn in Heq. lia.
Defined.

(** ** Construction: errors *)

Lemma St_bind_err {A B} (m : St A) (f : A → St B) s e :
  m s = Err e → (m ≫= f) s = Err e.
Proof. intros H. unfold mbind, St_bind. by rewrite H. Qed.

Lemma Block_init_err config s e :
  assert_heads_divide config = Err e → Block_init config s = Err e.
Proof.
  intros He. unfold Block_init.
  erewrite St_bind_ok by apply nn_LayerNorm_ok.
  erewrite St_bind_ok by apply nn_LayerNorm_ok.
  apply St_bind_err. unfold SelfAttention_init.
  apply St_bind_err. by rewrite He.
Qed.

Lemma GPT_init_err config s0 e :
  1 ≤ n_layer config → assert_heads_divide config = Err e → GPT_init config s0 = Err e.
Proof.
  intros HL He. unfold GPT_init.
  erewrite St_bind_ok by reflexivity.
  erewrite St_bind_ok by reflexivity.
  apply St_bind_err.
  destruct (n_layer config) as [|k]; [lia|].
  cbn [St_repeat]. apply St_bind_err. by apply Block_init_err.
Qed.

Lemma GPT_init_no_layers config s0 :
  n_layer config = 0 → ∃ m s, GPT_init config s0 = Ok (m, s) ∧ h m = [].
Proof.
  intros HL. unfold GPT_init. rewrite HL.
  erewrite St_bind_ok by reflexivity.
  erewrite St_bind_ok by reflexivity.
  erewrite St_bind_ok by reflexivity.
  erewrite St_bind_ok by apply nn_LayerNorm_ok.
  erewrite St_bind_ok by reflexivity.
  erewrite St_bind_ok by apply apply_init_writes.
  eexists _, _. split; reflexivity.
Qed.

(** X8. Constructing the model fails exactly when there is at least one
    layer and the head count does not divide the embedding width: with
    AssertionError when [n_embd % n_head] is not 0, with
    ZeroDivisionError when [n_head] is 0.  A model without layers never
    evaluates the check. *)
Theorem GPT_init_fails_iff (config : GPTConfig) (s0 : world) :
  ((∃ m s, GPT_init config s0 = Ok (m, s)) ↔ n_layer config = 0 ∨ valid_heads config) ∧
  (GPT_init config s0 = Err AssertionError ↔
   1 ≤ n_layer config ∧ n_head config ≠ 0 ∧ n_embd config mod n_head config ≠ 0) ∧
  (GPT_init config s0 = Err ZeroDivisionError ↔ 1 ≤ n_layer config ∧ n_head config = 0).
Proof.
  destruct (decide (n_layer config = 0)) as [HL|HL].
  { destruct (GPT_init_no_layers config s0 HL) as (m & s & Hok & _).
    split; [split; [by left|by exists m, s]|]. rewrite Hok.
    split; (split; [done|lia]). }
  destruct (decide (n_head config = 0)) as [Hh|Hh].
  { assert (He : GPT_init config s0 = Err ZeroDivisionError).
    { apply GPT_init_err; [lia|]. unfold assert_heads_divide.
      by rewrite bool_decide_eq_true_2. }
    rewrite He. split; [split; [by intros (? & ? & ?)|]|].
    - intros [?|[? _]]; done.
    - split; [split; [done|lia]|]. split; [intros _; lia|done]. }
  destruct (decide (n_embd config mod n_head config = 0)) as [Hd|Hd].
  { destruct (GPT_init_construct config s0 (conj Hh Hd)) as (s1 & Hok & _).
    split; [split; [by right|by eexists _, _]|]. rewrite Hok.
    split; (split; [done|lia]). }
  assert (He : GPT_init config s0 = Err AssertionError).
  { apply GPT_init_err; [lia|]. unfold assert_heads_divide.
    rewrite bool_decide_eq_false_2 by done. by rewrite bool_decide_eq_false_2. }
  rewrite He. split; [split; [by intros (? & ? & ?)|]|].
  - intros [?|[_ ?]]; done.
  - split; [split; [intros _; lia|done]|]. split; [done|lia].
Qed.

(** ** Construction: the parameters and the generator *)

Lemma first_occurrences_fresh (seen l : list loc) :
  NoDup l → (∀ x, x ∈ l → x ∉ seen) → first_occurrences seen l = l.
Proof.
  revert seen. induction l as [|p l IH]; intros seen Hnd Hfresh; [done|].
  apply NoDup_cons in Hnd as [Hp Hnd].
  cbn [first_occurrences]. rewrite bool_decide_eq_false_2.
  2:{ apply Hfresh, elem_of_cons. by left. }
  f_equal. apply IH; [done|].
  intros x Hx. apply not_elem_of_cons. split.
  - intros ->. done.
  - apply Hfresh, elem_of_cons. by right.
Qed.

Lemma first_occurrences_app_seen (seen l : list loc) (q : loc) :
  NoDup l → (∀ x, x ∈ l → x ∉ seen) → q ∈ seen →
  first_occurrences seen (l ++ [q]) = l.
Proof.
  revert seen. induction l as [|p l IH]; intros seen Hnd Hfresh Hq.
  - cbn. by rewrite bool_decide_eq_true_2.
  - apply NoDup_cons in Hnd as [Hp Hnd].
    cbn [app first_occurrences]. rewrite bool_decide_eq_false_2.
    2:{ apply Hfresh, elem_of_cons. by left. }
    f_equal. apply IH; [done| |apply elem_of_cons; by right].
    intros x Hx. apply not_elem_of_cons. split.
    + intros ->. done.
    + apply Hfresh, elem_of_cons. by right.
Qed.

Lemma blocks_at_parameters (n k : nat) :
  blocks_at n k ≫= Block_parameters = seq n (12 * k).
Proof.
  revert n. induction k as [|k IH]; intros n; [done|].
  cbn [blocks_at]. rewrite bind_cons, IH.
  replace (12 * S k) with (12 + 12 * k) by lia. rewrite seq_app.
  replace (n + 12) with (12 + n) by lia. reflexivity.
Qed.

(** The parameters of a constructed model, in the order
    [named_parameters()] yields them: the tied tensor first, under the
    name of the token embedding, then the tensors allocated after the
    orphaned first one, in allocation order; the second name of the tied
    tensor is skipped. *)
Lemma gpt_at_named_parameters (n k : nat) :
  named_parameters (gpt_at n k)
  = (2 + (12 * k + (2 + n))) :: seq (1 + n) (12 * k + 3).
Proof.
  unfold named_parameters, gpt_at. cbn [wte wpe h ln_f lm_head emb_weight].
  rewrite blocks_at_parameters.
  set (lm_w := 2 + (12 * k + (2 + n))).
  assert (Hrest : [1 + n] ++ seq (2 + n) (12 * k)
                  ++ LayerNorm_parameters (mkLayerNorm (12 * k + (2 + n)) (1 + (12 * k + (2 + n))))
                  ++ Linear_parameters (mkLinear lm_w None false)
                  = seq (1 + n) (12 * k + 3) ++ [lm_w]).
  { replace (12 * k + 3) with (1 + (12 * k + 2)) by lia.
    rewrite (seq_app 1 (12 * k + 2)), (seq_app (12 * k) 2).
    replace (1 + n + 1) with (2 + n) by lia.
    replace (2 + n + 12 * k) with (12 * k + (2 + n)) by lia.
    cbn [seq app LayerNorm_parameters Linear_parameters lin_weight lin_bias ln_weight ln_bias].
    rewrite <- !app_assoc. reflexivity. }
  change (first_occurrences [] (lm_w ::
            ([1 + n] ++ seq (2 + n) (12 * k)
             ++ LayerNorm_parameters (mkLayerNorm (12 * k + (2 + n)) (1 + (12 * k + (2 + n))))
             ++ Linear_parameters (mkLinear lm_w None false)))
          = lm_w :: seq (1 + n) (12 * k + 3)).
  rewrite Hrest. cbn [first_occurrences].
  rewrite bool_decide_eq_false_2 by apply not_elem_of_nil. f_equal.
  apply first_occurrences_app_seen.
  - apply NoDup_seq.
  - intros x Hx. apply elem_of_seq in Hx. apply not_elem_of_cons.
    split; [unfold lm_w; lia|apply not_elem_of_nil].
  - apply elem_of_cons. by left.
Qed.

Lemma perform_next_rng (ws : list (loc * init_write)) (s : world) :
  w_next (foldl perform_write s ws) = w_next s ∧
  w_rng (foldl perform_write s ws) = w_rng s + count_draws ws.
Proof.
  revert s. induction ws as [|[p w] ws IH]; intros s; [cbn; lia|].
  cbn [foldl count_draws]. destruct (IH (perform_write s (p, w))) as [-> ->].
  destruct w; cbn; lia.
Qed.

Lemma count_draws_app (ws ws' : list (loc * init_write)) :
  count_draws (ws ++ ws') = count_draws ws + count_draws ws'.
Proof. induction ws as [|[p [std|]] ws IH]; cbn; lia. Qed.

Lemma count_draws_blocks config (n k : nat) :
  count_draws (blocks_at n k ≫= Block_writes config) = 4 * k.
Proof.
  revert n. induction k as [|k IH]; intros n; [done|].
  cbn [blocks_at]. rewrite bind_cons, count_draws_app, IH.
  change (count_draws (Block_writes config (block_at n))) with 4. lia.
Qed.

Lemma GPT_init_state config s0 :
  valid_heads config →
  let m := gpt_at (w_next s0) (n_layer config) in
  ∃ s1,
    GPT_init config s0
      = Ok (m, foldl perform_write s1 (GPT_modules m ≫= init_writes config)) ∧
    w_next s1 = 12 * n_layer config + (5 + w_next s0) ∧
    w_rng s1 = w_rng s0 ∧
    w_heap s1 !! w_next s0 = Some TorchDefault ∧
    (∀ p, p < w_next s0 → w_heap s1 !! p = w_heap s0 !! p).
Proof.
  intros Hv m. destruct s0 as [hp0 n0 r0]. cbn [w_next w_rng] in *.
  set (s2 := mkWorld (<[1 + n0 := TorchDefault]> (<[n0 := TorchDefault]> hp0)) (2 + n0) r0).
  destruct (blocks_init_ok config (n_layer config) s2 Hv) as (s3 & Hrep & Hext & _).
  destruct s3 as [hp3 n3 r3]. destruct Hext as (Hn3 & Hr3 & Hpres).
  cbn [w_next w_rng w_heap s2] in Hrep, Hn3, Hr3, Hpres. subst n3 r3.
  eexists. split; [|split; [|split; [|split]]].
  - unfold GPT_init.
    erewrite St_bind_ok by reflexivity.
    erewrite St_bind_ok by reflexivity.
    erewrite St_bind_ok by exact Hrep.
    erewrite St_bind_ok by apply nn_LayerNorm_ok.
    erewrite St_bind_ok by reflexivity.
    cbn [lin_weight w_next].
    erewrite St_bind_ok by apply apply_init_writes.
    reflexivity.
  - cbn [w_next]. lia.
  - reflexivity.
  - cbn [w_heap w_next]. rewrite !lookup_insert_ne by lia.
    rewrite Hpres by lia. rewrite lookup_insert_ne by lia. apply lookup_insert_eq.
  - intros p Hp. cbn [w_heap w_next]. rewrite !lookup_insert_ne by lia.
    rewrite Hpres by lia. by rewrite !lookup_insert_ne by lia.
Qed.

Lemma gpt_write_locs_above config (n k p : nat) :
  p ∈ (GPT_modules (gpt_at n k) ≫= init_writes config).*1 → n < p.
Proof.
  rewrite gpt_writes, !fmap_cons, fmap_app. cbn [fmap list_fmap fst].
  rewrite !elem_of_cons, elem_of_app, elem_of_cons.
  intros [->|[->|[Hp|[->|Hp]]]]; try lia.
  - apply blocks_writes_bounds in Hp. lia.
  - by apply elem_of_nil in Hp.
Qed.

Lemma count_draws_gpt config (n k : nat) :
  count_draws (GPT_modules (gpt_at n k) ≫= init_writes config) = 4 * k + 3.
Proof.
  rewrite gpt_writes. cbn [count_draws].
  rewrite count_draws_app, count_draws_blocks. cbn. lia.
Qed.

(** X9. The parameter tensors construction leaves behind (for a head
    count dividing the embedding width).  The layer constructors create
    [12 * n_layer + 5] parameter tensors (the attention mask of line 34
    is a buffer, not a parameter, and is not on this heap).  The model's
    parameters are the [12 * n_layer + 4] created last, and
    [named_parameters()] yields each once: first the tied tensor, which
    is the one created last, then the others in creation order.  The
    tensor created first, for the token embedding before the tie, is no
    parameter and is never initialised; the initialiser has drawn
    [4 * n_layer + 3] times from the generator; tensors that existed
    before are untouched. *)
Theorem GPT_init_footprint (config : GPTConfig) (s0 : world) :
  valid_heads config →
  ∃ m s,
    GPT_init config s0 = Ok (m, s) ∧
    w_next s = w_next s0 + (12 * n_layer config + 5) ∧
    emb_weight (wte m) = w_next s0 + (12 * n_layer config + 4) ∧
    named_parameters m
      = emb_weight (wte m) :: seq (1 + w_next s0) (12 * n_layer config + 3) ∧
    w_heap s !! w_next s0 = Some TorchDefault ∧
    w_rng s = w_rng s0 + (4 * n_layer config + 3) ∧
    (∀ p, p < w_next s0 → w_heap s !! p = w_heap s0 !! p).
Proof.
  intros Hv.
  destruct (GPT_init_state config s0 Hv) as (s1 & Hinit & Hnext & Hrng & Horphan & Hold).
  eexists _, _. split; [exact Hinit|].
  destruct (perform_next_rng
              (GPT_modules (gpt_at (w_next s0) (n_layer config)) ≫= init_writes config) s1)
    as [Hn Hr].
  split; [rewrite Hn, Hnext; lia|].
  split; [cbn [gpt_at wte emb_weight]; lia|].
  split; [apply gpt_at_named_parameters|].
  split; [|split].
  - rewrite perform_lookup_notin; [done|].
    intros Hp. apply gpt_write_locs_above in Hp. lia.
  - rewrite Hr, Hrng, count_draws_gpt. done.
  - intros p Hp. rewrite perform_lookup_notin; [by apply Hold|].
    intros Hp'. apply gpt_write_locs_above in Hp'. lia.
Qed.

Lemma GPT_init_footprint_main :
  valid_heads main_config ∧
  ∃ m s, GPT_init main_config (mkWorld ∅ 0 0) = Ok (m, s) ∧
         length (named_parameters m) = 148 ∧
         head (named_parameters m) = Some (emb_weight (wte m)) ∧
         emb_weight (wte m) = 148 ∧
         w_rng s = 51.
Proof.
  assert (Hv : valid_heads main_config) by (split; [discriminate|reflexivity]).
  split; [exact Hv|].
  destruct (GPT_init_footprint main_config (mkWorld ∅ 0 0) Hv)
    as (m & s & Hinit & _ & Htied & Hpar & _ & Hrng & _).
  exists m, s. split; [exact Hinit|].
  split; [rewrite Hpar; cbn [length]; by rewrite length_seq|].
  split; [by rewrite Hpar|]. split; [exact Htied|exact Hrng].
Defined.

(** X10. The tied tensor is initialised twice and keeps the second
    draw: after construction the weight shared by the token embedding
    and the output projection holds the last draw of the initialiser,
    made when [lm_head] is visited; the positional embedding holds the
    second draw; the first draw, made for [wte], has been overwritten. *)
Theorem tied_weight_keeps_last_draw (config : GPTConfig) (s0 : world) :
  valid_heads config →
  ∃ m s,
    GPT_init config s0 = Ok (m, s) ∧
    w_heap s !! emb_weight (wte m)
      = Some (Normal 0 0.02%R (w_rng s0 + (4 * n_layer config + 2))) ∧
    w_heap s !! lin_weight (lm_head m)
      = Some (Normal 0 0.02%R (w_rng s0 + (4 * n_layer config + 2))) ∧
    w_heap s !! emb_weight (wpe m) = Some (Normal 0 0.02%R (w_rng s0 + 1)).
Proof.
  intros Hv.
  destruct (GPT_init_state config s0 Hv) as (s1 & Hinit & _ & Hrng & _).
  eexists _, _. split; [exact Hinit|].
  set (n := w_next s0). set (k := n_layer config).
  rewrite gpt_writes.
  set (lm_w := 2 + (12 * k + (2 + n))).
  set (mid := blocks_at (2 + n) k ≫= Block_writes config).
  assert (Hlast : w_heap (foldl perform_write s1
                   ((lm_w, WNormal 0.02%R) :: (1 + n, WNormal 0.02%R) :: mid
                    ++ [(lm_w, WNormal 0.02%R)])) !! lm_w
                  = Some (Normal 0 0.02%R (w_rng s0 + (4 * k + 2)))).
  { change ((lm_w, WNormal 0.02%R) :: (1 + n, WNormal 0.02%R) :: mid ++ [(lm_w, WNormal 0.02%R)])
      with (((lm_w, WNormal 0.02%R) :: (1 + n, WNormal 0.02%R) :: mid)
            ++ [(lm_w, WNormal 0.02%R)]).
    rewrite foldl_app. cbn [foldl perform_write snd fst w_heap].
    rewrite lookup_insert_eq. do 2 f_equal.
    match goal with
    | |- w_rng (foldl perform_write ?s ?ws) = _ =>
        destruct (perform_next_rng ws s) as [_ ->]
    end.
    cbn [w_rng]. rewrite Hrng. unfold mid.
    rewrite count_draws_blocks. lia. }
  split; [exact Hlast|]. split; [exact Hlast|].
  cbn [wpe gpt_at emb_weight].
  transitivity (w_heap (foldl perform_write
                  (perform_write (perform_write s1 (lm_w, WNormal 0.02%R))
                                 (1 + n, WNormal 0.02%R))
                  (mid ++ [(lm_w, WNormal 0.02%R)])) !! (1 + n)); [reflexivity|].
  rewrite perform_lookup_notin.
  - cbn [perform_write snd fst w_heap w_rng]. rewrite lookup_insert_eq, Hrng.
    do 2 f_equal. lia.
  - rewrite fmap_app. cbn [fmap list_fmap fst]. rewrite not_elem_of_app. split.
    + intros Hp. apply blocks_writes_bounds in Hp. lia.
    + rewrite not_elem_of_cons. split; [unfold lm_w; lia|apply not_elem_of_nil].
Qed.

Lemma tied_weight_keeps_last_draw_main :
  valid_heads main_config ∧
  ∃ m s, GPT_init main_config (mkWorld ∅ 0 0) = Ok (m, s) ∧
         w_heap s !! emb_weight (wte m) = Some (Normal 0 0.02%R 50).
Proof.
  assert (Hv : valid_heads main_config) by (split; [discriminate|reflexivity]).
  split; [exact Hv|].
  destruct (tied_weight_keeps_last_draw main_config (mkWorld ∅ 0 0) Hv)
    as (m & s & Hinit & Hwte & _).
  exists m, s. split; [exact Hinit|exact Hwte].
Defined.

(** ** [configure_optimizers] *)

Lemma elem_of_dedup_first (seen : list loc) (l : list (loc * shape)) (x : loc) :
  x ∈ (dedup_first seen l).*1 ↔ x ∈ l.*1 ∧ x ∉ seen.
Proof.
  revert seen. induction l as [|p l IH]; intros seen.
  - cbn. rewrite elem_of_nil. tauto.
  - cbn [dedup_first]. rewrite fmap_cons, elem_of_cons.
    case_bool_decide as Hp.
    + rewrite IH. split; [tauto|]. intros [[->|Hx] Hs]; [done|tauto].
    + rewrite fmap_cons, elem_of_cons, IH, not_elem_of_cons.
      destruct (decide (x = p.1)) as [->|Hne]; tauto.
Qed.

Lemma NoDup_dedup_first (seen : list loc) (l : list (loc * shape)) :
  NoDup (dedup_first seen l).*1.
Proof.
  revert seen. induction l as [|p l IH]; intros seen; [constructor|].
  cbn [dedup_first]. case_bool_decide as Hp; [apply IH|].
  rewrite fmap_cons. constructor; [|apply IH].
  rewrite elem_of_dedup_first, not_elem_of_cons. tauto.
Qed.

Lemma dedup_first_app_dup (seen : list loc) (l : list (loc * shape)) (q : loc * shape) :
  NoDup l.*1 → (∀ x, x ∈ l.*1 → x ∉ seen) → q.1 ∈ seen →
  dedup_first seen (l ++ [q]) = l.
Proof.
  revert seen. induction l as [|p l IH]; intros seen Hnd Hfresh Hq.
  - cbn. by rewrite bool_decide_eq_true_2.
  - rewrite fmap_cons in Hnd. apply NoDup_cons in Hnd as [Hp Hnd].
    cbn [app dedup_first]. rewrite bool_decide_eq_false_2.
    2:{ apply Hfresh. rewrite fmap_cons. apply elem_of_cons. by left. }
    f_equal. apply IH; [done| |apply elem_of_cons; by right].
    intros x Hx. apply not_elem_of_cons. split.
    + intros ->. done.
    + apply Hfresh. rewrite fmap_cons. apply elem_of_cons. by right.
Qed.

Lemma dedup_first_cons_fresh (seen : list loc) (p : loc * shape) (l : list (loc * shape)) :
  p.1 ∉ seen → dedup_first seen (p :: l) = p :: dedup_first (p.1 :: seen) l.
Proof. intros Hp. cbn [dedup_first]. by rewrite bool_decide_eq_false_2. Qed.

Lemma Linear_named_locs (i o : nat) (l : Linear) :
  (Linear_named i o l).*1 = Linear_parameters l.
Proof. unfold Linear_named, Linear_parameters. by destruct (lin_bias l). Qed.

Lemma Block_named_locs (config : GPTConfig) (b : Block) :
  (Block_named config b).*1 = Block_parameters b.
Proof.
  unfold Block_named, Block_parameters. cbv zeta.
  rewrite !fmap_app, !Linear_named_locs. reflexivity.
Qed.

Lemma blocks_named_locs (config : GPTConfig) (bs : list Block) :
  (bs ≫= Block_named config).*1 = bs ≫= Block_parameters.
Proof.
  induction bs as [|b bs IH]; [done|].
  rewrite !bind_cons, fmap_app, Block_named_locs, IH. reflexivity.
Qed.

Lemma GPT_named_locs (config : GPTConfig) (self : GPT) :
  (GPT_named config self).*1
  = [emb_weight (wte self); emb_weight (wpe self)] ++ (h self ≫= Block_parameters)
    ++ LayerNorm_parameters (ln_f self) ++ Linear_parameters (lm_head self).
Proof.
  unfold GPT_named. cbv zeta.
  rewrite !fmap_app, blocks_named_locs, Linear_named_locs. reflexivity.
Qed.

Lemma filter_dim_complement (l : list (loc * shape)) :
  filter (λ p, 2 ≤ dim p.2) l ++ filter (λ p, dim p.2 < 2) l ≡ₚ l.
Proof.
  rewrite (list_filter_iff (λ p : loc * shape, dim p.2 < 2) (λ p, ¬ 2 ≤ dim p.2)).
  - apply filter_app_complement.
  - intros p. lia.
Qed.

(** X12. The optimizer receives every parameter tensor of the model in
    exactly one of its two groups, whatever the model shares: no tensor
    is listed twice (a tied tensor appears once), the tensors of the two
    groups together are the parameters the training loop updates, the
    first group holds the tensors of two or more dimensions with the
    requested weight decay and the second the others with weight decay
    zero; the fused kernel is used only when it is available and the
    device is a CUDA one. *)
Theorem configure_optimizers_partition (config : GPTConfig) (self : GPT)
    (weight_decay learning_rate : R) (fused_available cuda : bool) :
  ∃ decay non_decay,
    optim_groups (configure_optimizers config self weight_decay learning_rate
                    fused_available cuda).1
      = [mkParamGroup decay weight_decay; mkParamGroup non_decay 0%R] ∧
    NoDup (decay ++ non_decay).*1 ∧
    (decay ++ non_decay).*1 ≡ₚ named_parameters self ∧
    Forall (λ p, 2 ≤ dim p.2) decay ∧
    Forall (λ p, dim p.2 < 2) non_decay ∧
    opt_fused (configure_optimizers config self weight_decay learning_rate
                 fused_available cuda).1 = fused_available && cuda.
Proof.
  eexists _, _. split; [reflexivity|].
  set (pd := dedup_first [] (GPT_named config self)).
  assert (Hperm : (filter (λ p, 2 ≤ dim p.2) pd ++ filter (λ p, dim p.2 < 2) pd).*1
                  ≡ₚ pd.*1) by (by rewrite filter_dim_complement).
  assert (Hnd : NoDup pd.*1) by apply NoDup_dedup_first.
  split; [by rewrite Hperm|]. split; [|split; [|split]].
  - rewrite Hperm. apply NoDup_Permutation; [done|apply NoDup_first_occurrences|].
    intros x. unfold pd, named_parameters.
    rewrite elem_of_dedup_first, elem_of_first_occurrences, GPT_named_locs. done.
  - apply Forall_forall. intros p Hp. by apply list_elem_of_filter in Hp as [Hp _].
  - apply Forall_forall. intros p Hp. by apply list_elem_of_filter in Hp as [Hp _].
  - reflexivity.
Qed.

Lemma numel_sum_app (l l' : list (loc * shape)) :
  numel_sum (l ++ l') = (numel_sum l + numel_sum l')%N.
Proof.
  induction l as [|p l IH]; [done|].
  change (numel_sum ((p :: l) ++ l')) with (numel p.2 + numel_sum (l ++ l'))%N.
  change (numel_sum (p :: l)) with (numel p.2 + numel_sum l)%N. rewrite IH. lia.
Qed.

Lemma Block_named_decay (config : GPTConfig) (n : loc) :
  let C := n_embd config in
  filter (λ p : loc * shape, 2 ≤ dim p.2) (Block_named config (block_at n))
  = [(4 + n, [C * 3; C]); (6 + n, [C; C]); (8 + n, [C * 4; C]); (10 + n, [C; C * 4])].
Proof. reflexivity. Qed.

Lemma Block_named_non_decay (config : GPTConfig) (n : loc) :
  let C := n_embd config in
  filter (λ p : loc * shape, dim p.2 < 2) (Block_named config (block_at n))
  = [(n, [C]); (1 + n, [C]); (2 + n, [C]); (3 + n, [C]); (5 + n, [C * 3]);
     (7 + n, [C]); (9 + n, [C * 4]); (11 + n, [C])].
Proof. reflexivity. Qed.

Lemma blocks_named_decay (config : GPTConfig) (n k : nat) :
  let D := filter (λ p : loc * shape, 2 ≤ dim p.2) (blocks_at n k ≫= Block_named config) in
  length D = 4 * k ∧
  numel_sum D = (12 * N.of_nat k * N.of_nat (n_embd config) * N.of_nat (n_embd config))%N.
Proof.
  revert n. induction k as [|k IH]; intros n; [done|].
  cbn [blocks_at]. cbv zeta in *. rewrite bind_cons, filter_app, length_app, numel_sum_app.
  destruct (IH (12 + n)) as [-> ->]. rewrite Block_named_decay. cbv zeta.
  split; [cbn [length]; lia|].
  unfold numel_sum at 1, numel. cbn [foldr snd]. rewrite !Nat2N.inj_mul, Nat2N.inj_succ.
  change (N.of_nat 3) with 3%N. change (N.of_nat 4) with 4%N. lia.
Qed.

Lemma blocks_named_non_decay (config : GPTConfig) (n k : nat) :
  let D := filter (λ p : loc * shape, dim p.2 < 2) (blocks_at n k ≫= Block_named config) in
  length D = 8 * k ∧
  numel_sum D = (13 * N.of_nat k * N.of_nat (n_embd config))%N.
Proof.
  revert n. induction k as [|k IH]; intros n; [done|].
  cbn [blocks_at]. cbv zeta in *. rewrite bind_cons, filter_app, length_app, numel_sum_app.
  destruct (IH (12 + n)) as [-> ->]. rewrite Block_named_non_decay. cbv zeta.
  split; [cbn [length]; lia|].
  unfold numel_sum at 1, numel. cbn [foldr snd]. rewrite !Nat2N.inj_mul, Nat2N.inj_succ.
  change (N.of_nat 3) with 3%N. change (N.of_nat 4) with 4%N. lia.
Qed.

(** The parameter dictionary of a constructed model: the tied tensor under
    its first name, the positional embedding, the blocks and the final
    layer norm; the entry of [lm_head.weight] is the one skipped. *)
Lemma gpt_at_param_dict (config : GPTConfig) (n k : nat) :
  let C := n_embd config in
  dedup_first [] (GPT_named config (gpt_at n k))
  = (2 + (12 * k + (2 + n)), [vocab_size config; C])
    :: (1 + n, [block_size config; C])
    :: (blocks_at (2 + n) k ≫= Block_named config)
    ++ LayerNorm_named C (mkLayerNorm (12 * k + (2 + n)) (1 + (12 * k + (2 + n)))).
Proof.
  intros C. unfold GPT_named, gpt_at. cbv zeta.
  cbn [wte wpe h ln_f lm_head emb_weight]. fold C.
  set (lm_w := 2 + (12 * k + (2 + n))).
  set (L := ((1 + n, [block_size config; C])
            :: (blocks_at (2 + n) k ≫= Block_named config)
            ++ LayerNorm_named C (mkLayerNorm (12 * k + (2 + n)) (1 + (12 * k + (2 + n))))
            : list (loc * shape))).
  change (dedup_first [] ((lm_w, [vocab_size config; C])
            :: ((1 + n, [block_size config; C])
                :: (blocks_at (2 + n) k ≫= Block_named config)
                   ++ LayerNorm_named C (mkLayerNorm (12 * k + (2 + n)) (1 + (12 * k + (2 + n))))
                   ++ [(lm_w, [vocab_size config; C])]))
          = (lm_w, [vocab_size config; C]) :: L).
  rewrite dedup_first_cons_fresh by apply not_elem_of_nil. cbn [fst].
  f_equal.
  replace ((1 + n, [block_size config; C])
     :: (blocks_at (2 + n) k ≫= Block_named config)
        ++ LayerNorm_named C (mkLayerNorm (12 * k + (2 + n)) (1 + (12 * k + (2 + n))))
        ++ [(lm_w, [vocab_size config; C])])
    with (L ++ [(lm_w, [vocab_size config; C])])
    by (unfold L; by rewrite <- app_comm_cons, <- app_assoc).
  assert (HL : (fst <$> L : list loc) = seq (1 + n) (12 * k + 3)).
  { unfold L. rewrite fmap_cons, fmap_app, blocks_named_locs, blocks_at_parameters.
    replace (12 * k + 3) with (1 + (12 * k + 2)) by lia.
    rewrite (seq_app 1 (12 * k + 2)), (seq_app (12 * k) 2).
    replace (1 + n + 1) with (2 + n) by lia.
    replace (2 + n + 12 * k) with (12 * k + (2 + n)) by lia. reflexivity. }
  apply (dedup_first_app_dup [lm_w] L (lm_w, [vocab_size config; C])).
  - rewrite HL. apply NoDup_seq.
  - intros x. rewrite HL, elem_of_seq, not_elem_of_cons. unfold lm_w. intros Hx.
    split; [lia|apply not_elem_of_nil].
  - apply elem_of_cons. by left.
Qed.

Lemma blocks_named_decay_locs (config : GPTConfig) (n k : nat) :
  (filter (λ p : loc * shape, 2 ≤ dim p.2) (blocks_at n k ≫= Block_named config)).*1
  = blocks_at n k ≫= Block_matrices.
Proof.
  revert n. induction k as [|k IH]; intros n; [done|].
  cbn [blocks_at]. rewrite !bind_cons, filter_app, fmap_app, IH, Block_named_decay.
  reflexivity.
Qed.

Lemma blocks_named_non_decay_locs (config : GPTConfig) (n k : nat) :
  (filter (λ p : loc * shape, dim p.2 < 2) (blocks_at n k ≫= Block_named config)).*1
  = blocks_at n k ≫= Block_vectors.
Proof.
  revert n. induction k as [|k IH]; intros n; [done|].
  cbn [blocks_at]. rewrite !bind_cons, filter_app, fmap_app, IH, Block_named_non_decay.
  reflexivity.
Qed.

Lemma gpt_at_decay_params (config : GPTConfig) (n k : nat) :
  filter (λ p : loc * shape, 2 ≤ dim p.2) (dedup_first [] (GPT_named config (gpt_at n k)))
  = (2 + (12 * k + (2 + n)), [vocab_size config; n_embd config])
    :: (1 + n, [block_size config; n_embd config])
    :: filter (λ p : loc * shape, 2 ≤ dim p.2) (blocks_at (2 + n) k ≫= Block_named config).
Proof.
  rewrite gpt_at_param_dict. cbv zeta.
  rewrite !filter_cons_True by (cbn; lia). rewrite filter_app.
  do 2 f_equal. apply app_nil_r.
Qed.

Lemma gpt_at_non_decay_params (config : GPTConfig) (n k : nat) :
  filter (λ p : loc * shape, dim p.2 < 2) (dedup_first [] (GPT_named config (gpt_at n k)))
  = filter (λ p : loc * shape, dim p.2 < 2) (blocks_at (2 + n) k ≫= Block_named config)
    ++ LayerNorm_named (n_embd config)
         (mkLayerNorm (12 * k + (2 + n)) (1 + (12 * k + (2 + n)))).
Proof.
  rewrite gpt_at_param_dict. cbv zeta.
  rewrite !filter_cons_False by (cbn; lia). rewrite filter_app. reflexivity.
Qed.

(** X13. For a constructed model the decayed group is the tied
    embedding/output matrix (listed once), the positional embedding and
    the four weight matrices of every block: [4 * n_layer + 2] tensors
    with [vocab_size * n_embd + block_size * n_embd + 12 * n_layer *
    n_embd^2] elements.  The other group is every layer-norm weight and
    bias and every Linear bias: [8 * n_layer + 2] tensors with [13 *
    n_layer * n_embd + 2 * n_embd] elements.  These two element counts
    are the ones printed. *)
Theorem configure_optimizers_constructed (config : GPTConfig) (s0 : world)
    (weight_decay learning_rate : R) (fused_available cuda : bool) :
  valid_heads config →
  let V := N.of_nat (vocab_size config) in
  let C := N.of_nat (n_embd config) in
  let Bs := N.of_nat (block_size config) in
  let k := N.of_nat (n_layer config) in
  ∃ m s decay non_decay,
    GPT_init config s0 = Ok (m, s) ∧
    configure_optimizers config m weight_decay learning_rate fused_available cuda
      = (mkAdamW_args [mkParamGroup decay weight_decay; mkParamGroup non_decay 0%R]
           learning_rate (0.9%R, 0.95%R) 1e-8%R (fused_available && cuda),
         (V * C + Bs * C + 12 * k * C * C, 13 * k * C + 2 * C)%N) ∧
    decay.*1 = emb_weight (wte m) :: emb_weight (wpe m) :: (h m ≫= Block_matrices) ∧
    non_decay.*1 = (h m ≫= Block_vectors) ++ LayerNorm_parameters (ln_f m) ∧
    length decay = 4 * n_layer config + 2 ∧
    length non_decay = 8 * n_layer config + 2.
Proof.
  intros Hv V C Bs k.
  destruct (GPT_init_state config s0 Hv) as (s1 & Hinit & _).
  set (n := w_next s0) in *. set (K := n_layer config) in *.
  eexists _, _, _, _. split; [exact Hinit|].
  unfold configure_optimizers. cbv zeta.
  rewrite gpt_at_decay_params, gpt_at_non_decay_params.
  destruct (blocks_named_decay config (2 + n) K) as [Hdl Hds].
  destruct (blocks_named_non_decay config (2 + n) K) as [Hnl Hns].
  cbv zeta in Hdl, Hds, Hnl, Hns.
  split; [|split; [|split; [|split]]].
  - f_equal. f_equal.
    + change (numel_sum (?p :: ?q :: ?l)) with (numel p.2 + (numel q.2 + numel_sum l))%N.
      rewrite Hds. unfold numel. cbn [foldr snd]. unfold V, C, Bs, k. lia.
    + rewrite numel_sum_app, Hns. unfold numel_sum at 1, numel. cbn [foldr snd LayerNorm_named].
      unfold C, k. lia.
  - rewrite !fmap_cons, blocks_named_decay_locs. reflexivity.
  - rewrite fmap_app, blocks_named_non_decay_locs. reflexivity.
  - cbn [length]. rewrite Hdl. lia.
  - rewrite length_app, Hnl. cbn [length LayerNorm_named]. lia.
Qed.

Lemma configure_optimizers_constructed_main :
  valid_heads main_config ∧
  ∃ m s decay non_decay,
    GPT_init main_config (mkWorld ∅ 0 0) = Ok (m, s) ∧
    configure_optimizers main_config m 0.1%R 6e-4%R true true
      = (mkAdamW_args [mkParamGroup decay 0.1%R; mkParamGroup non_decay 0%R]
           6e-4%R (0.9%R, 0.95%R) 1e-8%R true,
         (124354560, 121344)%N) ∧
    length decay = 50 ∧ length non_decay = 98.
Proof.
  assert (Hv : valid_heads main_config) by (split; [discriminate|reflexivity]).
  split; [exact Hv|].
  destruct (configure_optimizers_constructed main_config (mkWorld ∅ 0 0) 0.1%R 6e-4%R
              true true Hv) as (m & s & decay & non_decay & Hinit & Hopt & _ & _ & Hd & Hn).
  exists m, s, decay, non_decay.
  split; [exact Hinit|]. split; [|split; [exact Hd|exact Hn]].
  rewrite Hopt. f_equal.
Defined.

(** ** Forward pass: errors, shapes, batching *)

Lemma Embedding_forward_Ok_range θ e (i : Z) (row : vec) :
  Embedding_forward θ e i = Ok row →
  (0 ≤ i < Z.of_nat (length (p_mat θ (emb_weight e))))%Z.
Proof.
  unfold Embedding_forward. case_bool_decide as Hi; [|done].
  destruct (_ !! _) eqn:Hrow; [|done]. intros _.
  apply lookup_lt_Some in Hrow. lia.
Qed.

Lemma tok_emb_Ok_ids config θ self (idx : list (list Z)) (tok_emb : list (list vec)) :
  model_shaped config θ self →
  result_mapM (result_mapM (Embedding_forward θ (wte self))) idx = Ok tok_emb →
  ids_in_vocab config idx.
Proof.
  intros (_ & Hwte & _) Htok. apply result_mapM_Forall2 in Htok.
  unfold ids_in_vocab. induction Htok as [|row emb idx tok_emb Hrow _ IH]; constructor; [|done].
  apply result_mapM_Forall2 in Hrow. clear -Hrow Hwte.
  induction Hrow as [|i v row emb Hi _ IH]; constructor; [|done].
  apply Embedding_forward_Ok_range in Hi. by rewrite Hwte in Hi.
Qed.

Lemma tok_emb_err θ self (idx : list (list Z)) (e : py_error) :
  result_mapM (result_mapM (Embedding_forward θ (wte self))) idx = Err e → e = IndexError.
Proof.
  intros Htok. apply result_mapM_err in Htok as (row & _ & Hrow).
  apply result_mapM_err in Hrow as (i & _ & Hi). by apply Embedding_forward_err in Hi.
Qed.

(** What a successful call has computed. *)
Lemma GPT_forward_Ok_inv erf config θ self idx targets logits loss :
  GPT_forward erf config θ self idx targets = Ok (logits, loss) →
  size1 idx ≤ block_size config ∧
  ∃ pos_emb tok_emb,
    result_mapM (Embedding_forward θ (wpe self)) (map Z.of_nat (seq 0 (size1 idx))) = Ok pos_emb ∧
    result_mapM (result_mapM (Embedding_forward θ (wte self))) idx = Ok tok_emb ∧
    logits = map (logits_seq erf config θ self pos_emb) tok_emb.
Proof.
  rewrite GPT_forward_unfold. case_bool_decide as HT; [|done]. cbn.
  destruct (result_mapM (Embedding_forward θ (wpe self)) _) as [pos_emb|] eqn:Hpos; [|done]. cbn.
  destruct (result_mapM _ idx) as [tok_emb|] eqn:Htok; [|done]. cbn.
  intros H. split; [done|]. exists pos_emb, tok_emb. split; [done|]. split; [done|].
  destruct targets; [destruct (cross_entropy _ _); [|done]|]; cbn in H; congruence.
Qed.

(** X14. For a model whose tables have the constructor's shapes and an
    input within the context length, forward without targets returns
    exactly when every token id lies in [0, vocab_size); with one id
    outside, every call (with or without targets) raises IndexError. *)
Theorem forward_index_error (erf : R → R) (config : GPTConfig) (θ : params) (self : GPT)
    (idx : list (list Z)) :
  model_shaped config θ self → size1 idx ≤ block_size config →
  (ids_in_vocab config idx ↔
   ∃ logits, GPT_forward erf config θ self idx None = Ok (logits, None)) ∧
  (¬ ids_in_vocab config idx →
   ∀ targets, GPT_forward erf config θ self idx targets = Err IndexError).
Proof.
  intros Hshape HT. split; [split|].
  - intros Hids. by apply GPT_forward_ok.
  - intros [logits H]. apply GPT_forward_Ok_inv in H as (_ & pos_emb & tok_emb & _ & Htok & _).
    by eapply tok_emb_Ok_ids.
  - intros Hids targets.
    destruct (pos_emb_ok config θ self (size1 idx) Hshape HT) as (pos_emb & Hpos & _).
    rewrite GPT_forward_unfold, bool_decide_eq_true_2 by done. cbn.
    rewrite Hpos. cbn.
    destruct (result_mapM _ idx) as [tok_emb|e] eqn:Htok.
    + exfalso. apply Hids. by eapply tok_emb_Ok_ids.
    + apply tok_emb_err in Htok as ->. reflexivity.
Qed.

Lemma forward_index_error_example :
  let config := mkGPTConfig 2 2 1 1 1 1 in
  let θ := mkParams (λ _, [[1%R]; [1%R]]) (λ _, [1%R]) in
  (∃ logits, GPT_forward (λ _, 0%R) config θ (gpt_at 0 1) [[0; 1]%Z] None = Ok (logits, None)) ∧
  GPT_forward (λ _, 0%R) config θ (gpt_at 0 1) [[0; 2]%Z] None = Err IndexError ∧
  GPT_forward (λ _, 0%R) config θ (gpt_at 0 1) [[(-1); 0]%Z] (Some [[0; 0]%Z]) = Err IndexError.
Proof.
  intros config θ.
  assert (Hshape : model_shaped config θ (gpt_at 0 1)) by (repeat split; reflexivity).
  split; [|split].
  - apply (forward_index_error (λ _, 0%R) config θ (gpt_at 0 1) [[0; 1]%Z] Hshape); [cbn; lia|].
    repeat constructor; cbn; lia.
  - apply (forward_index_error (λ _, 0%R) config θ (gpt_at 0 1) [[0; 2]%Z] Hshape); [cbn; lia|].
    intros H. apply Forall_cons in H as [H _]. apply Forall_cons in H as [_ H].
    apply Forall_cons in H as [H _]. cbn in H. lia.
  - apply (forward_index_error (λ _, 0%R) config θ (gpt_at 0 1) [[(-1); 0]%Z] Hshape); [cbn; lia|].
    intros H. apply Forall_cons in H as [H _]. apply Forall_cons in H as [H _]. lia.
Defined.

Lemma logits_rows_shape erf config θ self (T : nat) (idx : list (list Z))
    (pos_emb : list vec) (tok_emb : list (list vec)) :
  model_shaped config θ self →
  length pos_emb = T → Forall (λ row, length row = T) idx →
  Forall2 (λ row emb, result_mapM (Embedding_forward θ (wte self)) row = Ok emb) idx tok_emb →
  Forall (λ row, length row = T ∧ Forall (λ v, length v = vocab_size config) row)
         (map (logits_seq erf config θ self pos_emb) tok_emb).
Proof.
  intros Hshape Hpos Hrect Htok. apply Forall_fmap.
  induction Htok as [|row emb idx' tok_emb Hrow _ IH]; [constructor|].
  apply Forall_cons in Hrect as [Hr Hrect].
  constructor; [|by apply IH].
  cbn. split; [|by apply logits_seq_vocab].
  apply result_mapM_length in Hrow. rewrite length_logits_seq. lia.
Qed.

(** X15. Logits have the shape (B, T, vocab_size): whenever forward
    returns for a rectangular (B, T) input, there is one row of logits
    per input row, one logit vector per position, and every logit vector
    has [vocab_size] entries. *)
Theorem forward_logits_shape (erf : R → R) (config : GPTConfig) (θ : params) (self : GPT)
    (idx : list (list Z)) (targets : option (list (list Z)))
    (logits : list (list vec)) (loss : option R) :
  model_shaped config θ self → rectangular idx →
  GPT_forward erf config θ self idx targets = Ok (logits, loss) →
  length logits = length idx ∧
  Forall (λ row, length row = size1 idx ∧
                 Forall (λ v, length v = vocab_size config) row) logits.
Proof.
  intros Hshape Hrect H.
  apply GPT_forward_Ok_inv in H as (_ & pos_emb & tok_emb & Hpos & Htok & ->).
  apply result_mapM_length in Hpos. rewrite length_fmap, length_seq in Hpos.
  apply result_mapM_Forall2 in Htok.
  split; [rewrite length_fmap; symmetry; by eapply Forall2_length|].
  by eapply logits_rows_shape.
Qed.

Lemma forward_logits_shape_example :
  let config := mkGPTConfig 2 2 1 1 1 1 in
  let θ := mkParams (λ _, [[1%R]; [1%R]]) (λ _, [1%R]) in
  ∃ logits,
    GPT_forward (λ _, 0%R) config θ (gpt_at 0 1) [[0; 1]; [1; 1]; [0; 0]]%Z None
      = Ok (logits, None) ∧
    length logits = 3 ∧
    Forall (λ row, length row = 2 ∧ Forall (λ v, length v = 2) row) logits.
Proof.
  intros config θ.
  assert (Hshape : model_shaped config θ (gpt_at 0 1)) by (repeat split; reflexivity).
  destruct (GPT_forward_ok (λ _, 0%R) config θ (gpt_at 0 1) [[0; 1]; [1; 1]; [0; 0]]%Z Hshape)
    as [logits H]; [cbn; lia|repeat constructor; cbn; lia|].
  exists logits. split; [exact H|].
  apply (forward_logits_shape (λ _, 0%R) config θ (gpt_at 0 1) [[0; 1]; [1; 1]; [0; 0]]%Z
           None logits None Hshape); [repeat constructor|exact H].
Defined.

(** X16. Rows of a batch do not interact: whenever forward returns for
    a rectangular batch, the logits of row [b] are exactly what forward
    returns for that row alone, as a batch of one. *)
Theorem forward_rows_independent (erf : R → R) (config : GPTConfig) (θ : params) (self : GPT)
    (idx : list (list Z)) (targets : option (list (list Z)))
    (logits : list (list vec)) (loss : option R) (b : nat) (row : list Z) :
  rectangular idx →
  GPT_forward erf config θ self idx targets = Ok (logits, loss) →
  idx !! b = Some row →
  ∃ y, logits !! b = Some y ∧
       GPT_forward erf config θ self [row] None = Ok ([y], None).
Proof.
  intros Hrect H Hb.
  apply GPT_forward_Ok_inv in H as (HT & pos_emb & tok_emb & Hpos & Htok & ->).
  apply result_mapM_Forall2 in Htok.
  destruct (Forall2_lookup_l _ _ _ _ _ Htok Hb) as (emb & Hemb & Hrow).
  exists (logits_seq erf config θ self pos_emb emb).
  split; [by rewrite list_lookup_fmap, Hemb|].
  assert (Hlen : size1 [row] = size1 idx).
  { unfold rectangular in Hrect. rewrite Forall_lookup in Hrect. exact (Hrect b row Hb). }
  rewrite GPT_forward_unfold, Hlen, bool_decide_eq_true_2 by done. cbn.
  rewrite Hpos. cbn. rewrite Hrow. reflexivity.
Qed.

Lemma forward_rows_independent_example :
  let config := mkGPTConfig 2 2 1 1 1 1 in
  let θ := mkParams (λ _, [[1%R]; [1%R]]) (λ _, [1%R]) in
  ∃ logits y,
    GPT_forward (λ _, 0%R) config θ (gpt_at 0 1) [[0; 1]; [1; 1]]%Z None = Ok (logits, None) ∧
    logits !! 1 = Some y ∧
    GPT_forward (λ _, 0%R) config θ (gpt_at 0 1) [[1; 1]]%Z None = Ok ([y], None).
Proof.
  intros config θ.
  assert (Hshape : model_shaped config θ (gpt_at 0 1)) by (repeat split; reflexivity).
  destruct (GPT_forward_ok (λ _, 0%R) config θ (gpt_at 0 1) [[0; 1]; [1; 1]]%Z Hshape)
    as [logits H]; [cbn; lia|repeat constructor; cbn; lia|].
  destruct (forward_rows_independent (λ _, 0%R) config θ (gpt_at 0 1) [[0; 1]; [1; 1]]%Z
              None logits None 1 [1; 1]%Z) as (y & Hy & Hrow);
    [repeat constructor|exact H|reflexivity|].
  exists logits, y. split; [exact H|]. split; [exact Hy|exact Hrow].
Defined.

(** ** Forward pass: the targets *)

Lemma cross_entropy_item_ok (x : vec) (t : Z) :
  target_ok (length x) t → ∃ l, cross_entropy_item x t = Ok l.
Proof.
  intros [->|Ht]; unfold cross_entropy_item.
  - rewrite bool_decide_eq_true_2 by done. by eexists.
  - case_bool_decide; [by eexists|]. rewrite bool_decide_eq_true_2 by done. by eexists.
Qed.

Lemma cross_entropy_item_Ok_inv (x : vec) (t : Z) (l : option R) :
  cross_entropy_item x t = Ok l → target_ok (length x) t.
Proof.
  unfold cross_entropy_item, target_ok. case_bool_decide as Hi; [by left|].
  case_bool_decide as Hr; [by right|done].
Qed.

Lemma cross_entropy_items_ok (V : nat) (xs : list vec) (ts : list Z) :
  Forall (λ x, length x = V) xs → Forall (target_ok V) ts →
  ∃ ls, result_mapM (λ xt, cross_entropy_item xt.1 xt.2) (zip xs ts) = Ok ls.
Proof.
  intros Hx Ht. apply result_mapM_ok.
  revert ts Ht. induction Hx as [|x xs Hx _ IH]; intros [|t ts] Ht; cbn [zip zip_with];
    try constructor.
  - apply Forall_cons in Ht as [Ht _]. cbn. apply cross_entropy_item_ok. by rewrite Hx.
  - apply Forall_cons in Ht as [_ Ht]. by apply IH.
Qed.

Lemma cross_entropy_items_Ok_inv (V : nat) (xs : list vec) (ts : list Z) (ls : list (option R)) :
  length xs = length ts → Forall (λ x, length x = V) xs →
  result_mapM (λ xt, cross_entropy_item xt.1 xt.2) (zip xs ts) = Ok ls →
  Forall (target_ok V) ts.
Proof.
  intros Hlen Hx. revert ts ls Hlen.
  induction Hx as [|x xs Hx _ IH]; intros [|t ts] ls Hlen; try done.
  cbn [zip zip_with result_mapM fst snd].
  destruct (cross_entropy_item x t) as [l|] eqn:Hl; [|done]. cbn.
  destruct (result_mapM _ _) as [ls'|] eqn:Hls; [|done]. intros _.
  constructor.
  - apply cross_entropy_item_Ok_inv in Hl. by rewrite Hx in Hl.
  - eapply IH; [|exact Hls]. cbn in Hlen. lia.
Qed.

(** X17. Forward checks the targets only after flattening them.  For
    an input forward accepts, a call with targets raises ValueError
    exactly when the number of target entries differs from B*T,
    whatever their arrangement in rows; with the right number it raises
    IndexError exactly when some target is neither a class index in
    [0, vocab_size) nor the ignored value -100; otherwise it returns
    the logits of the call without targets together with a loss. *)
Theorem forward_targets_errors (erf : R → R) (config : GPTConfig) (θ : params) (self : GPT)
    (idx targets : list (list Z)) :
  model_shaped config θ self → size1 idx ≤ block_size config →
  rectangular idx → ids_in_vocab config idx →
  let n := length idx * size1 idx in
  (length (mjoin targets) ≠ n →
   GPT_forward erf config θ self idx (Some targets) = Err ValueError) ∧
  (length (mjoin targets) = n → ¬ Forall (target_ok (vocab_size config)) (mjoin targets) →
   GPT_forward erf config θ self idx (Some targets) = Err IndexError) ∧
  (length (mjoin targets) = n → Forall (target_ok (vocab_size config)) (mjoin targets) →
   ∃ logits loss,
     GPT_forward erf config θ self idx (Some targets) = Ok (logits, Some loss) ∧
     GPT_forward erf config θ self idx None = Ok (logits, None)).
Proof.
  intros Hshape HT Hrect Hids n.
  destruct (pos_emb_ok config θ self (size1 idx) Hshape HT) as (pos_emb & Hpos & Hplen).
  destruct (tok_emb_ok config θ self idx Hshape Hids) as (tok_emb & Htok & _).
  set (logits := map (logits_seq erf config θ self pos_emb) tok_emb).
  assert (Hrows : Forall (λ row, length row = size1 idx ∧
                                 Forall (λ v, length v = vocab_size config) row) logits).
  { eapply logits_rows_shape; [done|done|exact Hrect|]. by apply result_mapM_Forall2. }
  assert (Hn : length (mjoin logits) = n).
  { rewrite (length_mjoin_rect logits (size1 idx)).
    - unfold logits, n. rewrite length_fmap. apply result_mapM_length in Htok. by rewrite Htok.
    - eapply Forall_impl; [exact Hrows|]. by intros row [? _]. }
  assert (Hv : Forall (λ v, length v = vocab_size config) (mjoin logits)).
  { apply Forall_join. eapply Forall_impl; [exact Hrows|]. by intros row [_ ?]. }
  assert (Hfwd : ∀ tg, GPT_forward erf config θ self idx tg
                 = loss ← match tg with
                          | Some tg => l ← cross_entropy (mjoin logits) (mjoin tg); Ok (Some l)
                          | None => Ok None
                          end; Ok (logits, loss)).
  { intros tg. rewrite GPT_forward_unfold, bool_decide_eq_true_2 by done. cbn.
    rewrite Hpos. cbn. rewrite Htok. reflexivity. }
  split; [|split].
  - intros Hne. rewrite Hfwd. unfold cross_entropy.
    rewrite bool_decide_eq_false_2 by congruence. reflexivity.
  - intros Heq Hbad. rewrite Hfwd. unfold cross_entropy.
    rewrite bool_decide_eq_true_2 by congruence.
    destruct (result_mapM _ (zip (mjoin logits) (mjoin targets))) as [ls|e] eqn:Hls.
    + exfalso. apply Hbad.
      eapply cross_entropy_items_Ok_inv; [|exact Hv|exact Hls]. congruence.
    + apply result_mapM_err in Hls as ([x t] & _ & Hxt).
      unfold cross_entropy_item in Hxt. cbn in Hxt.
      repeat case_bool_decide; try done. by injection Hxt as <-.
  - intros Heq Hgood. rewrite !Hfwd. unfold cross_entropy.
    rewrite bool_decide_eq_true_2 by congruence.
    destruct (cross_entropy_items_ok (vocab_size config) (mjoin logits) (mjoin targets) Hv Hgood)
      as [ls ->].
    eexists _, _. split; reflexivity.
Qed.

(** Targets of shape (2, 1) for an input of shape (1, 2) are accepted. *)
Lemma forward_targets_errors_example :
  let config := mkGPTConfig 2 2 1 1 1 1 in
  let θ := mkParams (λ _, [[1%R]; [1%R]]) (λ _, [1%R]) in
  (∃ logits loss,
     GPT_forward (λ _, 0%R) config θ (gpt_at 0 1) [[0; 1]%Z] (Some [[1]; [-100]]%Z)
       = Ok (logits, Some loss) ∧
     GPT_forward (λ _, 0%R) config θ (gpt_at 0 1) [[0; 1]%Z] None = Ok (logits, None)) ∧
  GPT_forward (λ _, 0%R) config θ (gpt_at 0 1) [[0; 1]%Z] (Some [[1]]%Z) = Err ValueError ∧
  GPT_forward (λ _, 0%R) config θ (gpt_at 0 1) [[0; 1]%Z] (Some [[1; 2]]%Z) = Err IndexError.
Proof.
  intros config θ.
  assert (Hshape : model_shaped config θ (gpt_at 0 1)) by (repeat split; reflexivity).
  assert (HT : size1 [[0; 1]%Z] ≤ block_size config) by (cbn; lia).
  assert (Hrect : rectangular [[0; 1]%Z]) by (repeat constructor).
  assert (Hids : ids_in_vocab config [[0; 1]%Z]) by (repeat constructor; cbn; lia).
  split; [|split].
  - apply (forward_targets_errors (λ _, 0%R) config θ (gpt_at 0 1) [[0; 1]%Z] [[1]; [-100]]%Z
             Hshape HT Hrect Hids); [reflexivity|].
    change (Forall (target_ok 2) [1; -100]%Z).
    apply Forall_cons. split; [right; lia|].
    apply Forall_cons. split; [by left|constructor].
  - apply (forward_targets_errors (λ _, 0%R) config θ (gpt_at 0 1) [[0; 1]%Z] [[1]]%Z
             Hshape HT Hrect Hids). cbn. lia.
  - apply (forward_targets_errors (λ _, 0%R) config θ (gpt_at 0 1) [[0; 1]%Z] [[1; 2]]%Z
             Hshape HT Hrect Hids); [reflexivity|].
    change (¬ Forall (target_ok 2) [1; 2]%Z).
    intros H. apply Forall_cons in H as [_ H]. apply Forall_cons in H as [[H|H] _].
    + discriminate H.
    + lia.
Defined.

(** ** Gradient accumulation *)

(** X18. When the set-up of the training run passes its assertion, the
    number of micro-steps times the batch size B*T is exactly
    [total_batch_size]; and over at least [B*T + 1] tokens every
    macro-step of the loop, whatever came before it, gets its
    [grad_accum_steps] batches from the loader without an exception,
    each of shape (B, T), holding [total_batch_size] input tokens and as
    many targets. *)
Theorem macro_step_tokens (total_batch_size B T g : nat) (tokens : list Z) :
  main_grad_accum_steps total_batch_size B T = Ok g →
  B * T + 1 ≤ length tokens →
  g * (B * T) = total_batch_size ∧
  ∀ step, ∃ before self_s bs self',
    next_batches (step * g) (DataLoaderLite_init B T tokens) = Ok (before, self_s) ∧
    next_batches g self_s = Ok (bs, self') ∧
    length bs = g ∧
    Forall (batch_shape B T) bs ∧
    length (inputs_of bs) = total_batch_size ∧
    length (targets_of bs) = total_batch_size.
Proof.
  intros Hg HL. unfold main_grad_accum_steps in Hg.
  case_bool_decide as HW; [done|]. case_bool_decide as Hmod; [|done].
  injection Hg as <-.
  assert (Hdiv : total_batch_size / (B * T) * (B * T) = total_batch_size).
  { pose proof (Nat.div_mod total_batch_size (B * T) HW). lia. }
  split; [exact Hdiv|]. intros step.
  destruct (next_batches_windows B T tokens (step * (total_batch_size / (B * T))) 0)
    as (cs0 & c & Hrun0 & _ & _ & Hc); [lia|].
  destruct (next_batches_windows B T tokens (total_batch_size / (B * T)) c Hc)
    as (cs & c' & Hrun & Hlen & Hfit & _).
  destruct (inputs_of_windows B T tokens cs Hfit) as [Hin Htg].
  eexists _, _, _, _. split; [exact Hrun0|]. split; [exact Hrun|].
  split; [by rewrite length_map|]. split; [|by rewrite Hin, Htg, Hlen].
  apply Forall_fmap. eapply Forall_impl; [exact Hfit|]. intros c1 Hc1. cbn beta.
  by destruct (window_at_shape B T tokens c1 Hc1) as (Hsh & _).
Qed.

(** The configuration of the script: 256 micro-steps of 2 rows of 1024
    tokens. *)
Lemma macro_step_tokens_main :
  main_grad_accum_steps 524288 (batch_size main_config) (block_size main_config) = Ok 256 ∧
  ∃ before self_s bs self',
    next_batches (3 * 256)
        (DataLoaderLite_init (batch_size main_config) (block_size main_config)
           (replicate 5000 0%Z))
      = Ok (before, self_s) ∧
    next_batches 256 self_s = Ok (bs, self') ∧
    length (inputs_of bs) = 524288.
Proof.
  assert (Hg : main_grad_accum_steps 524288 (batch_size main_config) (block_size main_config)
               = Ok 256) by (vm_compute; reflexivity).
  split; [exact Hg|].
  destruct (macro_step_tokens 524288 (batch_size main_config) (block_size main_config) 256
              (replicate 5000 0%Z) Hg) as [_ Hstep].
  { rewrite length_replicate. apply Nat.leb_le. vm_compute. reflexivity. }
  destruct (Hstep 3) as (before & self_s & bs & self' & H0 & H1 & _ & _ & Hin & _).
  exists before, self_s, bs, self'. split; [exact H0|]. split; [exact H1|exact Hin].
Defined.

(** ** Attention weights *)

Section AttentionWeights.
Local Open Scope R_scope.

Lemma Rsum_scale (c : R) (l : list R) : Rsum (map (λ e, e / c) l) = Rsum l / c.
Proof.
  induction l as [|x l IH]; [cbn; lra|].
  cbn [map]. rewrite !Rsum_cons, IH. lra.
Qed.

Lemma Rsum_lookup_le (l : list R) (j : nat) (e : R) :
  Forall (λ e, 0 <= e) l → l !! j = Some e → e <= Rsum l.
Proof.
  intros Hl. revert j. induction Hl as [|x l Hx Hl IH]; intros [|j] Hj; try done.
  - injection Hj as ->. rewrite Rsum_cons. pose proof (Rsum_nonneg l Hl). lra.
  - rewrite Rsum_cons. specialize (IH j Hj). lra.
Qed.

Lemma masked_exp_lookup (scale : R) (k : list vec) (i j : nat) (qi : vec) (e : R) :
  map exp_ext (imap (λ j kj, causal_bias i j (dot qi kj * scale)) k) !! j = Some e →
  ((j ≤ i)%nat → 0 < e) ∧ ((i < j)%nat → e = 0).
Proof.
  rewrite list_lookup_fmap, list_lookup_imap. destruct (k !! j) as [kj|]; [|done].
  cbn. unfold causal_bias. intros [= <-]. split; intros Hj.
  - rewrite bool_decide_eq_true_2 by done. apply exp_pos.
  - rewrite bool_decide_eq_false_2 by lia. done.
Qed.

Lemma masked_exp_sum_pos (scale : R) (k : list vec) (i : nat) (qi : vec) :
  (0 < length k)%nat →
  0 < Rsum (map exp_ext (imap (λ j kj, causal_bias i j (dot qi kj * scale)) k)).
Proof.
  intros Hk. set (es := map exp_ext _).
  assert (Hnn : Forall (λ e, 0 <= e) es).
  { apply Forall_lookup. intros j e He. apply masked_exp_lookup in He as [Hle Hgt].
    destruct (decide (j ≤ i)%nat); [specialize (Hle ltac:(done)); lra|].
    rewrite Hgt by lia. lra. }
  destruct (lookup_lt_is_Some_2 es 0) as [e0 He0].
  { unfold es. rewrite length_fmap, length_imap. done. }
  pose proof (Rsum_lookup_le es 0 e0 Hnn He0) as Hle.
  apply masked_exp_lookup in He0 as [Hpos _]. specialize (Hpos ltac:(lia)). lra.
Qed.

(** X19. Attention is an average over the present and the past: at
    every position [i] the output of the attention call is the product
    of a weight row with the value matrix, where the weights are a
    probability distribution over the key positions (they sum to 1),
    strictly positive on positions [j <= i] and exactly zero on every
    later position. *)
Theorem attention_weights_distribution (E : nat) (q k v : list vec) (i : nat) (qi : vec) :
  q !! i = Some qi → (i < length k)%nat →
  ∃ w : list R,
    scaled_dot_product_attention E q k v !! i = Some (row_matmul E w v) ∧
    length w = length k ∧
    Rsum w = 1 ∧
    ∀ j wj, w !! j = Some wj → ((j ≤ i)%nat → 0 < wj) ∧ ((i < j)%nat → wj = 0).
Proof.
  intros Hq Hi. exists (attn_weight (1 / sqrt (INR E)) k i qi).
  split; [|split; [|split]].
  - unfold scaled_dot_product_attention. cbv zeta. by rewrite list_lookup_imap, Hq.
  - unfold attn_weight, softmax_ext. by rewrite !length_fmap, length_imap.
  - unfold attn_weight, softmax_ext. cbv zeta. rewrite Rsum_scale.
    pose proof (masked_exp_sum_pos (1 / sqrt (INR E)) k i qi ltac:(lia)) as Hpos.
    field. lra.
  - intros j wj. unfold attn_weight, softmax_ext. cbv zeta.
    rewrite list_lookup_fmap.
    destruct (_ !! j) as [e|] eqn:He; [|done]. cbn. intros [= <-].
    pose proof (masked_exp_sum_pos (1 / sqrt (INR E)) k i qi ltac:(lia)) as Hpos.
    apply masked_exp_lookup in He as [Hle Hgt]. split; intros Hj.
    + apply Rdiv_lt_0_compat; [by apply Hle|done].
    + rewrite Hgt by done. unfold Rdiv. apply Rmult_0_l.
Qed.

Lemma attention_weights_distribution_example :
  ∃ w : list R,
    scaled_dot_product_attention 1 [[1]; [2]; [3]] [[1]; [0]; [2]] [[5]; [6]; [7]] !! 1%nat
      = Some (row_matmul 1 w [[5]; [6]; [7]]) ∧
    length w = 3%nat ∧ Rsum w = 1 ∧ w !! 2%nat = Some 0.
Proof.
  destruct (attention_weights_distribution 1 [[1]; [2]; [3]] [[1]; [0]; [2]] [[5]; [6]; [7]]
              1%nat [2]) as (w & Hout & Hlen & Hsum & Hw); [reflexivity|cbn; lia|].
  exists w. split; [exact Hout|]. split; [exact Hlen|]. split; [exact Hsum|].
  destruct (lookup_lt_is_Some_2 w 2%nat) as [w2 Hw2]; [rewrite Hlen; cbn; lia|].
  rewrite Hw2. f_equal. apply (Hw 2%nat w2 Hw2). lia.
Defined.

End AttentionWeights.
